(** * The DRTI decoration pass ([passes/drti-decorate.cpp])

    A shallow embedding of the module pass [drti::Decorate] and of the
    [drti::DecoratePass] helper class it drives, over a small model of the
    LLVM IR objects the pass reads and rewrites.

    Conventions of the embedding:
    - an LLVM object that the pass holds by pointer ([llvm::Function*],
      [llvm::GlobalVariable*], [llvm::BasicBlock*], [llvm::Instruction*])
      carries a handle of type [ptr]; two objects are the same object when
      their handles agree, whatever their names are;
    - names are the names the pass asks for; the suffix LLVM's symbol table
      appends to a name that is already taken is not modelled, and nothing
      below identifies an object the pass created by its name;
    - [report_fatal_error] is the outcome [Fatal]; a request LLVM answers
      with a failed assertion (indexing a struct type past its last field)
      is the outcome [Undefined];
    - what [DEBUG_WITH_TYPE] and [llvm::dbgs()] print is not modelled. *)

From Stdlib Require Import ZArith List String Ascii Lia.
From Stdlib.Sorting Require Import Sorted.
From Stdlib.Strings Require Import Byte.
From stdpp Require Import base gmap sets strings list.

Set Warnings "-register-all".

(** ** Outcomes of fallible steps *)

Inductive outcome (A : Type) : Type :=
| Ok (a : A)
| Fatal (msg : string)
| Undefined (what : string).
Arguments Ok {A} a.
Arguments Fatal {A} msg.
Arguments Undefined {A} what.

Definition obind {A B} (x : outcome A) (k : A -> outcome B) : outcome B :=
  match x with
  | Ok a => k a
  | Fatal msg => Fatal msg
  | Undefined what => Undefined what
  end.

Notation "'do' x <- c1 ; c2" := (obind c1 (fun x => c2))
  (at level 10, x name, c1 at level 100, c2 at level 200,
   format "'[v' 'do'  x  <-  c1 ; '/' c2 ']'").

Notation "'do' ( x , y ) <- c1 ; c2" := (obind c1 (fun xy => let '(x, y) := xy in c2))
  (at level 10, x name, y name, c1 at level 100, c2 at level 200,
   format "'[v' 'do'  ( x ,  y )  <-  c1 ; '/' c2 ']'").

(** ** Target specification: [split_stream] and [targets_from_environment] *)

Module Config.

(** What the pass can see of the process environment: [getenv], and the
    contents of a file an [std::ifstream] manages to open ([None] when it
    cannot be opened, in which case every extraction fails). *)
Record Env := {
  getenv : string -> option string;
  file_contents : string -> option string
}.

(** The configuration sources the pass consulted, in order. *)
Inductive io_event :=
| EvGetenv (name : string)
| EvOpenFile (path : string).

(** [std::isspace] in the "C" locale. *)
Definition isspace (c : ascii) : bool :=
  let n := nat_of_ascii c in
  (n =? 32) || ((9 <=? n) && (n <=? 13)).

(** The words [stream >> symbol] extracts, in order: leading white space is
    skipped and a word ends at the next white space or at the end of the
    input.  [cur] is the word read so far. *)
Fixpoint words_from (cur : string) (s : string) : list string :=
  match s with
  | EmptyString => if String.eqb cur "" then [] else [cur]
  | String c rest =>
      if isspace c
      then (if String.eqb cur "" then words_from "" rest
            else cur :: words_from "" rest)
      else words_from (cur +:+ String c "") rest
  end.

Definition words (s : string) : list string := words_from "" s.

(** [split_stream]: every extracted word is inserted into the set. *)
Definition split_stream (stream : string) (symbols : gset string) : gset string :=
  fold_left (fun acc w => {[ w ]} ∪ acc) (words stream) symbols.

Definition no_targets_message : string :=
  "No target functions found. Have you set DRTI_TARGET_NAMES and/or DRTI_TARGETS_FILE?".

(** The set after the [DRTI_TARGET_NAMES] step. *)
Definition after_names (env : Env) : gset string :=
  match getenv env "DRTI_TARGET_NAMES" with
  | Some target_names => split_stream target_names ∅
  | None => ∅
  end.

(** The set after the [DRTI_TARGETS_FILE] step. *)
Definition after_file (env : Env) (result : gset string) : gset string :=
  match getenv env "DRTI_TARGETS_FILE" with
  | Some targets_file =>
      match file_contents env targets_file with
      | Some text => split_stream text result
      | None => result
      end
  | None => result
  end.

Definition targets_from_environment (env : Env) : outcome (gset string) :=
  let result := after_file env (after_names env) in
  if bool_decide (result = ∅) then Fatal no_targets_message else Ok result.

(** The sources [targets_from_environment] consults. *)
Definition targets_from_environment_reads (env : Env) : list io_event :=
  [EvGetenv "DRTI_TARGET_NAMES"; EvGetenv "DRTI_TARGETS_FILE"] ++
  match getenv env "DRTI_TARGETS_FILE" with
  | Some targets_file => [EvOpenFile targets_file]
  | None => []
  end.

(** The names the two configuration sources supply together, as the
    specification counts them: the words of the inline list followed by the
    words of the names file. *)
Definition configured_names (env : Env) : list string :=
  match getenv env "DRTI_TARGET_NAMES" with
  | Some target_names => words target_names
  | None => []
  end ++
  match getenv env "DRTI_TARGETS_FILE" with
  | Some targets_file =>
      match file_contents env targets_file with
      | Some text => words text
      | None => []
      end
  | None => []
  end.

(** [needle] occurs in [hay]. *)
Definition mentions (hay needle : string) : Prop :=
  exists before after, hay = before +:+ needle +:+ after.

End Config.

(** ** The IR objects the pass works on *)

(** A handle: the address of an LLVM object. *)
Definition ptr := nat.

(** [llvm::Type].  Types are uniqued by their LLVM context, so that two
    [llvm::Type*] are equal exactly when the types are structurally equal;
    an identified struct type is known by its name. *)
Inductive ty : Type :=
| TVoid
| TInt (bits : N)
| TPtr (elem : ty)
| TStruct (name : string)
| TArray (len : N) (elem : ty)
| TFunc (ret : ty) (params : list ty) (vararg : bool).

Fixpoint ty_eqb (a b : ty) {struct a} : bool :=
  match a, b with
  | TVoid, TVoid => true
  | TInt n, TInt m => N.eqb n m
  | TPtr x, TPtr y => ty_eqb x y
  | TStruct s, TStruct t => String.eqb s t
  | TArray n x, TArray m y => N.eqb n m && ty_eqb x y
  | TFunc r ps v, TFunc r' ps' v' =>
      ty_eqb r r' &&
      (fix all2 (l l' : list ty) {struct l} : bool :=
         match l, l' with
         | [], [] => true
         | x :: l, y :: l' => ty_eqb x y && all2 l l'
         | _, _ => false
         end) ps ps' &&
      Bool.eqb v v'
  | _, _ => false
  end.

(** [llvm::Value], as far as the pass tells values apart.  A use of an
    instruction result, of an argument or of a global carries the handle of
    what it refers to and its type. *)
Inductive cast_op := CastBitCast | CastPtrToInt | CastIntToPtr.

Inductive value : Type :=
| VInst (id : ptr) (t : ty)
| VArg (n : nat) (t : ty)
| VInlineAsm (fty : ty) (text : string)
| VFunction (f : ptr) (fty : ty)
| VGlobalVar (g : ptr) (vty : ty)
| VConstInt (bits : N) (v : Z)
| VNull (t : ty)
| VCastExpr (op : cast_op) (v : value) (t : ty)
| VDataArray (bytes : list byte)
| VConstArray (elt : ty) (elems : list value)
| VConstStruct (t : ty) (members : list value)
| VAggregateZero (t : ty)
| VConstExpr (t : ty) (mnemonic : string) (operands : list value).

(** [Value::getType]. *)
Definition value_type (v : value) : ty :=
  match v with
  | VInst _ t | VArg _ t | VNull t | VCastExpr _ _ t
  | VConstStruct t _ | VAggregateZero t | VConstExpr t _ _ => t
  | VInlineAsm fty _ | VFunction _ fty => TPtr fty
  | VGlobalVar _ vty => TPtr vty
  | VConstInt bits _ => TInt bits
  | VDataArray bytes => TArray (N.of_nat (length bytes)) (TInt 8)
  | VConstArray elt elems => TArray (N.of_nat (length elems)) elt
  end.

(** [llvm::isa<llvm::Constant>]. *)
Definition is_constant (v : value) : bool :=
  match v with
  | VInst _ _ | VArg _ _ | VInlineAsm _ _ => false
  | _ => true
  end.

Inductive tail_call_kind := TCK_None | TCK_Tail | TCK_MustTail | TCK_NoTail.

(** Instructions.  [Call], [Invoke] and [CallBr] are the three subclasses of
    [llvm::CallBase]; only [Call] is an [llvm::CallInst]. *)
Inductive opcode : Type :=
| Alloca (allocated : ty)
| Call (tck : tail_call_kind) (callee : value) (args : list value)
| Invoke (callee : value) (args : list value) (normal unwind : ptr)
| CallBr (callee : value) (args : list value) (fallthrough : ptr) (indirect : list ptr)
| PHI (incoming : list (value * ptr))
| Cast (op : cast_op) (v : value)
| And (a b : value)
| ICmpEQ (a b : value)
| GetElementPtr (inbounds : bool) (base : value) (indexes : list value)
| Load (addr : value)
| Br (dest : ptr)
| CondBr (cond : value) (iftrue iffalse : ptr)
| Ret (v : option value)
| Unreachable
| OtherInst (mnemonic : string) (operands : list value) (successors : list ptr).

Record Instruction := {
  inst_id : ptr;
  inst_name : string;
  inst_type : ty;
  inst_op : opcode
}.

Record BasicBlock := {
  bb_id : ptr;
  bb_name : string;
  bb_insts : list Instruction
}.

Inductive fn_attr := OptimizeNone | NoInline | OtherAttr (name : string).

Record Function := {
  fn_id : ptr;
  fn_name : string;
  fn_type : ty;
  fn_attrs : list fn_attr;
  fn_blocks : list BasicBlock
}.

Inductive linkage := ExternalLinkage | InternalLinkage | OtherLinkage (name : string).

Record GlobalVariable := {
  gv_id : ptr;
  gv_name : string;
  gv_value_type : ty;
  gv_constant : bool;
  gv_linkage : linkage;
  gv_init : option value
}.

(** A module: its target triple, the named struct types of its context
    ([None] for an opaque one), its global variables and its functions, each
    list in module order. *)
Record Module := {
  mod_triple : string;
  mod_struct_types : list (string * option (list ty));
  mod_globals : list GlobalVariable;
  mod_functions : list Function
}.

(** *** Reading the IR *)

Definition the_use (i : Instruction) : value := VInst (inst_id i) (inst_type i).

Definition is_alloca (i : Instruction) : bool :=
  match inst_op i with Alloca _ => true | _ => false end.

Definition is_phi (i : Instruction) : bool :=
  match inst_op i with PHI _ => true | _ => false end.

Definition is_terminator (i : Instruction) : bool :=
  match inst_op i with
  | Invoke _ _ _ _ | CallBr _ _ _ _ | Br _ | CondBr _ _ _ | Ret _ | Unreachable => true
  | OtherInst _ _ succs => negb (Nat.eqb (length succs) 0)
  | _ => false
  end.

(** [llvm::dyn_cast<llvm::CallBase>] followed by [getCalledOperand]. *)
Definition called_operand (i : Instruction) : option value :=
  match inst_op i with
  | Call _ callee _ | Invoke callee _ _ _ | CallBr callee _ _ _ => Some callee
  | _ => None
  end.

(** [CallBase::isInlineAsm]. *)
Definition is_inline_asm (callee : value) : bool :=
  match callee with VInlineAsm _ _ => true | _ => false end.

(** [CallBase::setCalledOperand]. *)
Definition setCalledOperand (target : value) (i : Instruction) : Instruction :=
  {| inst_id := inst_id i; inst_name := inst_name i; inst_type := inst_type i;
     inst_op := match inst_op i with
                | Call tck _ args => Call tck target args
                | Invoke _ args n u => Invoke target args n u
                | CallBr _ args ft ind => CallBr target args ft ind
                | op => op
                end |}.

(** [CallInst::setTailCallKind], applied after
    [llvm::dyn_cast<llvm::CallInst>]: nothing happens to an [Invoke] or a
    [CallBr]. *)
Definition setTailCallKind_if_CallInst (k : tail_call_kind) (i : Instruction) : Instruction :=
  {| inst_id := inst_id i; inst_name := inst_name i; inst_type := inst_type i;
     inst_op := match inst_op i with
                | Call _ callee args => Call k callee args
                | op => op
                end |}.

(** [BasicBlock::getTerminator]: the last instruction when it is a
    terminator. *)
Definition getTerminator (b : BasicBlock) : option Instruction :=
  match last (bb_insts b) with
  | Some i => if is_terminator i then Some i else None
  | None => None
  end.

Definition successors (i : Instruction) : list ptr :=
  match inst_op i with
  | Invoke _ _ normal unwind => [normal; unwind]
  | CallBr _ _ fallthrough indirect => fallthrough :: indirect
  | Br dest => [dest]
  | CondBr _ iftrue iffalse => [iftrue; iffalse]
  | OtherInst _ _ succs => succs
  | _ => []
  end.

(** [Function::isDeclaration]: no body. *)
Definition isDeclaration (f : Function) : bool :=
  match fn_blocks f with [] => true | _ => false end.

(** [Function::isIntrinsic]: the name starts with [llvm.]. *)
Definition isIntrinsic (f : Function) : bool := String.prefix "llvm." (fn_name f).

Definition function_value (f : Function) : value := VFunction (fn_id f) (fn_type f).
Definition global_value (g : GlobalVariable) : value := VGlobalVar (gv_id g) (gv_value_type g).

(** All instructions of a function, in block order. *)
Definition fn_insts (f : Function) : list Instruction :=
  concat (map bb_insts (fn_blocks f)).

Definition find_function (h : ptr) (m : Module) : option Function :=
  find (fun f => Nat.eqb (fn_id f) h) (mod_functions m).

Definition find_global (h : ptr) (m : Module) : option GlobalVariable :=
  find (fun g => Nat.eqb (gv_id g) h) (mod_globals m).

(** [Module::getFunction]. *)
Definition getFunction (name : string) (m : Module) : option Function :=
  find (fun f => String.eqb (fn_name f) name) (mod_functions m).

(** [Module::getNamedValue], over functions and global variables. *)
Definition getNamedValue (name : string) (m : Module) : option value :=
  match getFunction name m with
  | Some f => Some (function_value f)
  | None =>
      match find (fun g => String.eqb (gv_name g) name) (mod_globals m) with
      | Some g => Some (global_value g)
      | None => None
      end
  end.

(** [Module::getTypeByName]. *)
Definition getTypeByName (name : string) (m : Module) : option ty :=
  match find (fun e => String.eqb (fst e) name) (mod_struct_types m) with
  | Some _ => Some (TStruct name)
  | None => None
  end.

(** [StructType::getElementType]; LLVM asserts that the index is in range. *)
Definition struct_element_type (m : Module) (t : ty) (idx : nat) : option ty :=
  match t with
  | TStruct name =>
      match find (fun e => String.eqb (fst e) name) (mod_struct_types m) with
      | Some (_, Some fields) => nth_error fields idx
      | _ => None
      end
  | _ => None
  end.

Definition func_ret (fty : ty) : ty :=
  match fty with TFunc ret _ _ => ret | _ => TVoid end.

(** *** Editing the IR *)

Definition set_globals (gs : list GlobalVariable) (m : Module) : Module :=
  {| mod_triple := mod_triple m; mod_struct_types := mod_struct_types m;
     mod_globals := gs; mod_functions := mod_functions m |}.

Definition set_functions (fs : list Function) (m : Module) : Module :=
  {| mod_triple := mod_triple m; mod_struct_types := mod_struct_types m;
     mod_globals := mod_globals m; mod_functions := fs |}.

(** [Module::setTargetTriple]. *)
Definition setTargetTriple (t : string) (m : Module) : Module :=
  {| mod_triple := t; mod_struct_types := mod_struct_types m;
     mod_globals := mod_globals m; mod_functions := mod_functions m |}.

Definition set_blocks (bs : list BasicBlock) (f : Function) : Function :=
  {| fn_id := fn_id f; fn_name := fn_name f; fn_type := fn_type f;
     fn_attrs := fn_attrs f; fn_blocks := bs |}.

Definition set_insts (l : list Instruction) (b : BasicBlock) : BasicBlock :=
  {| bb_id := bb_id b; bb_name := bb_name b; bb_insts := l |}.

Definition set_op (op : opcode) (i : Instruction) : Instruction :=
  {| inst_id := inst_id i; inst_name := inst_name i; inst_type := inst_type i;
     inst_op := op |}.

Definition fn_attr_eqb (a b : fn_attr) : bool :=
  match a, b with
  | OptimizeNone, OptimizeNone => true
  | NoInline, NoInline => true
  | OtherAttr n, OtherAttr n' => String.eqb n n'
  | _, _ => false
  end.

(** [Function::removeFnAttr]. *)
Definition removeFnAttr (a : fn_attr) (f : Function) : Function :=
  {| fn_id := fn_id f; fn_name := fn_name f; fn_type := fn_type f;
     fn_attrs := List.filter (fun x => negb (fn_attr_eqb a x)) (fn_attrs f);
     fn_blocks := fn_blocks f |}.

(** Handles for new objects: one that no live object of the kind has. *)
Definition fresh_global (m : Module) : ptr := S (list_max (map gv_id (mod_globals m))).
Definition fresh_function (m : Module) : ptr := S (list_max (map fn_id (mod_functions m))).
Definition fresh_block (f : Function) : ptr := S (list_max (map bb_id (fn_blocks f))).
Definition fresh_inst (f : Function) : ptr := S (list_max (map inst_id (fn_insts f))).

Fixpoint insert_global_before (h : ptr) (g : GlobalVariable) (l : list GlobalVariable)
  : list GlobalVariable :=
  match l with
  | [] => [g]
  | x :: rest =>
      if Nat.eqb (gv_id x) h then g :: x :: rest
      else x :: insert_global_before h g rest
  end.

(** [new llvm::GlobalVariable(module, type, isConstant, linkage, initializer,
    name, InsertBefore)]: the variable joins the module's list, at its end
    when [InsertBefore] is null. *)
Definition new_GlobalVariable (t : ty) (isConstant : bool) (l : linkage)
    (initializer : value) (name : string) (InsertBefore : option GlobalVariable)
    (m : Module) : GlobalVariable * Module :=
  let g := {| gv_id := fresh_global m; gv_name := name; gv_value_type := t;
              gv_constant := isConstant; gv_linkage := l;
              gv_init := Some initializer |} in
  (g, set_globals
        match InsertBefore with
        | Some before => insert_global_before (gv_id before) g (mod_globals m)
        | None => mod_globals m ++ [g]
        end m).

(** [ConstantInt::get(IntegerType::get(ctx, bits), v)], [v] an unsigned
    64-bit number. *)
Definition ConstantInt_get (bits : N) (v : Z) : value :=
  VConstInt bits (v mod 2 ^ Z.of_N bits).

(** [ConstantExpr::getBitCast]; LLVM's constant folder may simplify the
    expression further, which is not modelled. *)
Definition ConstantExpr_getBitCast (c : value) (t : ty) : value :=
  if ty_eqb (value_type c) t then c else VCastExpr CastBitCast c t.

(** [ConstantDataArray::getString], with its terminating NUL. *)
Definition ConstantDataArray_getString (s : string) : value :=
  VDataArray (list_byte_of_string s ++ [x00]).

(** [Module::getOrInsertFunction(name, type)]: the function of that name,
    declared at the end of the module when there is none, and cast when the
    global found has another type. *)
Definition getOrInsertFunction (name : string) (fty : ty) (m : Module) : value * Module :=
  match getNamedValue name m with
  | None =>
      let New := {| fn_id := fresh_function m; fn_name := name; fn_type := fty;
                    fn_attrs := []; fn_blocks := [] |} in
      (function_value New, set_functions (mod_functions m ++ [New]) m)
  | Some F =>
      if ty_eqb (value_type F) (TPtr fty) then (F, m)
      else (VCastExpr CastBitCast F (TPtr fty), m)
  end.

(** The function with handle [h] replaced by [g] of it. *)
Definition update_function (h : ptr) (g : Function -> Function) (m : Module) : Module :=
  set_functions (map (fun f => if Nat.eqb (fn_id f) h then g f else f) (mod_functions m)) m.

(** The instructions of block [h] replaced by [g] of them. *)
Definition update_block (h : ptr) (g : list Instruction -> list Instruction)
    (f : Function) : Function :=
  set_blocks (map (fun b => if Nat.eqb (bb_id b) h then set_insts (g (bb_insts b)) b else b)
                  (fn_blocks f)) f.

(** [BasicBlock::Create(ctx, name, function, nullptr)]: a new empty block at
    the end of the function. *)
Definition BasicBlock_Create (name : string) (f : Function) : ptr * Function :=
  let b := {| bb_id := fresh_block f; bb_name := name; bb_insts := [] |} in
  (bb_id b, set_blocks (fn_blocks f ++ [b]) f).

(** [PHINode::replaceIncomingBlockWith] on the PHI nodes that lead a block
    ([BasicBlock::replacePhiUsesWith]). *)
Fixpoint replacePhiUsesWith (Old New : ptr) (insts : list Instruction) : list Instruction :=
  match insts with
  | [] => []
  | i :: rest =>
      match inst_op i with
      | PHI incoming =>
          set_op (PHI (map (fun vb => (fst vb, if Nat.eqb (snd vb) Old then New else snd vb))
                           incoming)) i
          :: replacePhiUsesWith Old New rest
      | _ => insts
      end
  end.

Fixpoint split_at_block (this : ptr) (I : nat) (New : ptr) (BBName : string) (br : Instruction)
    (blocks : list BasicBlock) : list BasicBlock :=
  match blocks with
  | [] => []
  | b :: rest =>
      if Nat.eqb (bb_id b) this
      then set_insts (take I (bb_insts b) ++ [br]) b
           :: {| bb_id := New; bb_name := BBName; bb_insts := drop I (bb_insts b) |}
           :: rest
      else b :: split_at_block this I New BBName br rest
  end.

(** [this->splitBasicBlock(I, BBName)], [I] the position in [this] of the
    first instruction to move: the instructions from [I] on move to a new
    block placed right after [this], [this] gets a branch to the new block,
    and the PHI nodes of the new block's successors that named [this] name
    the new block instead.  LLVM asserts that [this] has a terminator and
    that [I] is an instruction of it. *)
Definition splitBasicBlock (this : BasicBlock) (I : nat) (BBName : string) (f : Function)
  : outcome (ptr * Function) :=
  match getTerminator this with
  | None => Undefined "splitBasicBlock on a block without terminator"
  | Some TI =>
      if negb (Nat.ltb I (length (bb_insts this)))
      then Undefined "splitBasicBlock at the end of a block"
      else
        let New := fresh_block f in
        let br := {| inst_id := fresh_inst f; inst_name := ""; inst_type := TVoid;
                     inst_op := Br New |} in
        let blocks := split_at_block (bb_id this) I New BBName br (fn_blocks f) in
        let blocks :=
          map (fun b => if existsb (Nat.eqb (bb_id b)) (successors TI)
                        then set_insts (replacePhiUsesWith (bb_id this) New (bb_insts b)) b
                        else b) blocks in
        Ok (New, set_blocks blocks f)
  end.

(** *** [llvm::IRBuilder]

    A builder hands out the handles of the instructions it creates and
    collects them, in order, for the place it is set to insert at. *)
Record IRBuilder := {
  next_id : ptr;
  emitted : list Instruction
}.

Definition builder_at (n : ptr) : IRBuilder := {| next_id := n; emitted := [] |}.

Definition Insert (name : string) (t : ty) (op : opcode) (b : IRBuilder) : value * IRBuilder :=
  let i := {| inst_id := next_id b; inst_name := name; inst_type := t; inst_op := op |} in
  (the_use i, {| next_id := S (next_id b); emitted := emitted b ++ [i] |}).

(** [CreateCall(callee, args, name)], [fty] the function type called
    through. *)
Definition CreateCall (fty : ty) (callee : value) (args : list value) (name : string)
    (b : IRBuilder) : value * IRBuilder :=
  Insert name (func_ret fty) (Call TCK_None callee args) b.

(** [CreateCast]: no instruction for a value that has the type already, a
    constant expression for a constant. *)
Definition CreateCast (op : cast_op) (v : value) (DestTy : ty) (name : string)
    (b : IRBuilder) : value * IRBuilder :=
  if ty_eqb (value_type v) DestTy then (v, b)
  else if is_constant v then (VCastExpr op v DestTy, b)
  else Insert name DestTy (Cast op v) b.

Definition CreateBitCast := CreateCast CastBitCast.
Definition CreatePtrToInt := CreateCast CastPtrToInt.
Definition CreateIntToPtr := CreateCast CastIntToPtr.

Definition isMinusOne (v : value) : bool :=
  match v with
  | VConstInt bits z => Z.eqb z (2 ^ Z.of_N bits - 1)
  | _ => false
  end.

(** [CreateAnd]: [x & -1] is [x], two constants fold. *)
Definition CreateAnd (LHS RHS : value) (name : string) (b : IRBuilder) : value * IRBuilder :=
  if is_constant RHS && isMinusOne RHS then (LHS, b)
  else if is_constant RHS && is_constant LHS
  then (VConstExpr (value_type LHS) "and" [LHS; RHS], b)
  else Insert name (value_type LHS) (And LHS RHS) b.

Definition CreateICmpEQ (LHS RHS : value) (name : string) (b : IRBuilder) : value * IRBuilder :=
  if is_constant LHS && is_constant RHS
  then (VConstExpr (TInt 1) "icmp eq" [LHS; RHS], b)
  else Insert name (TInt 1) (ICmpEQ LHS RHS) b.

(** [GetElementPtrInst::getIndexedType], behind the first index. *)
Fixpoint indexed_type (m : Module) (t : ty) (indexes : list value) : option ty :=
  match indexes with
  | [] => Some t
  | idx :: rest =>
      match t, idx with
      | TStruct _, VConstInt _ k =>
          match struct_element_type m t (Z.to_nat k) with
          | Some field => indexed_type m field rest
          | None => None
          end
      | TArray _ elem, _ => indexed_type m elem rest
      | _, _ => None
      end
  end.

(** [CreateGEP] and [CreateInBoundsGEP]; LLVM asserts that the indexes fit
    the pointee type. *)
Definition CreateGEP_gen (m : Module) (inbounds : bool) (base : value) (indexes : list value)
    (name : string) (b : IRBuilder) : outcome (value * IRBuilder) :=
  match value_type base, indexes with
  | TPtr pointee, _ :: rest =>
      match indexed_type m pointee rest with
      | Some t =>
          if is_constant base && forallb is_constant indexes
          then Ok (VConstExpr (TPtr t) "getelementptr" (base :: indexes), b)
          else Ok (Insert name (TPtr t) (GetElementPtr inbounds base indexes) b)
      | None => Undefined "getelementptr: invalid indexes"
      end
  | _, _ => Undefined "getelementptr: invalid base"
  end.

Definition CreateGEP (m : Module) := CreateGEP_gen m false.

(** [CreateStructGEP(ptr, idx, name)]. *)
Definition CreateStructGEP (m : Module) (base : value) (idx : Z) (name : string)
    (b : IRBuilder) : outcome (value * IRBuilder) :=
  CreateGEP_gen m true base [ConstantInt_get 32 0; ConstantInt_get 32 idx] name b.

Definition CreateLoad (addr : value) (name : string) (b : IRBuilder)
  : outcome (value * IRBuilder) :=
  match value_type addr with
  | TPtr t => Ok (Insert name t (Load addr) b)
  | _ => Undefined "load: not a pointer"
  end.

Definition CreateCondBr (cond : value) (iftrue iffalse : ptr) (b : IRBuilder) : IRBuilder :=
  snd (Insert "" TVoid (CondBr cond iftrue iffalse) b).

Definition CreateBr (dest : ptr) (b : IRBuilder) : IRBuilder :=
  snd (Insert "" TVoid (Br dest) b).

Definition CreatePHI (t : ty) (name : string) (b : IRBuilder) : value * IRBuilder :=
  Insert name t (PHI []) b.

(** ** What the pass takes from outside [drti-decorate.cpp]

    - [DRTI_RETALIGN] and [DRTI_MAGIC], the integer constants of
      [drti/drti-common.hpp];
    - [visit_listed_globals], of the same header: the global variables of
      the module it calls its visitor on, in order;
    - [parse_support_bitcode]: what [llvm::parseBitcodeFile] makes of the
      support bitcode linked into the pass ([_binary_drti_inline_bc_start]
      to [_binary_drti_inline_bc_end]), an error text or a module;
    - [linkInModule]: [llvm::Linker::linkInModule], which answers [true]
      on an error, with the state it leaves the destination module in;
    - [writeModule]: the bytes [llvm::BitcodeWriter] writes for a module
      ([writeModule] then [writeStrtab]);
    - [dense_order]: the order in which an [llvm::DenseSet] of function
      handles holding the given handles is iterated. *)
Class Externals := {
  DRTI_RETALIGN : Z;
  DRTI_MAGIC : Z;
  visit_listed_globals : Module -> list GlobalVariable;
  parse_support_bitcode : string + Module;
  linkInModule : Module -> Module -> bool * Module;
  writeModule : Module -> list byte;
  dense_order : list ptr -> list ptr
}.

(** ** The pass *)

Record InlineHelpers := {
  m_drti_landing_site_type : option ty;
  m_drti_callsite_type : option ty;
  m_drti_treenode_type : option ty;
  m_drti_reflect_type : option ty;
  m_drti_landed : option Function;
  m_drti_call_from : option Function
}.

(** A call instruction held by pointer: the function it lives in
    ([getParent()->getParent()]) and its own handle. *)
Record inst_ref := {
  ref_function : ptr;
  ref_inst : ptr
}.

(** [drti::DecoratePass].  The two [llvm::DenseSet]s are kept as lists
    without repetition. *)
Record DecoratePass := {
  m_target_function_names : gset string;
  m_module : Module;
  m_target_functions : list ptr;
  m_target_function_types : list ty;
  m_inline : option InlineHelpers;
  m_reflect_global : option GlobalVariable
}.

Definition set_module (m : Module) (p : DecoratePass) : DecoratePass :=
  {| m_target_function_names := m_target_function_names p; m_module := m;
     m_target_functions := m_target_functions p;
     m_target_function_types := m_target_function_types p;
     m_inline := m_inline p; m_reflect_global := m_reflect_global p |}.

(** [DenseSet::find(x) != end()]. *)
Definition in_functions (h : ptr) (s : list ptr) : bool := existsb (Nat.eqb h) s.
Definition in_types (t : ty) (s : list ty) : bool := existsb (ty_eqb t) s.

(** [DenseSet::insert]. *)
Definition insert_function (h : ptr) (s : list ptr) : list ptr :=
  if in_functions h s then s else s ++ [h].
Definition insert_type (t : ty) (s : list ty) : list ty :=
  if in_types t s then s else s ++ [t].

(** The constructor, after [targets_from_environment] has answered. *)
Definition DecoratePass_new (names : gset string) (module : Module) : DecoratePass :=
  {| m_target_function_names := names; m_module := module;
     m_target_functions := []; m_target_function_types := [];
     m_inline := None; m_reflect_global := None |}.

Definition find_target_functions_step (names : gset string)
    (acc : list ptr * list ty) (function : Function) : list ptr * list ty :=
  if bool_decide (fn_name function ∈ names)
  then (insert_function (fn_id function) (fst acc),
        insert_type (fn_type function) (snd acc))
  else acc.

Definition find_target_functions (p : DecoratePass) : bool * DecoratePass :=
  let sets := fold_left (find_target_functions_step (m_target_function_names p))
                        (mod_functions (m_module p))
                        (m_target_functions p, m_target_function_types p) in
  let p := {| m_target_function_names := m_target_function_names p;
              m_module := m_module p;
              m_target_functions := fst sets;
              m_target_function_types := snd sets;
              m_inline := m_inline p; m_reflect_global := m_reflect_global p |} in
  (match m_target_functions p with [] => false | _ => true end, p).

Definition InlineHelpers_new (module : Module) : InlineHelpers :=
  {| m_drti_landing_site_type := getTypeByName "struct.drti::landing_site" module;
     m_drti_callsite_type := getTypeByName "struct.drti::static_callsite" module;
     m_drti_treenode_type := getTypeByName "struct.drti::treenode" module;
     m_drti_reflect_type := getTypeByName "struct.drti::reflect" module;
     m_drti_landed := getFunction "_drti_landed" module;
     m_drti_call_from := getFunction "_drti_call_from" module |}.

Definition is_null {A} (x : option A) : bool :=
  match x with Some _ => false | None => true end.

(** [InlineHelpers::ok]. *)
Definition InlineHelpers_ok (h : InlineHelpers) : bool :=
  if is_null (m_drti_landing_site_type h) ||
     is_null (m_drti_callsite_type h) ||
     is_null (m_drti_treenode_type h) ||
     is_null (m_drti_reflect_type h)
  then false
  else if is_null (m_drti_landed h) || is_null (m_drti_call_from h)
  then false
  else true.

Definition lookup_helpers (p : DecoratePass) : bool * DecoratePass :=
  let h := InlineHelpers_new (m_module p) in
  (InlineHelpers_ok h,
   {| m_target_function_names := m_target_function_names p; m_module := m_module p;
      m_target_functions := m_target_functions p;
      m_target_function_types := m_target_function_types p;
      m_inline := Some h; m_reflect_global := m_reflect_global p |}).

(** [m_inline->field], a pointer the pass then dereferences. *)
Definition inline_field {A} (field : InlineHelpers -> option A) (p : DecoratePass)
  : outcome A :=
  match m_inline p with
  | Some h =>
      match field h with
      | Some x => Ok x
      | None => Undefined "null helper"
      end
  | None => Undefined "m_inline is empty"
  end.

Definition get_function (h : ptr) (m : Module) : outcome Function :=
  match find_function h m with
  | Some f => Ok f
  | None => Undefined "no such function"
  end.

Definition wrap32 (z : Z) : Z := (z mod 2 ^ 32)%Z.

(** The body of the two loops of [collect_calls], for one instruction:
    [call_number] and [result] before, and after. *)
Definition collect_calls_inst (p : DecoratePass) (function : Function)
    (st : Z * list (Z * inst_ref)) (instruction : Instruction) : Z * list (Z * inst_ref) :=
  let '(call_number, result) := st in
  match called_operand instruction with
  | Some callee =>
      if negb (is_inline_asm callee) then
        let global := match callee with VFunction h _ => Some h | _ => None end in
        let type := value_type callee in
        let type := match type with TPtr elem => elem | _ => type end in
        let result :=
          if in_types type (m_target_function_types p) then
            if match global with
               | Some g => negb (in_functions g (m_target_functions p))
               | None => false
               end
            then result
            else result ++ [(call_number,
                             {| ref_function := fn_id function;
                                ref_inst := inst_id instruction |})]
          else result in
        (wrap32 (call_number + 1), result)
      else st
  | None => st
  end.

Definition collect_calls_block (p : DecoratePass) (function : Function)
    (st : Z * list (Z * inst_ref)) (block : BasicBlock) : Z * list (Z * inst_ref) :=
  fold_left (collect_calls_inst p function) (bb_insts block) st.

Definition collect_calls (function : Function) (p : DecoratePass) : list (Z * inst_ref) :=
  snd (fold_left (collect_calls_block p function) (fn_blocks function) (0%Z, [])).

Section Pass.
Context `{ext : !Externals}.

Definition collect_globals (p : DecoratePass) : list value * DecoratePass :=
  let result := map global_value (visit_listed_globals (m_module p)) in
  let result :=
    result ++
    flat_map (fun function =>
                if isIntrinsic function then []
                else if isDeclaration function then [function_value function]
                else [])
             (mod_functions (m_module p)) in
  let strip function :=
    if isIntrinsic function then function
    else if isDeclaration function then function
    else removeFnAttr NoInline (removeFnAttr OptimizeNone function) in
  (result, set_module (set_functions (map strip (mod_functions (m_module p))) (m_module p)) p).

Definition raw_bitcode (p : DecoratePass) : list byte := writeModule (m_module p).

Definition add_helpers (p : DecoratePass) : outcome (bool * DecoratePass) :=
  match parse_support_bitcode with
  | inl err => Fatal err
  | inr support =>
      let '(failed, m) := linkInModule (m_module p) support in
      Ok (negb failed, set_module m p)
  end.

Definition create_self (p : DecoratePass) : outcome DecoratePass :=
  let '(globals, p) := collect_globals p in
  let buffer := raw_bitcode p in
  let as_constant := VDataArray buffer in
  let '(bitcode_global, m) :=
    new_GlobalVariable (value_type as_constant) true InternalLinkage
                       as_constant "__drti_bitcode" None (m_module p) in
  let void_star := TPtr (TInt 8) in
  let cast_bitcode := ConstantExpr_getBitCast (global_value bitcode_global) void_star in
  let extern_addresses :=
    map (fun extern_ => ConstantExpr_getBitCast extern_ void_star) globals in
  let globals_array := VConstArray void_star extern_addresses in
  let '(globals_variable, m) :=
    new_GlobalVariable (value_type globals_array) true InternalLinkage
                       globals_array "__drti_globals" None m in
  let cast_globals :=
    ConstantExpr_getBitCast (global_value globals_variable) (TPtr void_star) in
  let reflect_members :=
    [cast_bitcode;
     ConstantInt_get 64 (Z.of_nat (length buffer));
     cast_globals;
     ConstantInt_get 64 (Z.of_nat (length extern_addresses))] in
  do reflect_type <- inline_field m_drti_reflect_type p;
  let reflect_constant := VConstStruct reflect_type reflect_members in
  let '(reflect_global, m) :=
    new_GlobalVariable reflect_type true InternalLinkage
                       reflect_constant "__drti_self" None m in
  Ok {| m_target_function_names := m_target_function_names p; m_module := m;
        m_target_functions := m_target_functions p;
        m_target_function_types := m_target_function_types p;
        m_inline := m_inline p; m_reflect_global := Some reflect_global |}.

Fixpoint first_index {A} (f : A -> bool) (l : list A) : option nat :=
  match l with
  | [] => None
  | x :: rest => if f x then Some 0 else option_map S (first_index f rest)
  end.

Definition getEntryBlock (f : Function) : outcome BasicBlock :=
  match fn_blocks f with
  | b :: _ => Ok b
  | [] => Undefined "getEntryBlock on a declaration"
  end.

(** [SetInsertPoint]: what the builder creates from now on goes elsewhere. *)
Definition SetInsertPoint (b : IRBuilder) : IRBuilder := builder_at (next_id b).

Definition inst_handle (v : value) : ptr :=
  match v with VInst id _ => id | _ => 0 end.

(** [PHINode::addIncoming]. *)
Definition addIncoming (v : value) (bb : ptr) (i : Instruction) : Instruction :=
  match inst_op i with
  | PHI incoming => set_op (PHI (incoming ++ [(v, bb)])) i
  | _ => i
  end.

(** The instruction with handle [id] replaced by [g] of it. *)
Definition update_inst (id : ptr) (g : Instruction -> Instruction) (f : Function) : Function :=
  set_blocks
    (map (fun b => set_insts (map (fun i => if Nat.eqb (inst_id i) id then g i else i)
                                  (bb_insts b)) b)
         (fn_blocks f)) f.

Definition add_landing_update (function : ptr) (landing_global : GlobalVariable)
    (p : DecoratePass) : outcome (value * DecoratePass) :=
  let m := m_module p in
  do fn <- get_function function m;
  do entryBlock <- getEntryBlock fn;
  let splitPoint :=
    match first_index (fun i => negb (is_alloca i)) (bb_insts entryBlock) with
    | Some k => Some k
    | None =>
        match getTerminator entryBlock with
        | Some _ => Some (length (bb_insts entryBlock) - 1)
        | None => None
        end
    end in
  match splitPoint with
  | None => Fatal ("drti-decorate: Malformed entry block in function " +:+ fn_name fn)
  | Some splitPoint =>
      do (land1, fn) <- splitBasicBlock entryBlock splitPoint "drti_land1" fn;
      let '(land2, fn) := BasicBlock_Create "drti_land2" fn in
      let '(land3, fn) := BasicBlock_Create "drti_land3" fn in
      (* Remove the unconditional branch inserted by splitBasicBlock *)
      let fn := update_block (bb_id entryBlock) (@removelast Instruction) fn in
      let builder := builder_at (fresh_inst fn) in
      (* entry *)
      let zero32 := ConstantInt_get 32 0 in
      let zero64 := ConstantInt_get 64 0 in
      let voidpType := TPtr (TInt 8) in
      let builtinRet_type := TFunc voidpType [value_type zero32] false in
      let '(builtinRet, m) := getOrInsertFunction "llvm.returnaddress" builtinRet_type m in
      let '(returnAddress, builder) :=
        CreateCall builtinRet_type builtinRet [zero32] "drtiRetAddress" builder in
      let drtiRetAlign := ConstantInt_get 64 (DRTI_RETALIGN - 1) in
      let '(returnAddress, builder) :=
        CreatePtrToInt returnAddress (value_type drtiRetAlign) "drtiRetAddressCast" builder in
      let '(mod_, builder) := CreateAnd returnAddress drtiRetAlign "drtiAndRetalign" builder in
      let '(isZero, builder) := CreateICmpEQ mod_ zero64 "drtiRetIsAligned" builder in
      let builder := CreateCondBr isZero land2 land1 builder in
      let fn := update_block (bb_id entryBlock) (fun l => l ++ emitted builder) fn in
      (* drti_land1 *)
      let builder := SetInsertPoint builder in
      do treenode_type <- inline_field m_drti_treenode_type p;
      let treenode_pointer_type := TPtr treenode_type in
      let null_treenode_pointer := VNull treenode_pointer_type in
      let '(caller, builder) := CreatePHI treenode_pointer_type "drtiCallerTreenode" builder in
      let fn := update_block land1 (fun l => emitted builder ++ l) fn in
      (* drti_land2 *)
      let builder := SetInsertPoint builder in
      let ptr_int64_t := TPtr (TInt 64) in
      let '(returnAddressCast, builder) :=
        CreateIntToPtr returnAddress ptr_int64_t "drtiRetAddressCast" builder in
      let indexes := [ConstantInt_get 64 ((- DRTI_RETALIGN) mod 2 ^ 64 / 8)] in
      do (gep, builder) <- CreateGEP m returnAddressCast indexes "drtiGep" builder;
      do (maybeMagic, builder) <- CreateLoad gep "drtiMaybeMagic" builder;
      let magic := ConstantInt_get 64 DRTI_MAGIC in
      let '(matches, builder) := CreateICmpEQ maybeMagic magic "drtiMatches" builder in
      let builder := CreateCondBr matches land3 land1 builder in
      let fn := update_block land2 (fun l => l ++ emitted builder) fn in
      (* drti_land3 *)
      let builder := SetInsertPoint builder in
      let drtiCaller_type := TFunc treenode_pointer_type [] false in
      let '(drtiCaller, m) := getOrInsertFunction "_drti_caller" drtiCaller_type m in
      let '(treenode, builder) :=
        CreateCall drtiCaller_type drtiCaller [] "drtiTreenode" builder in
      let arguments := [global_value landing_global; treenode] in
      do drti_landed <- inline_field m_drti_landed p;
      let '(_, builder) :=
        CreateCall (fn_type drti_landed) (function_value drti_landed) arguments "" builder in
      let builder := CreateBr land1 builder in
      let fn := update_block land3 (fun l => l ++ emitted builder) fn in
      let fn := update_inst (inst_handle caller)
                            (addIncoming null_treenode_pointer (bb_id entryBlock)) fn in
      let fn := update_inst (inst_handle caller) (addIncoming null_treenode_pointer land2) fn in
      let fn := update_inst (inst_handle caller) (addIncoming treenode land3) fn in
      Ok (caller, set_module (update_function function (fun _ => fn) m) p)
  end.

(** The instructions [code] placed right before the instruction with handle
    [id]. *)
Fixpoint insert_before (id : ptr) (code : list Instruction) (insts : list Instruction)
  : list Instruction :=
  match insts with
  | [] => []
  | i :: rest =>
      if Nat.eqb (inst_id i) id then code ++ i :: rest
      else i :: insert_before id code rest
  end.

Definition insert_before_inst (id : ptr) (code : list Instruction) (f : Function) : Function :=
  set_blocks (map (fun b => set_insts (insert_before id code (bb_insts b)) b) (fn_blocks f)) f.

Definition find_inst (id : ptr) (f : Function) : outcome Instruction :=
  match find (fun i => Nat.eqb (inst_id i) id) (fn_insts f) with
  | Some i => Ok i
  | None => Undefined "no such instruction"
  end.

Definition decorate_call (caller : value) (callInst : inst_ref) (callsite : GlobalVariable)
    (p : DecoratePass) : outcome DecoratePass :=
  let m := m_module p in
  do fn <- get_function (ref_function callInst) m;
  do inst <- find_inst (ref_inst callInst) fn;
  match called_operand inst with
  | None => Undefined "not a call"
  | Some calledOperand =>
      (* Insert new code before the original call *)
      let builder := builder_at (fresh_inst fn) in
      let '(oldTarget, builder) :=
        CreateBitCast calledOperand (TPtr (TInt 8)) "castOldTarget" builder in
      let callFromArgs := [global_value callsite; caller; oldTarget] in
      do drti_call_from <- inline_field m_drti_call_from p;
      let '(treenode, builder) :=
        CreateCall (fn_type drti_call_from) (function_value drti_call_from)
                   callFromArgs "treenode" builder in
      do (resolved_target, builder) <-
        CreateStructGEP m treenode 5 "resolved_target" builder;
      do (loaded, builder) <- CreateLoad resolved_target "" builder;
      let '(newTarget, builder) :=
        CreateBitCast loaded (value_type calledOperand) "castResolvedTarget" builder in
      let drtiSetCaller_type := TFunc TVoid [value_type treenode] false in
      let '(drtiSetCaller, m) :=
        getOrInsertFunction "_drti_set_caller" drtiSetCaller_type m in
      let setCallerArgs := [treenode] in
      let '(_, builder) :=
        CreateCall drtiSetCaller_type drtiSetCaller setCallerArgs "" builder in
      let fn := insert_before_inst (ref_inst callInst) (emitted builder) fn in
      (* reset the call target *)
      let fn := update_inst (ref_inst callInst) (setCalledOperand newTarget) fn in
      let fn := update_inst (ref_inst callInst) (setTailCallKind_if_CallInst TCK_NoTail) fn in
      Ok (set_module (update_function (ref_function callInst) (fun _ => fn) m) p)
  end.

Definition create_landing_global (function : ptr) (p : DecoratePass)
  : outcome (GlobalVariable * DecoratePass) :=
  let m := m_module p in
  do fn <- get_function function m;
  let variableName := "_drti_landing_" +:+ fn_name fn in
  let name_initializer := ConstantDataArray_getString variableName in
  let '(name_global, m) :=
    new_GlobalVariable (value_type name_initializer) true InternalLinkage
                       name_initializer "__drti_landing_site_name" None m in
  let function_name_initializer := ConstantDataArray_getString (fn_name fn) in
  let '(function_name_global, m) :=
    new_GlobalVariable (value_type function_name_initializer) true InternalLinkage
                       function_name_initializer "__drti_landing_site_function_name"
                       (Some name_global) m in
  let zero := ConstantInt_get 64 0 in
  do reflect_global <-
    match m_reflect_global p with
    | Some g => Ok g
    | None => Undefined "m_reflect_global is null"
    end;
  let landing_site_members :=
    [zero;
     ConstantExpr_getBitCast (global_value name_global) (TPtr (TInt 8));
     ConstantExpr_getBitCast (global_value function_name_global) (TPtr (TInt 8));
     global_value reflect_global] in
  do landing_site_type <- inline_field m_drti_landing_site_type p;
  let landing_site_constant := VConstStruct landing_site_type landing_site_members in
  let '(variable, m) :=
    new_GlobalVariable (value_type landing_site_constant) false InternalLinkage
                       landing_site_constant variableName (Some function_name_global) m in
  Ok (variable, set_module m p).

Definition create_callsite_global (function : ptr) (landing_global : GlobalVariable)
    (call_number : Z) (p : DecoratePass) : outcome (GlobalVariable * DecoratePass) :=
  let m := m_module p in
  do fn <- get_function function m;
  let zero := ConstantInt_get 64 0 in
  do callsite_type <- inline_field m_drti_callsite_type p;
  do vector_type <-
    match struct_element_type m callsite_type 3 with
    | Some t => Ok t
    | None => Undefined "getElementType(3)"
    end;
  let callsite_members :=
    [zero;
     global_value landing_global;
     ConstantInt_get 32 call_number;
     VAggregateZero vector_type] in
  let callsite_constant := VConstStruct callsite_type callsite_members in
  let '(variable, m) :=
    new_GlobalVariable (value_type callsite_constant) false InternalLinkage
                       callsite_constant ("_drti_callsite_" +:+ fn_name fn) None m in
  Ok (variable, set_module m p).

Fixpoint decorate_calls (collected : list (Z * inst_ref)) (caller : value)
    (landing_global : GlobalVariable) (p : DecoratePass) : outcome DecoratePass :=
  match collected with
  | [] => Ok p
  | (call_number, callInst) :: rest =>
      do (callsite_global, p) <-
        create_callsite_global (ref_function callInst) landing_global call_number p;
      do p <- decorate_call caller callInst callsite_global p;
      decorate_calls rest caller landing_global p
  end.

(** The body of the loop of [add_landing_globals]. *)
Definition add_landing_globals_body (function : ptr) (p : DecoratePass)
  : outcome DecoratePass :=
  do fn <- get_function function (m_module p);
  if negb (isDeclaration fn) then
    let calls := collect_calls fn p in
    do (landing_global, p) <- create_landing_global function p;
    do (caller, p) <- add_landing_update function landing_global p;
    decorate_calls calls caller landing_global p
  else Ok p.

Fixpoint for_each_function (functions : list ptr) (p : DecoratePass) : outcome DecoratePass :=
  match functions with
  | [] => Ok p
  | function :: rest =>
      do p <- add_landing_globals_body function p;
      for_each_function rest p
  end.

Definition add_landing_globals (p : DecoratePass) : outcome DecoratePass :=
  for_each_function (dense_order (m_target_functions p)) p.

(** [drti::Decorate::runOnModule]: the configuration sources consulted, and
    the answer with the module as the pass leaves it, unless the pass aborts
    the process. *)
Definition runOnModule (env : Config.Env) (module : Module)
  : list Config.io_event * outcome (bool * Module) :=
  let targetTriple := mod_triple module in
  if negb (String.eqb targetTriple "x86_64-unknown-linux-gnu")
  then ([], Ok (false, module))
  else
    (Config.targets_from_environment_reads env,
     do names <- Config.targets_from_environment env;
     let decorator := DecoratePass_new names module in
     let '(found, decorator) := find_target_functions decorator in
     if negb found then Ok (false, m_module decorator)
     else
       do (linked, decorator) <- add_helpers decorator;
       if negb linked then Ok (false, m_module decorator)
       else
         let '(ok, decorator) := lookup_helpers decorator in
         if negb ok then Ok (true, m_module decorator)
         else
           do decorator <- create_self decorator;
           do decorator <- add_landing_globals decorator;
           Ok (true, setTargetTriple "x86_64_drti-unknown-linux-gnu" (m_module decorator))).

End Pass.

(** ** Running the code the landing instrumentation inserts

    The meaning of the instructions [add_landing_update] creates, on 64-bit
    integers and addresses, as far as needed to follow execution from the
    entry of a function to the PHI node that leads [drti_land1].  What the
    code cannot know is supplied from outside: the value a call to a named
    function returns, the 64-bit word at an address, and the addresses of
    stack slots and of global variables. *)
Module Exec.

Record World := {
  call_result : string -> list Z -> Z;
  load64 : Z -> Z;
  alloca_addr : ptr -> Z;
  global_addr : ptr -> Z;
  function_addr : ptr -> Z
}.

(** A call made: the name of the function called, and its arguments. *)
Definition event : Type := string * list Z.

Definition regs : Type := ptr -> option Z.

Definition set_reg (id : ptr) (z : Z) (r : regs) : regs :=
  fun x => if Nat.eqb x id then Some z else r x.

Fixpoint eval (w : World) (r : regs) (v : value) : option Z :=
  match v with
  | VInst id _ => r id
  | VConstInt _ z => Some z
  | VNull _ => Some 0%Z
  | VGlobalVar g _ => Some (global_addr w g)
  | VFunction f _ => Some (function_addr w f)
  | VCastExpr _ c _ => eval w r c
  | _ => None
  end.

Fixpoint eval_all (w : World) (r : regs) (vs : list value) : option (list Z) :=
  match vs with
  | [] => Some []
  | v :: rest =>
      match eval w r v, eval_all w r rest with
      | Some z, Some zs => Some (z :: zs)
      | _, _ => None
      end
  end.

(** The name of the global a callee stands for, through constant casts. *)
Fixpoint callee_name (m : Module) (v : value) : option string :=
  match v with
  | VFunction f _ => option_map fn_name (find_function f m)
  | VGlobalVar g _ => option_map gv_name (find_global g m)
  | VCastExpr _ c _ => callee_name m c
  | _ => None
  end.

Inductive flow :=
| Goto (dest : ptr) (r : regs) (trace : list event)
| Reached (z : Z) (trace : list event)
| Stuck.

(** Runs the instructions of a block entered from block [prev], up to the
    instruction with handle [stop], whose value is the answer. *)
Fixpoint exec_insts (w : World) (m : Module) (stop : ptr) (prev : option ptr)
    (insts : list Instruction) (r : regs) (trace : list event) : flow :=
  match insts with
  | [] => Stuck
  | i :: rest =>
      let continue (z : Z) :=
        if Nat.eqb (inst_id i) stop then Reached z trace
        else exec_insts w m stop prev rest (set_reg (inst_id i) z r) trace in
      match inst_op i with
      | Alloca _ => continue (alloca_addr w (inst_id i))
      | Call _ callee args =>
          match callee_name m callee, eval_all w r args with
          | Some name, Some zs =>
              let z := call_result w name zs in
              if Nat.eqb (inst_id i) stop then Reached z (trace ++ [(name, zs)])
              else exec_insts w m stop prev rest (set_reg (inst_id i) z r)
                              (trace ++ [(name, zs)])
          | _, _ => Stuck
          end
      | Cast _ v =>
          match eval w r v with Some z => continue z | None => Stuck end
      | And a b =>
          match eval w r a, eval w r b with
          | Some x, Some y => continue (Z.land x y)
          | _, _ => Stuck
          end
      | ICmpEQ a b =>
          match eval w r a, eval w r b with
          | Some x, Some y => continue (if Z.eqb x y then 1 else 0)%Z
          | _, _ => Stuck
          end
      | GetElementPtr _ base [idx] =>
          match value_type base, eval w r base, eval w r idx with
          | TPtr (TInt bits), Some a, Some k =>
              continue ((a + k * (Z.of_N bits / 8)) mod 2 ^ 64)%Z
          | _, _, _ => Stuck
          end
      | Load addr =>
          match eval w r addr with Some a => continue (load64 w a) | None => Stuck end
      | PHI incoming =>
          match prev with
          | Some from =>
              match find (fun vb => Nat.eqb (snd vb) from) incoming with
              | Some vb =>
                  match eval w r (fst vb) with Some z => continue z | None => Stuck end
              | None => Stuck
              end
          | None => Stuck
          end
      | Br dest => Goto dest r trace
      | CondBr cond iftrue iffalse =>
          match eval w r cond with
          | Some c => Goto (if Z.eqb c 0 then iffalse else iftrue) r trace
          | None => Stuck
          end
      | _ => Stuck
      end
  end.

Fixpoint exec_blocks (fuel : nat) (w : World) (m : Module) (f : Function) (stop : ptr)
    (cur : ptr) (prev : option ptr) (r : regs) (trace : list event)
  : option (Z * list event) :=
  match fuel with
  | O => None
  | S fuel =>
      match find (fun b => Nat.eqb (bb_id b) cur) (fn_blocks f) with
      | Some b =>
          match exec_insts w m stop prev (bb_insts b) r trace with
          | Goto dest r trace => exec_blocks fuel w m f stop dest (Some cur) r trace
          | Reached z trace => Some (z, trace)
          | Stuck => None
          end
      | None => None
      end
  end.

(** From the entry of [f] to the instruction [stop]: its value and the
    calls made on the way. *)
Definition run_to (fuel : nat) (w : World) (m : Module) (f : Function) (stop : ptr)
  : option (Z * list event) :=
  match fn_blocks f with
  | entry :: _ => exec_blocks fuel w m f stop (bb_id entry) None (fun _ => None) []
  | [] => None
  end.


End Exec.

(** ** Vocabulary of the properties *)

(** A call the numbering of [collect_calls] counts: a [CallBase] whose
    callee is not inline asm. *)
Definition is_counted_call (i : Instruction) : bool :=
  match called_operand i with
  | Some callee => negb (is_inline_asm callee)
  | None => false
  end.

(** The enumeration of the call instructions of a function: block after
    block, instruction after instruction. *)
Definition call_insts (f : Function) : list Instruction :=
  List.filter is_counted_call (fn_insts f).

Definition ref_of (f : Function) (i : Instruction) : inst_ref :=
  {| ref_function := fn_id f; ref_inst := inst_id i |}.

Definition pointee_or_self (t : ty) : ty :=
  match t with TPtr elem => elem | _ => t end.

(** The decision [collect_calls] takes for one instruction. *)
Definition selects (p : DecoratePass) (i : Instruction) : bool :=
  match called_operand i with
  | Some callee =>
      negb (is_inline_asm callee) &&
      in_types (pointee_or_self (value_type callee)) (m_target_function_types p) &&
      negb match callee with
           | VFunction g _ => negb (in_functions g (m_target_functions p))
           | _ => false
           end
  | None => false
  end.

(** The call number after one more instruction. *)
Definition next_call_number (n : Z) (i : Instruction) : Z :=
  if is_counted_call i then wrap32 (n + 1) else n.

(** The call number after the instructions [l]. *)
Definition call_number_after (n : Z) (l : list Instruction) : Z :=
  fold_left next_call_number l n.

(** The calls collected from the instructions [l], numbered from [n]. *)
Fixpoint numbered (p : DecoratePass) (f : Function) (n : Z) (l : list Instruction)
  : list (Z * inst_ref) :=
  match l with
  | [] => []
  | i :: rest =>
      (if selects p i then [(n, ref_of f i)] else []) ++
      numbered p f (next_call_number n i) rest
  end.

(** The words of the specification for call selection: the static type of
    the callee matches a recorded signature, and the callee is not a
    function known not to be a target. *)
Definition type_matches (p : DecoratePass) (callee : value) : Prop :=
  In (pointee_or_self (value_type callee)) (m_target_function_types p).

Definition known_non_target (p : DecoratePass) (callee : value) : Prop :=
  exists g fty, callee = VFunction g fty /\ ~ In g (m_target_functions p).

(** The call instruction [i] of [function] is among the collected calls. *)
Definition selected (function : Function) (p : DecoratePass) (i : Instruction) : Prop :=
  exists n, In (n, ref_of function i) (collect_calls function p).

(** What [collect_globals] does to a function: a definition loses its
    [optnone] and [noinline] markers. *)
Definition strip_markers (function : Function) : Function :=
  if isIntrinsic function then function
  else if isDeclaration function then function
  else removeFnAttr NoInline (removeFnAttr OptimizeNone function).

(** The module after [collect_globals]. *)
Definition stripped (m : Module) : Module :=
  set_functions (map strip_markers (mod_functions m)) m.

(** *** The code that [add_landing_update] arrives at

    The comment that opens [add_landing_update] gives the code the function
    is to arrive at.  The definitions below spell that code out,
    instruction by instruction, for new instructions numbered from [n0]. *)

Section LandingCode.
Context `{ext : !Externals}.

Definition mk_inst (id : ptr) (name : string) (t : ty) (op : opcode) : Instruction :=
  {| inst_id := id; inst_name := name; inst_type := t; inst_op := op |}.

(** The alignment mask, the index of the probed word and the magic number,
    as the 64-bit constants of the inserted code. *)
Definition ret_align_mask : Z := ((DRTI_RETALIGN - 1) mod 2 ^ 64)%Z.
Definition probe_index : Z := (((- DRTI_RETALIGN) mod 2 ^ 64 / 8) mod 2 ^ 64)%Z.
Definition magic64 : Z := (DRTI_MAGIC mod 2 ^ 64)%Z.

(** The builder leaves out an [and] with an all-ones mask. *)
Definition and_folded : bool := Z.eqb ret_align_mask (2 ^ 64 - 1).

Definition landing_entry_code (n0 : ptr) (builtinRet : value) (land1 land2 : ptr)
  : list Instruction :=
  [mk_inst n0 "drtiRetAddress" (TPtr (TInt 8))
           (Call TCK_None builtinRet [VConstInt 32 0]);
   mk_inst (S n0) "drtiRetAddressCast" (TInt 64)
           (Cast CastPtrToInt (VInst n0 (TPtr (TInt 8))))] ++
  if and_folded then
    [mk_inst (S (S n0)) "drtiRetIsAligned" (TInt 1)
             (ICmpEQ (VInst (S n0) (TInt 64)) (VConstInt 64 0));
     mk_inst (S (S (S n0))) "" TVoid
             (CondBr (VInst (S (S n0)) (TInt 1)) land2 land1)]
  else
    [mk_inst (S (S n0)) "drtiAndRetalign" (TInt 64)
             (And (VInst (S n0) (TInt 64)) (VConstInt 64 ret_align_mask));
     mk_inst (S (S (S n0))) "drtiRetIsAligned" (TInt 1)
             (ICmpEQ (VInst (S (S n0)) (TInt 64)) (VConstInt 64 0));
     mk_inst (S (S (S (S n0)))) "" TVoid
             (CondBr (VInst (S (S (S n0))) (TInt 1)) land2 land1)].

(** The handle of the PHI node: the next one after the entry code. *)
Definition landing_phi_id (n0 : ptr) : ptr :=
  if and_folded then S (S (S (S n0))) else S (S (S (S (S n0)))).

Definition landing_phi (n0 : ptr) (treenode_type : ty) (entry land2 land3 : ptr)
  : Instruction :=
  let np := landing_phi_id n0 in
  mk_inst np "drtiCallerTreenode" (TPtr treenode_type)
          (PHI [(VNull (TPtr treenode_type), entry);
                (VNull (TPtr treenode_type), land2);
                (VInst (S (S (S (S (S (S np)))))) (TPtr treenode_type), land3)]).

Definition landing_probe_code (n0 : ptr) (land1 land3 : ptr) : list Instruction :=
  let np := landing_phi_id n0 in
  [mk_inst (S np) "drtiRetAddressCast" (TPtr (TInt 64))
           (Cast CastIntToPtr (VInst (S n0) (TInt 64)));
   mk_inst (S (S np)) "drtiGep" (TPtr (TInt 64))
           (GetElementPtr false (VInst (S np) (TPtr (TInt 64))) [VConstInt 64 probe_index]);
   mk_inst (S (S (S np))) "drtiMaybeMagic" (TInt 64)
           (Load (VInst (S (S np)) (TPtr (TInt 64))));
   mk_inst (S (S (S (S np)))) "drtiMatches" (TInt 1)
           (ICmpEQ (VInst (S (S (S np))) (TInt 64)) (VConstInt 64 magic64));
   mk_inst (S (S (S (S (S np))))) "" TVoid
           (CondBr (VInst (S (S (S (S np)))) (TInt 1)) land3 land1)].

Definition landing_confirmed_code (n0 : ptr) (drtiCaller : value) (treenode_type : ty)
    (drti_landed : Function) (landing_global : GlobalVariable) (land1 : ptr)
  : list Instruction :=
  let np := landing_phi_id n0 in
  [mk_inst (S (S (S (S (S (S np)))))) "drtiTreenode" (TPtr treenode_type)
           (Call TCK_None drtiCaller []);
   mk_inst (S (S (S (S (S (S (S np))))))) "" (func_ret (fn_type drti_landed))
           (Call TCK_None (function_value drti_landed)
                 [global_value landing_global;
                  VInst (S (S (S (S (S (S np)))))) (TPtr treenode_type)]);
   mk_inst (S (S (S (S (S (S (S (S np)))))))) "" TVoid (Br land1)].

(** What [splitBasicBlock] does to the PHI nodes of the successors of the
    moved terminator [TI]. *)
Definition patch_phis (this New : ptr) (TI : Instruction) (b : BasicBlock) : BasicBlock :=
  if existsb (Nat.eqb (bb_id b)) (successors TI)
  then set_insts (replacePhiUsesWith this New (bb_insts b)) b
  else b.

(** The blocks of a function whose entry block [entry] holds [allocas]
    followed by [moved], after [add_landing_update]. *)
Definition landed_blocks (fn : Function) (entry : BasicBlock) (others : list BasicBlock)
    (allocas moved : list Instruction) (TI : Instruction)
    (builtinRet drtiCaller : value) (treenode_type : ty)
    (drti_landed : Function) (landing_global : GlobalVariable) : list BasicBlock :=
  let n0 := fresh_inst fn in
  let land1 := fresh_block fn in
  let land2 := S land1 in
  let land3 := S land2 in
  [set_insts (allocas ++ landing_entry_code n0 builtinRet land1 land2) entry;
   {| bb_id := land1; bb_name := "drti_land1";
      bb_insts :=
        landing_phi n0 treenode_type (bb_id entry) land2 land3
        :: bb_insts (patch_phis (bb_id entry) land1 TI
                       {| bb_id := land1; bb_name := "drti_land1"; bb_insts := moved |}) |}]
  ++ map (patch_phis (bb_id entry) land1 TI) others
  ++ [{| bb_id := land2; bb_name := "drti_land2";
         bb_insts := landing_probe_code n0 land1 land3 |};
      {| bb_id := land3; bb_name := "drti_land3";
         bb_insts := landing_confirmed_code n0 drtiCaller treenode_type
                                            drti_landed landing_global land1 |}].

End LandingCode.

(** What a later state of the module keeps of an earlier one: the struct
    types, the global variables and what their handles find, and, for each
    function handle, a function of the same name and type. *)
Definition kept (m m' : Module) : Prop :=
  mod_struct_types m' = mod_struct_types m /\
  (forall g, In g (mod_globals m) -> In g (mod_globals m')) /\
  (forall h g, find_global h m = Some g -> find_global h m' = Some g) /\
  (forall h f, find_function h m = Some f ->
     exists f', find_function h m' = Some f' /\
                fn_name f' = fn_name f /\ fn_type f' = fn_type f).

(** *** What a decorated call looks like *)

(** What [CreateCast] leaves behind for a cast of [v] to [t]: nothing when
    [v] has the type already or is a constant (the cast is then a constant
    expression), one cast instruction otherwise; [v'] is the value to use. *)
Definition cast_yields (op : cast_op) (v : value) (t : ty) (code : list Instruction)
    (v' : value) : Prop :=
  (code = [] /\ v' = v /\ value_type v = t) \/
  (code = [] /\ v' = VCastExpr op v t /\ is_constant v = true) \/
  (exists c, code = [c] /\ inst_op c = Cast op v /\ inst_type c = t /\ v' = the_use c).

(** The instructions put in front of a call to [callee]: the old target as
    an [i8*], the call of the resolve routine [call_from] with the
    call-site record, the caller handle and the old target, the load of
    field 5 of the tree node it answers with, that pointer cast back to the
    type of the old target, and last the call of [set_caller] with the tree
    node. *)
Definition decoration_code (call_from : Function)
    (callsite caller callee set_caller : value) (code : list Instruction)
    (newTarget : value) : Prop :=
  exists cast1 oldTarget tn gep ld cast2 sc,
    code = cast1 ++ [tn; gep; ld] ++ cast2 ++ [sc] /\
    cast_yields CastBitCast callee (TPtr (TInt 8)) cast1 oldTarget /\
    inst_op tn = Call TCK_None (function_value call_from) [callsite; caller; oldTarget] /\
    inst_op gep = GetElementPtr true (the_use tn) [VConstInt 32 0; VConstInt 32 5] /\
    inst_op ld = Load (the_use gep) /\
    cast_yields CastBitCast (the_use ld) (value_type callee) cast2 newTarget /\
    inst_op sc = Call TCK_None set_caller [the_use tn].

(** ... where [set_caller] stands for [_drti_set_caller] in the module. *)
Definition is_decoration (m : Module) (call_from : Function)
    (callsite caller callee : value) (code : list Instruction) (newTarget : value) : Prop :=
  exists set_caller,
    decoration_code call_from callsite caller callee set_caller code newTarget /\
    Exec.callee_name m set_caller = Some "_drti_set_caller".

(** The call [original] of [f], as it stands decorated: in its block, the
    decoration code and right after it the call itself, with the resolved
    target for callee and, when it is a [CallInst], marked [notail]. *)
Definition decorated_call (m : Module) (f : Function) (call_from : Function)
    (callsite caller : value) (original : Instruction) : Prop :=
  exists callee b before code newTarget after,
    called_operand original = Some callee /\
    In b (fn_blocks f) /\
    bb_insts b =
      before ++ code
      ++ [setTailCallKind_if_CallInst TCK_NoTail (setCalledOperand newTarget original)]
      ++ after /\
    is_decoration m call_from callsite caller callee code newTarget.

(** The call-site record for call number [n] under the landing site
    [landing]: no calls counted yet, the landing site, the number, and an
    empty vector. *)
Definition is_callsite_record (callsite_type : ty) (landing : GlobalVariable) (n : Z)
    (g : GlobalVariable) : Prop :=
  exists vector_type,
    gv_value_type g = callsite_type /\
    gv_constant g = false /\
    gv_linkage g = InternalLinkage /\
    gv_init g =
      Some (VConstStruct callsite_type
              [VConstInt 64 0; global_value landing; VConstInt 32 n;
               VAggregateZero vector_type]).

(** What [update_block] and [update_inst] do to one block. *)
Definition upd_block (h : ptr) (g : list Instruction -> list Instruction) (x : BasicBlock)
  : BasicBlock :=
  if Nat.eqb (bb_id x) h then set_insts (g (bb_insts x)) x else x.

Definition upd_insts (id : ptr) (g : Instruction -> Instruction) (x : BasicBlock)
  : BasicBlock :=
  set_insts (map (fun j => if Nat.eqb (inst_id j) id then g j else j) (bb_insts x)) x.

(** What [decorate_call] does to the instructions of a block: the code goes
    in front of the instruction with handle [id], which gets its new callee
    and its tail-call kind. *)
Definition decorate_insts (id : ptr) (code : list Instruction) (newTarget : value)
    (l : list Instruction) : list Instruction :=
  map (fun i => if Nat.eqb (inst_id i) id
                then setTailCallKind_if_CallInst TCK_NoTail i else i)
      (map (fun i => if Nat.eqb (inst_id i) id then setCalledOperand newTarget i else i)
           (insert_before id code l)).

Definition decorate_fn (id : ptr) (code : list Instruction) (newTarget : value)
    (f : Function) : Function :=
  set_blocks (map (fun b => set_insts (decorate_insts id code newTarget (bb_insts b)) b)
                  (fn_blocks f)) f.

(** The call [call'] is the call [original] with [newTarget] for callee:
    the same handle, name and result type, the same arguments and, for an
    [invoke] or a [callbr], the same destinations; the callee is
    [newTarget], a value of the type of the old callee [callee]; a [call]
    is marked [notail]. *)
Definition call_rewritten (original call' : Instruction) (callee newTarget : value) : Prop :=
  inst_id call' = inst_id original /\
  inst_name call' = inst_name original /\
  inst_type call' = inst_type original /\
  called_operand call' = Some newTarget /\
  value_type newTarget = value_type callee /\
  match inst_op original with
  | Call _ _ args => inst_op call' = Call TCK_NoTail newTarget args
  | Invoke _ args normal unwind => inst_op call' = Invoke newTarget args normal unwind
  | CallBr _ args fallthrough indirect =>
      inst_op call' = CallBr newTarget args fallthrough indirect
  | op => inst_op call' = op
  end.

(** The call [original] of [f], decorated and rewritten: in its block, the
    decoration code and right after it the call, rewritten to call the
    target that the decoration code resolves. *)
Definition call_decorated (m : Module) (f : Function) (call_from : Function)
    (callsite caller : value) (original : Instruction) : Prop :=
  exists callee b before code newTarget call' after,
    called_operand original = Some callee /\
    In b (fn_blocks f) /\
    bb_insts b = before ++ code ++ [call'] ++ after /\
    is_decoration m call_from callsite caller callee code newTarget /\
    call_rewritten original call' callee newTarget.

(** The instructions [s] stand in a row in one block of [f]. *)
Definition has_segment (f : Function) (s : list Instruction) : Prop :=
  exists b x y, In b (fn_blocks f) /\ bb_insts b = x ++ s ++ y.

(** The position of an instruction among the calls of a function: the
    number of calls counted before it. *)
Definition call_position (pre : list Instruction) : nat :=
  length (List.filter is_counted_call pre).

(** *** What the inserted code is run against *)

Section LandingInputs.
Context `{ext : !Externals}.
Variable w : Exec.World.

(** The return address: what [llvm.returnaddress(0)] answers. *)
Definition return_address : Z := Exec.call_result w "llvm.returnaddress" [0%Z].


(** The alignment test of the entry block. *)
Definition return_address_aligned : bool :=
  Z.eqb (Z.land return_address ret_align_mask) 0.

(** The address the probe loads from, and the magic-constant test. *)
Definition probe_address : Z := ((return_address + probe_index * 8) mod 2 ^ 64)%Z.


End LandingInputs.

(** ** A small module to run the pass on *)

Module Demo.

Definition i8p : ty := TPtr (TInt 8).
Definition t_landing : ty := TStruct "struct.drti::landing_site".
Definition t_callsite : ty := TStruct "struct.drti::static_callsite".
Definition t_treenode : ty := TStruct "struct.drti::treenode".
Definition t_reflect : ty := TStruct "struct.drti::reflect".
Definition ft_void : ty := TFunc TVoid [] false.

Definition structs : list (string * option (list ty)) :=
  [("struct.drti::landing_site", Some [TInt 64; i8p; i8p; TPtr t_reflect]);
   ("struct.drti::static_callsite",
    Some [TInt 64; TPtr t_landing; TInt 32; TArray 32 (TInt 8)]);
   ("struct.drti::treenode", Some [TInt 64; i8p; i8p; i8p; i8p; i8p]);
   ("struct.drti::reflect", Some [i8p; TInt 64; TPtr i8p; TInt 64])].

Definition declare (id : ptr) (name : string) (t : ty) : Function :=
  {| fn_id := id; fn_name := name; fn_type := t; fn_attrs := []; fn_blocks := [] |}.

(** The support module: the four struct types and the two routines. *)
Definition support : Module :=
  {| mod_triple := "x86_64-unknown-linux-gnu";
     mod_struct_types := structs;
     mod_globals := [];
     mod_functions :=
       [declare 0 "_drti_landed" (TFunc TVoid [TPtr t_landing; TPtr t_treenode] false);
        declare 1 "_drti_call_from"
                (TFunc (TPtr t_treenode) [TPtr t_callsite; TPtr t_treenode; i8p] false)] |}.

(** A support module that lacks [_drti_call_from]. *)
Definition broken_support : Module :=
  {| mod_triple := "x86_64-unknown-linux-gnu";
     mod_struct_types := structs;
     mod_globals := [];
     mod_functions :=
       [declare 0 "_drti_landed" (TFunc TVoid [TPtr t_landing; TPtr t_treenode] false)] |}.

Definition inst (id : ptr) (name : string) (t : ty) (op : opcode) : Instruction :=
  {| inst_id := id; inst_name := name; inst_type := t; inst_op := op |}.

Definition asm_call : Instruction :=
  inst 1 "" TVoid (Call TCK_None (VInlineAsm ft_void "nop") []).
Definition helper_call : Instruction :=
  inst 2 "" TVoid (Call TCK_Tail (VFunction 11 ft_void) []).
Definition other_call : Instruction :=
  inst 3 "" TVoid (Call TCK_None (VFunction 12 ft_void) []).
Definition pointer_call : Instruction :=
  inst 5 "" TVoid (Call TCK_None (VInst 4 (TPtr ft_void)) []).

(** [hot_fn] calls, in this order: inline asm, the target [helper], the
    non-target [other], and a function pointer of the type of [helper]. *)
Definition slot : Instruction :=
  inst 0 "slot" (TPtr (TPtr ft_void)) (Alloca (TPtr ft_void)).
Definition fp : Instruction :=
  inst 4 "fp" (TPtr ft_void) (Load (VInst 0 (TPtr (TPtr ft_void)))).
Definition ret : Instruction := inst 6 "" TVoid (Ret None).

Definition entry : BasicBlock :=
  {| bb_id := 0; bb_name := "entry";
     bb_insts := [slot; asm_call; helper_call; other_call; fp; pointer_call; ret] |}.

Definition hot_fn : Function :=
  {| fn_id := 10; fn_name := "hot_fn"; fn_type := ft_void;
     fn_attrs := [OptimizeNone; NoInline];
     fn_blocks := [entry] |}.

Definition helper : Function := declare 11 "helper" ft_void.
Definition other : Function := declare 12 "other" ft_void.

Definition module : Module :=
  {| mod_triple := "x86_64-unknown-linux-gnu";
     mod_struct_types := [];
     mod_globals := [];
     mod_functions := [hot_fn; helper; other] |}.

(** The same module for another target. *)
Definition foreign_module : Module := setTargetTriple "aarch64-unknown-linux-gnu" module.

(** A linker for the demonstration: the struct types and the functions of
    the source are added to the destination, under new handles. *)
Definition link (dst src : Module) : bool * Module :=
  (false,
   {| mod_triple := mod_triple dst;
      mod_struct_types := mod_struct_types dst ++ mod_struct_types src;
      mod_globals := mod_globals dst;
      mod_functions :=
        mod_functions dst ++
        map (fun f => {| fn_id := fresh_function dst + fn_id f; fn_name := fn_name f;
                         fn_type := fn_type f; fn_attrs := fn_attrs f;
                         fn_blocks := fn_blocks f |})
            (mod_functions src) |}).

(** A writer for the demonstration: a byte per function, the number of its
    instructions. *)
Definition write (m : Module) : list byte :=
  map (fun f => match Byte.of_nat (length (fn_insts f)) with
                | Some b => b
                | None => x00
                end) (mod_functions m).

Definition externals (support : Module) : Externals :=
  {| DRTI_RETALIGN := 16;
     DRTI_MAGIC := 3735928559;
     visit_listed_globals := fun _ => [];
     parse_support_bitcode := inr support;
     linkInModule := link;
     writeModule := write;
     dense_order := fun l => l |}.

Definition env : Config.Env :=
  {| Config.getenv := fun name =>
       if String.eqb name "DRTI_TARGET_NAMES" then Some "hot_fn  helper" else None;
     Config.file_contents := fun _ => None |}.

Definition empty_env : Config.Env :=
  {| Config.getenv := fun _ => None; Config.file_contents := fun _ => None |}.

Definition names : gset string := {[ "hot_fn"; "helper" ]}.

(** The pass object after target discovery on [module]. *)
Definition discovered : DecoratePass :=
  snd (find_target_functions (DecoratePass_new names module)).

(** [module] with the support module linked in. *)
Definition linked : Module := snd (link module support).
Definition linked_with_broken_support : Module := snd (link module broken_support).

(** The support routines as [linked] has them. *)
Definition landed : Function :=
  declare 13 "_drti_landed" (TFunc TVoid [TPtr t_landing; TPtr t_treenode] false).
Definition call_from : Function :=
  declare 14 "_drti_call_from"
          (TFunc (TPtr t_treenode) [TPtr t_callsite; TPtr t_treenode; i8p] false).

(** The pass object when [add_landing_globals] starts: the helpers looked
    up, the snapshot embedded. *)
Definition ready : DecoratePass :=
  match @create_self (externals support)
                     (snd (lookup_helpers (set_module linked discovered))) with
  | Ok p => p
  | _ => discovered
  end.

(** [hot_fn] as [ready] has it. *)
Definition ready_hot_fn : Function := strip_markers hot_fn.

Definition landing_site : GlobalVariable :=
  {| gv_id := 50; gv_name := "_drti_landing_hot_fn"; gv_value_type := t_landing;
     gv_constant := false; gv_linkage := InternalLinkage; gv_init := None |}.

Definition self_global : GlobalVariable :=
  match m_reflect_global ready with
  | Some g => g
  | None => landing_site
  end.

(** [module] after the pass. *)
Definition decorated : Module :=
  match snd (@runOnModule (externals support) env module) with
  | Ok (_, m) => m
  | _ => module
  end.

(** A run in which [hot_fn] is entered from decorated code: the return
    address is aligned and the magic number is where the probe looks. *)
Definition landing_world : Exec.World :=
  {| Exec.call_result := fun name _ =>
       if String.eqb name "llvm.returnaddress" then 4096%Z else 77%Z;
     Exec.load64 := fun _ => 3735928559%Z;
     Exec.alloca_addr := fun _ => 0%Z;
     Exec.global_addr := Z.of_nat;
     Exec.function_addr := Z.of_nat |}.

(** A run in which it is entered from plain code: the return address is
    not aligned. *)
Definition plain_world : Exec.World :=
  {| Exec.call_result := fun name _ =>
       if String.eqb name "llvm.returnaddress" then 4099%Z else 77%Z;
     Exec.load64 := fun _ => 0%Z;
     Exec.alloca_addr := fun _ => 0%Z;
     Exec.global_addr := Z.of_nat;
     Exec.function_addr := Z.of_nat |}.

End Demo.

(** ** Vocabulary of the further properties *)

(** The characters of a name. *)
Definition chars (s : string) : list ascii := list_ascii_of_string s.

(** A name as a target list can carry it: not empty, no white space. *)
Definition is_word (w : string) : Prop :=
  w <> "" /\ Forall (fun c => Config.isspace c = false) (chars w).

(** Names written one after the other with a blank between them. *)
Fixpoint unwords (ws : list string) : string :=
  match ws with
  | [] => ""
  | [w] => w
  | w :: rest => w +:+ " " +:+ unwords rest
  end.

(** The functions the run-time resolves by address: the declarations that
    are no intrinsics, in the order of the module. *)
Definition extern_functions (m : Module) : list Function :=
  List.filter (fun f => negb (isIntrinsic f) && isDeclaration f) (mod_functions m).

(** Two states of a function that differ in its blocks at most. *)
Definition same_header (f f' : Function) : Prop :=
  fn_id f' = fn_id f /\ fn_name f' = fn_name f /\ fn_type f' = fn_type f /\
  fn_attrs f' = fn_attrs f.

(** A later state of the module in which, of the functions the earlier one
    has, only the function with handle [h] may have changed, and this one
    in its blocks at most. *)
Definition edits_only (h : ptr) (m m' : Module) : Prop :=
  kept m m' /\
  (forall h0 f, h0 <> h -> find_function h0 m = Some f -> find_function h0 m' = Some f) /\
  (forall f, find_function h m = Some f ->
     exists f', find_function h m' = Some f' /\ same_header f f').

(** ** More inputs to run the pass on *)

Module Samples.

(** A target list as one writes it: names with a blank between them. *)
Definition listed_env : Config.Env :=
  {| Config.getenv := fun name =>
       if String.eqb name "DRTI_TARGET_NAMES" then Some (unwords ["hot_fn"; "helper"])
       else None;
     Config.file_contents := fun _ => None |}.

(** A names file that is not there. *)
Definition unreadable_env : Config.Env :=
  {| Config.getenv := fun name =>
       if String.eqb name "DRTI_TARGET_NAMES" then Some "hot_fn"
       else if String.eqb name "DRTI_TARGETS_FILE" then Some "/no/such/file"
       else None;
     Config.file_contents := fun _ => None |}.

(** A module without any function of a target name. *)
Definition plain_module : Module :=
  {| mod_triple := "x86_64-unknown-linux-gnu";
     mod_struct_types := [];
     mod_globals := [];
     mod_functions := [Demo.other] |}.

(** A linker that fails, and leaves the module as it found it. *)
Definition failing_externals : Externals :=
  {| DRTI_RETALIGN := 16;
     DRTI_MAGIC := 3735928559;
     visit_listed_globals := fun _ => [];
     parse_support_bitcode := inr Demo.support;
     linkInModule := fun dst _ => (true, dst);
     writeModule := Demo.write;
     dense_order := fun l => l |}.

(** A function whose entry block is one [alloca]. *)
Definition bare_fn : Function :=
  {| fn_id := 20; fn_name := "bare"; fn_type := Demo.ft_void; fn_attrs := [];
     fn_blocks := [{| bb_id := 0; bb_name := "entry"; bb_insts := [Demo.slot] |}] |}.

Definition bare_pass : DecoratePass :=
  DecoratePass_new Demo.names
    {| mod_triple := "x86_64-unknown-linux-gnu"; mod_struct_types := [];
       mod_globals := []; mod_functions := [bare_fn] |}.

(** The pass object of the demonstration after linking, before the helpers
    are looked up. *)
Definition linked_pass : DecoratePass := set_module Demo.linked Demo.discovered.

End Samples.

(** * Properties *)

Arguments find_target_functions : simpl never.
Arguments add_helpers : simpl never.
Arguments lookup_helpers : simpl never.
Arguments create_self : simpl never.
Arguments add_landing_globals : simpl never.
Arguments add_landing_globals_body : simpl never.
Arguments add_landing_update : simpl never.
Arguments create_landing_global : simpl never.
Arguments create_callsite_global : simpl never.
Arguments decorate_call : simpl never.
Arguments collect_calls : simpl never.
Arguments collect_globals : simpl never.
Arguments Config.targets_from_environment : simpl never.
Arguments Config.targets_from_environment_reads : simpl never.

(** ** Target specification *)

Section ConfigFacts.
Import Config.

Lemma split_stream_elem (s : string) (acc : gset string) (x : string) :
  x ∈ split_stream s acc <-> In x (words s) \/ x ∈ acc.
Proof.
  unfold split_stream. generalize (words s) as l. intros l. revert acc.
  induction l as [|w l IH]; intros acc; simpl.
  - tauto.
  - rewrite IH, elem_of_union, elem_of_singleton. intuition congruence.
Qed.

Lemma after_file_after_names_elem (env : Env) (x : string) :
  x ∈ after_file env (after_names env) <-> In x (configured_names env).
Proof.
  unfold after_file, after_names, configured_names. rewrite in_app_iff.
  destruct (getenv env "DRTI_TARGETS_FILE") as [path|];
    [destruct (file_contents env path) as [text|]|];
    destruct (getenv env "DRTI_TARGET_NAMES") as [names|];
    rewrite ?split_stream_elem; simpl;
    pose proof (not_elem_of_empty (C:=gset string) x); tauto.
Qed.

Lemma empty_iff_no_names (env : Env) :
  after_file env (after_names env) = ∅ <-> configured_names env = [].
Proof.
  split; intros H.
  - destruct (configured_names env) as [|x l] eqn:E; [reflexivity|].
    assert (Hx : x ∈ after_file env (after_names env)).
    { apply after_file_after_names_elem. rewrite E. left. reflexivity. }
    rewrite H in Hx. destruct (not_elem_of_empty x Hx).
  - apply leibniz_equiv. intros x. rewrite after_file_after_names_elem, H.
    simpl. pose proof (not_elem_of_empty (C:=gset string) x). tauto.
Qed.

Lemma no_targets_message_names_sources :
  mentions no_targets_message "DRTI_TARGET_NAMES" /\
  mentions no_targets_message "DRTI_TARGETS_FILE".
Proof.
  split.
  - exists "No target functions found. Have you set ", " and/or DRTI_TARGETS_FILE?".
    reflexivity.
  - exists "No target functions found. Have you set DRTI_TARGET_NAMES and/or ", "?".
    reflexivity.
Qed.

(** C7.  [targets_from_environment] never answers with an empty set; when
    the inline list and the names file together supply at least one name it
    answers with the non-empty set of exactly these names; when they supply
    none it aborts with a message that names both [DRTI_TARGET_NAMES] and
    [DRTI_TARGETS_FILE]. *)
Theorem targets_from_environment_nonempty_or_fatal :
  forall env : Env,
    (forall s, targets_from_environment env = Ok s -> s <> ∅) /\
    (configured_names env <> [] ->
     exists s, targets_from_environment env = Ok s /\ s <> ∅ /\
               forall x, x ∈ s <-> In x (configured_names env)) /\
    (configured_names env = [] ->
     exists msg, targets_from_environment env = Fatal msg /\
                 mentions msg "DRTI_TARGET_NAMES" /\
                 mentions msg "DRTI_TARGETS_FILE").
Proof.
  intros env. unfold targets_from_environment. cbv zeta.
  pose proof (empty_iff_no_names env) as Hempty.
  case_bool_decide as Hdec.
  - split; [discriminate|]. split.
    + intros Hne. exfalso. apply Hne, Hempty, Hdec.
    + intros _. exists no_targets_message. split; [reflexivity|].
      apply no_targets_message_names_sources.
  - split; [intros s [= <-]; exact Hdec|]. split.
    + intros _. eexists. split; [reflexivity|]. split; [exact Hdec|].
      apply after_file_after_names_elem.
    + intros Hnil. exfalso. apply Hdec, Hempty, Hnil.
Qed.

End ConfigFacts.

(** ** Sets of handles and of types *)

Lemma ty_eqb_refl : forall a, ty_eqb a a = true.
Proof.
  fix IH 1. intros [| n | x | s | n x | r ps v]; simpl.
  - reflexivity.
  - apply N.eqb_refl.
  - apply IH.
  - apply String.eqb_refl.
  - rewrite N.eqb_refl. apply IH.
  - rewrite IH, Bool.eqb_reflx, andb_true_r. simpl.
    induction ps as [|x ps IHps]; [reflexivity|].
    rewrite IH. exact IHps.
Qed.

Lemma ty_eqb_true : forall a b, ty_eqb a b = true -> a = b.
Proof.
  fix IH 1. intros [| n | x | s | n x | r ps v] [| m | y | t | m y | r' ps' v'];
    simpl; try discriminate.
  - reflexivity.
  - intros H. apply N.eqb_eq in H. congruence.
  - intros H. apply IH in H. congruence.
  - intros H. apply String.eqb_eq in H. congruence.
  - intros H. apply andb_prop in H as [H1 H2].
    apply N.eqb_eq in H1. apply IH in H2. congruence.
  - intros H. apply andb_prop in H as [H H3]. apply andb_prop in H as [H1 H2].
    apply IH in H1. apply Bool.eqb_prop in H3. subst r' v'. f_equal.
    revert ps' H2. induction ps as [|x ps IHps]; intros [|y ps']; try discriminate.
    + reflexivity.
    + intros H. apply andb_prop in H as [Hx Hps].
      apply IH in Hx. apply IHps in Hps. congruence.
Qed.

Lemma ty_eqb_eq (a b : ty) : ty_eqb a b = true <-> a = b.
Proof.
  split; [apply ty_eqb_true|]. intros <-. apply ty_eqb_refl.
Qed.

Lemma in_types_In (t : ty) (s : list ty) : in_types t s = true <-> In t s.
Proof.
  unfold in_types. rewrite existsb_exists. split.
  - intros (x & Hx & E). apply ty_eqb_eq in E. subst x. exact Hx.
  - intros H. exists t. split; [exact H | apply ty_eqb_refl].
Qed.

Lemma in_functions_In (h : ptr) (s : list ptr) : in_functions h s = true <-> In h s.
Proof.
  unfold in_functions. rewrite existsb_exists. split.
  - intros (x & Hx & E). apply Nat.eqb_eq in E. subst x. exact Hx.
  - intros H. exists h. split; [exact H | apply Nat.eqb_refl].
Qed.

Lemma insert_function_In (h x : ptr) (s : list ptr) :
  In x (insert_function h s) <-> x = h \/ In x s.
Proof.
  unfold insert_function. destruct (in_functions h s) eqn:E.
  - apply in_functions_In in E. intuition (subst; auto).
  - rewrite in_app_iff. simpl. intuition (subst; auto).
Qed.

Lemma insert_type_In (t x : ty) (s : list ty) :
  In x (insert_type t s) <-> x = t \/ In x s.
Proof.
  unfold insert_type. destruct (in_types t s) eqn:E.
  - apply in_types_In in E. intuition (subst; auto).
  - rewrite in_app_iff. simpl. intuition (subst; auto).
Qed.

(** ** Target discovery *)

Lemma find_target_functions_fold (names : gset string) (fs : list Function)
    (acc : list ptr * list ty) :
  let r := fold_left (find_target_functions_step names) fs acc in
  (forall h, In h (fst r) <->
             In h (fst acc) \/ exists f, In f fs /\ fn_id f = h /\ fn_name f ∈ names) /\
  (forall t, In t (snd r) <->
             In t (snd acc) \/ exists f, In f fs /\ fn_type f = t /\ fn_name f ∈ names).
Proof.
  revert acc. induction fs as [|f fs IH]; intros acc; simpl.
  - split; intros x; split; auto; intros [H|(f & [] & _)]; exact H.
  - destruct (IH (find_target_functions_step names acc f)) as [IH1 IH2].
    unfold find_target_functions_step in *. case_bool_decide as Hin; simpl in *.
    + split; intros x.
      * rewrite IH1, insert_function_In. split.
        -- intros [[->|H]|(g & Hg & E & N)]; eauto 6.
        -- intros [H|(g & [->|Hg] & E & N)]; eauto 6.
      * rewrite IH2, insert_type_In. split.
        -- intros [[->|H]|(g & Hg & E & N)]; eauto 6.
        -- intros [H|(g & [->|Hg] & E & N)]; eauto 6.
    + split; intros x.
      * rewrite IH1. split.
        -- intros [H|(g & Hg & E & N)]; eauto 6.
        -- intros [H|(g & [->|Hg] & E & N)]; eauto 6. contradiction.
      * rewrite IH2. split.
        -- intros [H|(g & Hg & E & N)]; eauto 6.
        -- intros [H|(g & [->|Hg] & E & N)]; eauto 6. contradiction.
Qed.

Lemma find_target_functions_module (p : DecoratePass) :
  m_module (snd (find_target_functions p)) = m_module p.
Proof. reflexivity. Qed.

(** C3, as the code has it.  [find_target_functions] records the handle of
    every function of the module whose name is in the target set, whether
    it is a definition or a declaration, and records its function type;
    nothing else is recorded, and the answer tells whether any function
    matched.  The restriction to definitions comes later: the body of the
    loop of [add_landing_globals] does nothing for a function that is a
    declaration, it answers with the pass object as it got it. *)
Theorem find_target_functions_records_every_match :
  forall (names : gset string) (module : Module),
    let r := find_target_functions (DecoratePass_new names module) in
    (forall f, In f (mod_functions module) /\ fn_name f ∈ names ->
               In (fn_id f) (m_target_functions (snd r)) /\
               In (fn_type f) (m_target_function_types (snd r))) /\
    (forall h, In h (m_target_functions (snd r)) ->
               exists f, In f (mod_functions module) /\ fn_id f = h /\ fn_name f ∈ names) /\
    (forall t, In t (m_target_function_types (snd r)) ->
               exists f, In f (mod_functions module) /\ fn_type f = t /\ fn_name f ∈ names) /\
    (fst r = true <->
     exists f, In f (mod_functions module) /\ fn_name f ∈ names) /\
    m_module (snd r) = module /\
    (forall (ext : Externals) (function : ptr) (p : DecoratePass) (f : Function),
       find_function function (m_module p) = Some f ->
       isDeclaration f = true ->
       @add_landing_globals_body ext function p = Ok p).
Proof.
  intros names module. unfold find_target_functions, DecoratePass_new. simpl.
  destruct (find_target_functions_fold names (mod_functions module) ([], [])) as [H1 H2].
  simpl in H1, H2.
  assert (Hlater : forall (ext : Externals) (function : ptr) (p : DecoratePass)
                          (f : Function),
             find_function function (m_module p) = Some f ->
             isDeclaration f = true ->
             @add_landing_globals_body ext function p = Ok p).
  { intros ext function p f Hf Hdecl. unfold add_landing_globals_body, get_function.
    rewrite Hf. cbn [obind]. now rewrite Hdecl. }
  split; [|split; [|split; [|split; [|split; [reflexivity|exact Hlater]]]]].
  - intros f [Hf Hn]. split.
    + apply H1. right. exists f. tauto.
    + apply H2. right. exists f. tauto.
  - intros h Hh. apply H1 in Hh as [[]|Hh]. exact Hh.
  - intros t Ht. apply H2 in Ht as [[]|Ht]. exact Ht.
  - split.
    + intros Hfst.
      destruct (fst (fold_left (find_target_functions_step names)
                               (mod_functions module) ([], []))) as [|h l] eqn:E;
        [discriminate|].
      destruct (proj1 (H1 h)) as [[]|(f & Hf & _ & Hn)]; [left; reflexivity|].
      exists f. tauto.
    + intros (f & Hf & Hn).
      assert (Hin : In (fn_id f)
                       (fst (fold_left (find_target_functions_step names)
                                       (mod_functions module) ([], [])))).
      { apply H1. right. exists f. tauto. }
      destruct (fst (fold_left _ _ _)); [destruct Hin | reflexivity].
Qed.

(** ** The pass as a whole: what it skips *)

Section RunFacts.
Context `{ext : !Externals}.

Lemma supported_triple_dec (module : Module) :
  mod_triple module <> "x86_64-unknown-linux-gnu" ->
  negb (String.eqb (mod_triple module) "x86_64-unknown-linux-gnu") = true.
Proof.
  intros H. destruct (String.eqb_spec (mod_triple module) "x86_64-unknown-linux-gnu").
  - contradiction.
  - reflexivity.
Qed.

(** C9.  A module for another target comes back as it was, with the answer
    [false] and no error: same triple, same globals, same functions. *)
Theorem runOnModule_other_target_unchanged :
  forall (env : Config.Env) (module : Module),
    mod_triple module <> "x86_64-unknown-linux-gnu" ->
    exists module',
      snd (runOnModule env module) = Ok (false, module') /\
      module' = module /\
      mod_triple module' = mod_triple module /\
      mod_globals module' = mod_globals module /\
      mod_functions module' = mod_functions module.
Proof.
  intros env module H. exists module. unfold runOnModule.
  rewrite (supported_triple_dec module H). simpl. auto.
Qed.

(** C10.  The target check comes first: for a module for another target no
    configuration source is consulted, the outcome is the same under every
    environment, and an environment under which [targets_from_environment]
    aborts does not make the pass abort. *)
Theorem runOnModule_target_check_precedes_configuration :
  forall (env : Config.Env) (module : Module),
    mod_triple module <> "x86_64-unknown-linux-gnu" ->
    fst (runOnModule env module) = [] /\
    (forall env', runOnModule env' module = runOnModule env module) /\
    (forall msg, Config.targets_from_environment env = Fatal msg ->
                 snd (runOnModule env module) = Ok (false, module)).
Proof.
  intros env module H. unfold runOnModule.
  rewrite (supported_triple_dec module H). simpl. auto.
Qed.

(** For a module for the supported target the configuration is consulted,
    and the pass aborts when [targets_from_environment] does. *)
Lemma runOnModule_supported_reads_configuration (env : Config.Env) (module : Module) :
  mod_triple module = "x86_64-unknown-linux-gnu" ->
  fst (runOnModule env module) = Config.targets_from_environment_reads env /\
  forall msg, Config.targets_from_environment env = Fatal msg ->
              snd (runOnModule env module) = Fatal msg.
Proof.
  intros H. unfold runOnModule. rewrite H. simpl. split; [reflexivity|].
  intros msg ->. reflexivity.
Qed.

Lemma InlineHelpers_ok_false (module : Module) :
  getTypeByName "struct.drti::landing_site" module = None \/
  getTypeByName "struct.drti::static_callsite" module = None \/
  getTypeByName "struct.drti::treenode" module = None \/
  getTypeByName "struct.drti::reflect" module = None \/
  getFunction "_drti_landed" module = None \/
  getFunction "_drti_call_from" module = None <->
  InlineHelpers_ok (InlineHelpers_new module) = false.
Proof.
  unfold InlineHelpers_ok, InlineHelpers_new. simpl.
  destruct (getTypeByName "struct.drti::landing_site" module),
           (getTypeByName "struct.drti::static_callsite" module),
           (getTypeByName "struct.drti::treenode" module),
           (getTypeByName "struct.drti::reflect" module),
           (getFunction "_drti_landed" module),
           (getFunction "_drti_call_from" module); simpl;
    intuition discriminate.
Qed.

(** C8.  When, after support linking, one of the four struct types or one
    of the two hand-off routines is missing, the pass answers [true] and
    hands back the module exactly as the linker left it: no snapshot, no
    landing code, no call-site decoration, the target triple untouched. *)
Theorem runOnModule_missing_helpers_soft_skip :
  forall (env : Config.Env) (module support linked : Module) (names : gset string),
    mod_triple module = "x86_64-unknown-linux-gnu" ->
    Config.targets_from_environment env = Ok names ->
    fst (find_target_functions (DecoratePass_new names module)) = true ->
    parse_support_bitcode = inr support ->
    linkInModule module support = (false, linked) ->
    (getTypeByName "struct.drti::landing_site" linked = None \/
     getTypeByName "struct.drti::static_callsite" linked = None \/
     getTypeByName "struct.drti::treenode" linked = None \/
     getTypeByName "struct.drti::reflect" linked = None \/
     getFunction "_drti_landed" linked = None \/
     getFunction "_drti_call_from" linked = None) ->
    snd (runOnModule env module) = Ok (true, linked).
Proof.
  intros env module support linked names Htriple Hnames Hfound Hparse Hlink Hmissing.
  apply InlineHelpers_ok_false in Hmissing.
  unfold runOnModule. rewrite Htriple. cbn. rewrite Hnames. cbn.
  destruct (find_target_functions (DecoratePass_new names module)) as [found d] eqn:Ef.
  cbn in Hfound. subst found. cbn.
  assert (Hd : m_module d = module).
  { pose proof (find_target_functions_module (DecoratePass_new names module)) as Hr.
    rewrite Ef in Hr. exact Hr. }
  unfold add_helpers. rewrite Hparse, Hd, Hlink. cbn.
  unfold lookup_helpers. cbn. rewrite Hmissing. reflexivity.
Qed.

End RunFacts.

(** ** Lists of distinct handles *)

Lemma NoDup_map_eq {A B} (f : A -> B) (l : list A) (x y : A) :
  List.NoDup (map f l) -> In x l -> In y l -> f x = f y -> x = y.
Proof.
  induction l as [|a l IH]; cbn; [intros _ []|].
  intros Hnd Hx Hy E. apply List.NoDup_cons_iff in Hnd as [Ha Hnd].
  destruct Hx as [->|Hx], Hy as [->|Hy]; auto.
  - exfalso. apply Ha. rewrite E. now apply in_map.
  - exfalso. apply Ha. rewrite <- E. now apply in_map.
Qed.

(** ** Call collection *)

Section CollectFacts.
Variable p : DecoratePass.
Variable function : Function.

Lemma collect_calls_inst_eq (n : Z) (result : list (Z * inst_ref)) (i : Instruction) :
  collect_calls_inst p function (n, result) i =
  (next_call_number n i,
   result ++ if selects p i then [(n, ref_of function i)] else []).
Proof.
  unfold collect_calls_inst, next_call_number, selects, is_counted_call, ref_of,
    pointee_or_self.
  destruct (called_operand i) as [callee|]; [|now rewrite app_nil_r].
  destruct (is_inline_asm callee); cbn [negb andb]; [now rewrite app_nil_r|].
  destruct (in_types _ _); cbn [andb]; [|now rewrite app_nil_r].
  destruct callee; cbn [negb]; try reflexivity.
  destruct (in_functions _ _); cbn [negb]; [reflexivity | now rewrite app_nil_r].
Qed.

Lemma collect_calls_insts_eq (l : list Instruction) (n : Z) (result : list (Z * inst_ref)) :
  fold_left (collect_calls_inst p function) l (n, result) =
  (call_number_after n l, result ++ numbered p function n l).
Proof.
  unfold call_number_after.
  revert n result. induction l as [|i l IH]; intros n result; cbn [fold_left numbered].
  - now rewrite app_nil_r.
  - rewrite collect_calls_inst_eq, IH. now rewrite <- app_assoc.
Qed.

Lemma call_number_after_app (l1 l2 : list Instruction) (n : Z) :
  call_number_after n (l1 ++ l2) = call_number_after (call_number_after n l1) l2.
Proof. apply fold_left_app. Qed.

Lemma numbered_app (l1 l2 : list Instruction) (n : Z) :
  numbered p function n (l1 ++ l2) =
  numbered p function n l1 ++ numbered p function (call_number_after n l1) l2.
Proof.
  revert n. induction l1 as [|i l1 IH]; intros n; cbn; [reflexivity|].
  now rewrite IH, <- app_assoc.
Qed.

Lemma collect_calls_blocks_eq (bs : list BasicBlock) (n : Z) (result : list (Z * inst_ref)) :
  fold_left (collect_calls_block p function) bs (n, result) =
  (call_number_after n (concat (map bb_insts bs)),
   result ++ numbered p function n (concat (map bb_insts bs))).
Proof.
  revert n result. induction bs as [|b bs IH]; intros n result;
    cbn [fold_left map concat].
  - now rewrite app_nil_r.
  - unfold collect_calls_block at 2. rewrite collect_calls_insts_eq, IH.
    now rewrite call_number_after_app, numbered_app, <- app_assoc.
Qed.

Lemma collect_calls_numbered :
  collect_calls function p = numbered p function 0 (fn_insts function).
Proof.
  unfold collect_calls. now rewrite collect_calls_blocks_eq.
Qed.

Lemma numbered_In (l : list Instruction) (n k : Z) (r : inst_ref) :
  In (k, r) (numbered p function n l) <->
  exists pre i post,
    l = pre ++ i :: post /\ selects p i = true /\
    r = ref_of function i /\ k = call_number_after n pre.
Proof.
  revert n. induction l as [|i l IH]; intros n; cbn.
  - split; [intros [] | intros (pre & j & post & E & _)]. now destruct pre.
  - rewrite in_app_iff, IH. split.
    + intros [H | (pre & j & post & -> & Hs & -> & ->)].
      * destruct (selects p i) eqn:Hs; [|destruct H].
        destruct H as [[= <- <-] | []]. now exists [], i, l.
      * now exists (i :: pre), j, post.
    + intros (pre & j & post & E & Hs & -> & ->). destruct pre as [|i' pre].
      * injection E as <- <-. rewrite Hs. left. now left.
      * injection E as <- ->. right. now exists pre, j, post.
Qed.

Lemma numbered_refs (l : list Instruction) (n : Z) :
  map snd (numbered p function n l) = map (ref_of function) (List.filter (selects p) l).
Proof.
  revert n. induction l as [|i l IH]; intros n; cbn; [reflexivity|].
  rewrite map_app, IH. now destruct (selects p i).
Qed.

Lemma selects_counted (i : Instruction) : selects p i = true -> is_counted_call i = true.
Proof.
  unfold selects, is_counted_call. destruct (called_operand i); [|discriminate].
  intros H. apply andb_prop in H as [H _]. now apply andb_prop in H as [H _].
Qed.

Lemma selects_iff (i : Instruction) (callee : value) :
  called_operand i = Some callee ->
  (selects p i = true <->
   is_inline_asm callee = false /\ type_matches p callee /\ ~ known_non_target p callee).
Proof.
  intros Hc. unfold selects, type_matches, known_non_target. rewrite Hc.
  rewrite !andb_true_iff, !negb_true_iff, in_types_In. split.
  - intros [[Ha Ht] Hg]. repeat split; auto.
    intros (g & fty & -> & Hn). apply negb_false_iff in Hg.
    apply Hn, in_functions_In. now destruct (in_functions g _).
  - intros (Ha & Ht & Hk). repeat split; auto.
    destruct callee; try reflexivity.
    apply negb_false_iff. destruct (in_functions f _) eqn:E; [reflexivity|].
    exfalso. apply Hk. eexists _, _. split; [reflexivity|].
    intros Hin. apply in_functions_In in Hin. congruence.
Qed.

(** Under distinct handles, an instruction of the function is collected
    exactly when [collect_calls] selects it. *)
Lemma selected_iff_selects (i : Instruction) :
  List.NoDup (map inst_id (fn_insts function)) ->
  In i (fn_insts function) ->
  (selected function p i <-> selects p i = true).
Proof.
  intros Hnd Hin. unfold selected. rewrite collect_calls_numbered. split.
  - intros (n & H). apply numbered_In in H as (pre & j & post & E & Hs & Hr & _).
    assert (Hj : In j (fn_insts function)).
    { rewrite E. apply in_or_app. right. now left. }
    assert (j = i); [|now subst].
    injection Hr as Hid. symmetry in Hid.
    apply (NoDup_map_eq inst_id (fn_insts function)); auto.
  - intros Hs. apply in_split in Hin as (pre & post & E).
    exists (call_number_after 0 pre). apply numbered_In. now exists pre, i, post.
Qed.

End CollectFacts.

Ltac distinct_handles :=
  repeat (apply List.NoDup_cons; [cbn; intuition discriminate|]); apply List.NoDup_nil.

(** C4, as the specification words it, fails on an inline-asm call: in
    [Demo.hot_fn] the static type of the inline-asm callee is the recorded
    signature of the targets and the callee is no known non-target, yet the
    call is not collected. *)
Lemma collect_calls_skips_matching_inline_asm :
  In Demo.asm_call (fn_insts Demo.hot_fn) /\
  called_operand Demo.asm_call = Some (VInlineAsm Demo.ft_void "nop") /\
  type_matches Demo.discovered (VInlineAsm Demo.ft_void "nop") /\
  ~ known_non_target Demo.discovered (VInlineAsm Demo.ft_void "nop") /\
  ~ selected Demo.hot_fn Demo.discovered Demo.asm_call.
Proof.
  split; [cbn; tauto|]. split; [reflexivity|]. split; [|split].
  - unfold type_matches. vm_compute. left. reflexivity.
  - intros (g & fty & E & _). discriminate E.
  - intros [n H]. rewrite collect_calls_numbered in H. vm_compute in H.
    destruct H as [H|[H|[]]]; discriminate H.
Qed.

(** C4, as the code has it.  A call instruction of a function is collected
    exactly when its callee is not inline asm, the static type of the callee
    (behind the pointer) is a recorded signature, and the callee is not a
    function of the module outside the recorded target functions.  So a
    call through anything but a named function or inline asm, of a matching
    type, is collected, and a direct call to a function that is not a
    recorded target never is. *)
Theorem collect_calls_selects :
  forall (p : DecoratePass) (function : Function) (i : Instruction) (callee : value),
    List.NoDup (map inst_id (fn_insts function)) ->
    In i (fn_insts function) ->
    called_operand i = Some callee ->
    (selected function p i <->
     is_inline_asm callee = false /\ type_matches p callee /\ ~ known_non_target p callee) /\
    (is_inline_asm callee = false ->
     (forall g fty, callee <> VFunction g fty) ->
     type_matches p callee -> selected function p i) /\
    (known_non_target p callee -> ~ selected function p i).
Proof.
  intros p function i callee Hnd Hin Hc.
  pose proof (selected_iff_selects p function i Hnd Hin) as Hsel.
  pose proof (selects_iff p i callee Hc) as Hiff.
  split; [|split].
  - rewrite Hsel. exact Hiff.
  - intros Ha Hptr Ht. apply Hsel, Hiff. repeat split; auto.
    intros (g & fty & E & _). exact (Hptr g fty E).
  - intros Hk Hs. apply Hsel, Hiff in Hs. tauto.
Qed.

Lemma collect_calls_selects_witness :
  (selected Demo.hot_fn Demo.discovered Demo.pointer_call <->
   is_inline_asm (VInst 4 (TPtr Demo.ft_void)) = false /\
   type_matches Demo.discovered (VInst 4 (TPtr Demo.ft_void)) /\
   ~ known_non_target Demo.discovered (VInst 4 (TPtr Demo.ft_void))) /\
  (is_inline_asm (VInst 4 (TPtr Demo.ft_void)) = false ->
   (forall g fty, VInst 4 (TPtr Demo.ft_void) <> VFunction g fty) ->
   type_matches Demo.discovered (VInst 4 (TPtr Demo.ft_void)) ->
   selected Demo.hot_fn Demo.discovered Demo.pointer_call) /\
  (known_non_target Demo.discovered (VInst 4 (TPtr Demo.ft_void)) ->
   ~ selected Demo.hot_fn Demo.discovered Demo.pointer_call).
Proof.
  apply (collect_calls_selects Demo.discovered Demo.hot_fn Demo.pointer_call
                               (VInst 4 (TPtr Demo.ft_void))).
  - distinct_handles.
  - cbn. tauto.
  - reflexivity.
Defined.

(** ** The properties on the demonstration module *)

(** C3, as the specification words it, fails on a declaration: [helper] has
    no body, its name is a target name, and its handle is recorded among
    the target functions. *)
Lemma find_target_functions_records_declaration :
  In Demo.helper (mod_functions Demo.module) /\
  fn_name Demo.helper ∈ Demo.names /\
  isDeclaration Demo.helper = true /\
  In (fn_id Demo.helper) (m_target_functions Demo.discovered).
Proof.
  split; [cbn; tauto|]. split; [|split].
  - unfold Demo.names. apply elem_of_union. right. now apply elem_of_singleton.
  - reflexivity.
  - vm_compute. tauto.
Qed.

Lemma find_target_functions_records_every_match_witness :
  In (fn_id Demo.helper)
     (m_target_functions (snd (find_target_functions
                                 (DecoratePass_new Demo.names Demo.module)))) /\
  @add_landing_globals_body (Demo.externals Demo.support) (fn_id Demo.helper) Demo.ready =
  Ok Demo.ready.
Proof.
  destruct (find_target_functions_records_every_match Demo.names Demo.module)
    as (Hrec & _ & _ & _ & _ & Hlater).
  split.
  - apply (Hrec Demo.helper). split; [cbn; tauto|].
    unfold Demo.names. apply elem_of_union. right. now apply elem_of_singleton.
  - apply (Hlater (Demo.externals Demo.support) (fn_id Demo.helper) Demo.ready Demo.helper).
    + vm_compute. reflexivity.
    + reflexivity.
Defined.

Lemma runOnModule_missing_helpers_soft_skip_witness :
  snd (@runOnModule (Demo.externals Demo.broken_support) Demo.env Demo.module) =
  Ok (true, Demo.linked_with_broken_support).
Proof.
  apply (@runOnModule_missing_helpers_soft_skip (Demo.externals Demo.broken_support)
           Demo.env Demo.module Demo.broken_support Demo.linked_with_broken_support Demo.names).
  - reflexivity.
  - vm_compute. reflexivity.
  - vm_compute. reflexivity.
  - reflexivity.
  - reflexivity.
  - right. right. right. right. right. reflexivity.
Defined.

Lemma runOnModule_other_target_unchanged_witness :
  exists module',
    snd (@runOnModule (Demo.externals Demo.support) Demo.env Demo.foreign_module) =
    Ok (false, module') /\
    module' = Demo.foreign_module /\
    mod_triple module' = mod_triple Demo.foreign_module /\
    mod_globals module' = mod_globals Demo.foreign_module /\
    mod_functions module' = mod_functions Demo.foreign_module.
Proof.
  apply (@runOnModule_other_target_unchanged (Demo.externals Demo.support)
           Demo.env Demo.foreign_module).
  discriminate.
Defined.

Lemma runOnModule_target_check_precedes_configuration_witness :
  fst (@runOnModule (Demo.externals Demo.support) Demo.empty_env Demo.foreign_module) = [] /\
  (forall env',
     @runOnModule (Demo.externals Demo.support) env' Demo.foreign_module =
     @runOnModule (Demo.externals Demo.support) Demo.empty_env Demo.foreign_module) /\
  (forall msg,
     Config.targets_from_environment Demo.empty_env = Fatal msg ->
     snd (@runOnModule (Demo.externals Demo.support) Demo.empty_env Demo.foreign_module) =
     Ok (false, Demo.foreign_module)).
Proof.
  apply (@runOnModule_target_check_precedes_configuration (Demo.externals Demo.support)
           Demo.empty_env Demo.foreign_module).
  discriminate.
Defined.

(** On the supported target the empty environment does abort the pass. *)
Lemma runOnModule_empty_environment_fatal :
  snd (@runOnModule (Demo.externals Demo.support) Demo.empty_env Demo.module) =
  Fatal Config.no_targets_message.
Proof. vm_compute. reflexivity. Qed.

(** ** What the steps of the pass keep *)

(** Case analysis along a definition that answers [Ok]. *)
Ltac step_ok H :=
  match type of H with
  | obind ?x _ = Ok _ =>
      let E := fresh "E" in
      destruct x eqn:E; cbn [obind] in H; [|discriminate H|discriminate H]
  | (let '(_, _) := ?x in _) = Ok _ =>
      let E := fresh "E" in destruct x eqn:E
  | (match ?x with Some _ => _ | None => _ end) = Ok _ =>
      let E := fresh "E" in destruct x eqn:E; [|try discriminate H]
  | (if ?x then _ else _) = Ok _ =>
      let E := fresh "E" in destruct x eqn:E; try discriminate H
  end.

Section KeepFacts.
Context `{ext : !Externals}.

Lemma new_GlobalVariable_globals t c l init name before m g m' :
  new_GlobalVariable t c l init name before m = (g, m') ->
  In g (mod_globals m') /\
  (forall x, In x (mod_globals m) -> In x (mod_globals m')) /\
  mod_functions m' = mod_functions m /\
  mod_struct_types m' = mod_struct_types m /\
  mod_triple m' = mod_triple m /\
  gv_id g = fresh_global m /\ gv_name g = name /\ gv_value_type g = t /\
  gv_constant g = c /\ gv_linkage g = l /\ gv_init g = Some init.
Proof.
  unfold new_GlobalVariable. intros [= <- <-]. cbn.
  assert (Hins : forall h x l0,
             In x (insert_global_before h
                     {| gv_id := fresh_global m; gv_name := name; gv_value_type := t;
                        gv_constant := c; gv_linkage := l; gv_init := Some init |} l0) <->
             x = {| gv_id := fresh_global m; gv_name := name; gv_value_type := t;
                    gv_constant := c; gv_linkage := l; gv_init := Some init |} \/ In x l0).
  { intros h x l0. induction l0 as [|y l0 IH]; cbn.
    - intuition.
    - destruct (Nat.eqb (gv_id y) h); cbn; [intuition|]. rewrite IH. intuition. }
  destruct before as [b|].
  - repeat split; auto.
    + apply Hins. now left.
    + intros x Hx. apply Hins. now right.
  - repeat split; auto.
    + apply in_or_app. right. now left.
    + intros x Hx. apply in_or_app. now left.
Qed.

Lemma getOrInsertFunction_globals name fty m v m' :
  getOrInsertFunction name fty m = (v, m') ->
  mod_globals m' = mod_globals m /\
  mod_struct_types m' = mod_struct_types m /\
  mod_triple m' = mod_triple m.
Proof.
  unfold getOrInsertFunction. destruct (getNamedValue name m) as [F|].
  - destruct (ty_eqb _ _); intros [= <- <-]; auto.
  - intros [= <- <-]. auto.
Qed.

Ltac keep_globals :=
  repeat match goal with
    | E : new_GlobalVariable _ _ _ _ _ _ _ = _ |- _ =>
        apply new_GlobalVariable_globals in E; destruct E as (_ & ? & _)
    | E : getOrInsertFunction _ _ _ = _ |- _ =>
        apply getOrInsertFunction_globals in E; destruct E as (? & _)
    end.

Lemma create_callsite_global_globals function landing n p g p' :
  create_callsite_global function landing n p = Ok (g, p') ->
  forall x, In x (mod_globals (m_module p)) -> In x (mod_globals (m_module p')).
Proof.
  unfold create_callsite_global. intros H. repeat step_ok H.
  injection H as <- <-. cbn. keep_globals. eauto.
Qed.

Lemma decorate_call_globals caller callInst callsite p p' :
  decorate_call caller callInst callsite p = Ok p' ->
  mod_globals (m_module p') = mod_globals (m_module p).
Proof.
  unfold decorate_call. intros H. repeat step_ok H.
  injection H as <-. cbn. keep_globals. congruence.
Qed.

Lemma decorate_calls_globals collected caller landing p p' :
  decorate_calls collected caller landing p = Ok p' ->
  forall x, In x (mod_globals (m_module p)) -> In x (mod_globals (m_module p')).
Proof.
  revert p. induction collected as [|[n r] rest IH]; intros p H; cbn in H.
  - now injection H as <-.
  - repeat step_ok H. intros x Hx. apply (IH _ H).
    rewrite (decorate_call_globals _ _ _ _ _ E1).
    now apply (create_callsite_global_globals _ _ _ _ _ _ E).
Qed.

Lemma create_landing_global_globals function p g p' :
  create_landing_global function p = Ok (g, p') ->
  forall x, In x (mod_globals (m_module p)) -> In x (mod_globals (m_module p')).
Proof.
  unfold create_landing_global. intros H. repeat step_ok H.
  injection H as <- <-. cbn. keep_globals. eauto 6.
Qed.

Lemma add_landing_update_globals function landing p caller p' :
  add_landing_update function landing p = Ok (caller, p') ->
  mod_globals (m_module p') = mod_globals (m_module p).
Proof.
  unfold add_landing_update. intros H. repeat step_ok H.
  injection H as <- <-. cbn. keep_globals. congruence.
Qed.

End KeepFacts.

(** ** The embedded snapshot *)

Section SnapshotFacts.
Context `{ext : !Externals}.

Lemma collect_globals_module (p : DecoratePass) :
  m_module (snd (collect_globals p)) = stripped (m_module p).
Proof. reflexivity. Qed.

Lemma stripped_same_code (m : Module) :
  mod_triple (stripped m) = mod_triple m /\
  mod_struct_types (stripped m) = mod_struct_types m /\
  mod_globals (stripped m) = mod_globals m /\
  map fn_id (mod_functions (stripped m)) = map fn_id (mod_functions m) /\
  map fn_name (mod_functions (stripped m)) = map fn_name (mod_functions m) /\
  map fn_blocks (mod_functions (stripped m)) = map fn_blocks (mod_functions m).
Proof.
  unfold stripped. cbn. rewrite !map_map. repeat split; apply map_ext; intros f;
    unfold strip_markers; destruct (isIntrinsic f), (isDeclaration f); reflexivity.
Qed.

Lemma fresh_global_not_in (m : Module) (g : GlobalVariable) :
  gv_id g = fresh_global m -> ~ In g (mod_globals m).
Proof.
  unfold fresh_global. intros E Hin.
  assert (Hle : gv_id g <= list_max (map gv_id (mod_globals m))).
  { assert (Hall := proj1 (list_max_le (map gv_id (mod_globals m)) _) (le_n _)).
    rewrite List.Forall_forall in Hall. apply Hall. now apply in_map. }
  lia.
Qed.

(** [create_self] embeds the bytes written for the module as
    [collect_globals] leaves it, and a descriptor that points to them. *)
Lemma create_self_snapshot (p p' : DecoratePass) :
  create_self p = Ok p' ->
  exists bitcode_global self table_pointer table_size,
    In bitcode_global (mod_globals (m_module p')) /\
    ~ In bitcode_global (mod_globals (stripped (m_module p))) /\
    gv_name bitcode_global = "__drti_bitcode" /\
    gv_constant bitcode_global = true /\
    gv_linkage bitcode_global = InternalLinkage /\
    gv_init bitcode_global = Some (VDataArray (writeModule (stripped (m_module p)))) /\
    In self (mod_globals (m_module p')) /\
    m_reflect_global p' = Some self /\
    gv_name self = "__drti_self" /\
    gv_init self =
      Some (VConstStruct (gv_value_type self)
              [ConstantExpr_getBitCast (global_value bitcode_global) (TPtr (TInt 8));
               ConstantInt_get 64
                 (Z.of_nat (length (writeModule (stripped (m_module p)))));
               table_pointer; table_size]).
Proof.
  unfold create_self. intros H.
  destruct (collect_globals p) as [globals p1] eqn:Ecg.
  assert (Hm : m_module p1 = stripped (m_module p)).
  { rewrite <- collect_globals_module. now rewrite Ecg. }
  unfold raw_bitcode in H. rewrite Hm in H. repeat step_ok H.
  injection H as <-. cbn.
  repeat match goal with
    | E : new_GlobalVariable _ _ _ _ _ _ _ = _ |- _ =>
        apply new_GlobalVariable_globals in E;
        destruct E as (? & ? & _ & _ & _ & ? & ? & ? & ? & ? & ?)
    end.
  eexists g, g1, _, _. repeat split; eauto.
  - now apply fresh_global_not_in.
  - match goal with
    | Ht : gv_value_type g1 = _, Hi : gv_init g1 = _ |- _ => rewrite Hi, Ht
    end.
    reflexivity.
Qed.

Lemma add_landing_globals_body_globals function p p' :
  add_landing_globals_body function p = Ok p' ->
  forall x, In x (mod_globals (m_module p)) -> In x (mod_globals (m_module p')).
Proof.
  unfold add_landing_globals_body. intros H. repeat step_ok H.
  - intros x Hx. apply (decorate_calls_globals _ _ _ _ _ H).
    match goal with
    | E : add_landing_update _ _ _ = _ |- _ =>
        rewrite (add_landing_update_globals _ _ _ _ _ E)
    end.
    match goal with
    | E : create_landing_global _ _ = _ |- _ =>
        now apply (create_landing_global_globals _ _ _ _ E)
    end.
  - now injection H as <-.
Qed.

Lemma for_each_function_globals functions p p' :
  for_each_function functions p = Ok p' ->
  forall x, In x (mod_globals (m_module p)) -> In x (mod_globals (m_module p')).
Proof.
  revert p. induction functions as [|f rest IH]; intros p H; cbn in H.
  - now injection H as <-.
  - step_ok H. intros x Hx. apply (IH _ H).
    now apply (add_landing_globals_body_globals f p).
Qed.

(** C2.  When the pass decorates a module, the bytes it embeds as
    [__drti_bitcode] (and that [__drti_self] points to) are the bytes
    written for the module as the linker left it with the [optnone] and
    [noinline] markers of its definitions removed: the same globals and the
    same function bodies as the linked module, none of the globals, blocks
    or instructions the pass adds afterwards. *)
Theorem snapshot_is_the_linked_stripped_module :
  forall (env : Config.Env) (module support linked module' : Module),
    mod_triple module = "x86_64-unknown-linux-gnu" ->
    parse_support_bitcode = inr support ->
    linkInModule module support = (false, linked) ->
    InlineHelpers_ok (InlineHelpers_new linked) = true ->
    snd (runOnModule env module) = Ok (true, module') ->
    (exists bitcode_global self table_pointer table_size,
       In bitcode_global (mod_globals module') /\
       ~ In bitcode_global (mod_globals (stripped linked)) /\
       gv_name bitcode_global = "__drti_bitcode" /\
       gv_init bitcode_global = Some (VDataArray (writeModule (stripped linked))) /\
       In self (mod_globals module') /\
       gv_name self = "__drti_self" /\
       gv_init self =
         Some (VConstStruct (gv_value_type self)
                 [ConstantExpr_getBitCast (global_value bitcode_global) (TPtr (TInt 8));
                  ConstantInt_get 64 (Z.of_nat (length (writeModule (stripped linked))));
                  table_pointer; table_size])) /\
    mod_globals (stripped linked) = mod_globals linked /\
    map fn_id (mod_functions (stripped linked)) = map fn_id (mod_functions linked) /\
    map fn_blocks (mod_functions (stripped linked)) = map fn_blocks (mod_functions linked).
Proof.
  intros env module support linked module' Htriple Hparse Hlink Hok Hrun.
  split; [|pose proof (stripped_same_code linked); tauto].
  unfold runOnModule in Hrun. rewrite Htriple in Hrun. cbn in Hrun.
  destruct (Config.targets_from_environment env) as [names| |]; cbn in Hrun;
    try discriminate Hrun.
  destruct (find_target_functions (DecoratePass_new names module)) as [found d] eqn:Ef.
  assert (Hd : m_module d = module).
  { pose proof (find_target_functions_module (DecoratePass_new names module)) as Hr.
    now rewrite Ef in Hr. }
  destruct found; cbn in Hrun; [|discriminate Hrun].
  unfold add_helpers in Hrun. rewrite Hparse, Hd, Hlink in Hrun. cbn in Hrun.
  unfold lookup_helpers in Hrun. cbn in Hrun. rewrite Hok in Hrun. cbn in Hrun.
  repeat step_ok Hrun. injection Hrun as <-.
  match goal with
  | E : create_self _ = Ok _ |- _ =>
      apply create_self_snapshot in E;
      destruct E as (b & s & tp & ts & Hb & Hnew & Hbn & _ & _ & Hbi & Hs & _ & Hsn & Hsi)
  end.
  cbn in Hnew, Hbi, Hsi.
  exists b, s, tp, ts. cbn.
  match goal with
  | E : add_landing_globals _ = Ok _ |- _ =>
      pose proof (for_each_function_globals _ _ _ E) as Hkeep
  end.
  repeat split; auto.
Qed.

End SnapshotFacts.

(** ** Handles stay valid while the pass edits the module *)

Lemma list_max_In (l : list nat) (x : nat) : In x l -> x <= list_max l.
Proof.
  intros H. assert (Hall := proj1 (list_max_le l _) (le_n _)).
  rewrite List.Forall_forall in Hall. now apply Hall.
Qed.

Lemma find_function_some h m f :
  find_function h m = Some f -> In f (mod_functions m) /\ fn_id f = h.
Proof.
  unfold find_function. intros H. apply find_some in H as [H1 H2].
  now apply Nat.eqb_eq in H2.
Qed.

Lemma find_global_some h m g :
  find_global h m = Some g -> In g (mod_globals m) /\ gv_id g = h.
Proof.
  unfold find_global. intros H. apply find_some in H as [H1 H2].
  now apply Nat.eqb_eq in H2.
Qed.

Lemma find_app_some {A} (f : A -> bool) (l1 l2 : list A) (x : A) :
  find f l1 = Some x -> find f (l1 ++ l2) = Some x.
Proof.
  induction l1 as [|a l1 IH]; cbn; [discriminate|]. now destruct (f a).
Qed.

Lemma find_app_none {A} (f : A -> bool) (l1 l2 : list A) :
  find f l1 = None -> find f (l1 ++ l2) = find f l2.
Proof.
  induction l1 as [|a l1 IH]; cbn; [reflexivity|]. destruct (f a); [discriminate|exact IH].
Qed.

Lemma find_none_iff {A} (f : A -> bool) (l : list A) :
  find f l = None <-> forall x, In x l -> f x = false.
Proof.
  split.
  - intros H x Hx. exact (find_none f l H x Hx).
  - induction l as [|a l IH]; cbn; [reflexivity|]. intros H.
    rewrite (H a (or_introl eq_refl)). apply IH. intros x Hx. apply H. now right.
Qed.

(** With distinct handles, a member is what its handle finds. *)
Lemma find_function_In m f :
  List.NoDup (map fn_id (mod_functions m)) ->
  In f (mod_functions m) -> find_function (fn_id f) m = Some f.
Proof.
  unfold find_function. intros Hnd Hin.
  destruct (find _ _) as [f'|] eqn:E.
  - apply find_some in E as [Hin' E]. apply Nat.eqb_eq in E. f_equal.
    exact (NoDup_map_eq fn_id _ _ _ Hnd Hin' Hin E).
  - apply (find_none _ _ E) in Hin. now rewrite Nat.eqb_refl in Hin.
Qed.

Lemma find_global_In m g :
  List.NoDup (map gv_id (mod_globals m)) ->
  In g (mod_globals m) -> find_global (gv_id g) m = Some g.
Proof.
  unfold find_global. intros Hnd Hin.
  destruct (find _ _) as [g'|] eqn:E.
  - apply find_some in E as [Hin' E]. apply Nat.eqb_eq in E. f_equal.
    exact (NoDup_map_eq gv_id _ _ _ Hnd Hin' Hin E).
  - apply (find_none _ _ E) in Hin. now rewrite Nat.eqb_refl in Hin.
Qed.

Lemma kept_refl m : kept m m.
Proof. unfold kept. repeat split; eauto. Qed.

Lemma kept_trans m1 m2 m3 : kept m1 m2 -> kept m2 m3 -> kept m1 m3.
Proof.
  intros (S1 & G1 & F1 & H1) (S2 & G2 & F2 & H2). unfold kept. repeat split.
  - congruence.
  - auto.
  - auto.
  - intros h f Hf. destruct (H1 h f Hf) as (f' & Hf' & N & T).
    destruct (H2 h f' Hf') as (f'' & Hf'' & N' & T').
    exists f''. repeat split; congruence.
Qed.

Lemma callee_name_kept m m' v name :
  kept m m' -> Exec.callee_name m v = Some name -> Exec.callee_name m' v = Some name.
Proof.
  intros (_ & _ & HG & HF). induction v; cbn; try discriminate; auto.
  - destruct (find_function f m) as [fn|] eqn:E; [|discriminate].
    destruct (HF _ _ E) as (fn' & -> & N & _). cbn. congruence.
  - destruct (find_global g m) as [gv|] eqn:E; [|discriminate].
    now rewrite (HG _ _ E).
Qed.

Lemma struct_element_type_kept m m' t idx :
  kept m m' -> struct_element_type m' t idx = struct_element_type m t idx.
Proof. intros (S & _). unfold struct_element_type. now rewrite S. Qed.

Lemma find_insert_global_before h hb g l x :
  Nat.eqb (gv_id g) h = false ->
  find (fun y => Nat.eqb (gv_id y) h) l = Some x ->
  find (fun y => Nat.eqb (gv_id y) h) (insert_global_before hb g l) = Some x.
Proof.
  intros Hne. induction l as [|y ys IH]; cbn; [discriminate|].
  destruct (Nat.eqb (gv_id y) hb); cbn; rewrite ?Hne; [auto|].
  destruct (Nat.eqb (gv_id y) h); auto.
Qed.

Lemma new_GlobalVariable_kept t c l init name before m g m' :
  new_GlobalVariable t c l init name before m = (g, m') -> kept m m'.
Proof.
  intros H. pose proof (new_GlobalVariable_globals _ _ _ _ _ _ _ _ _ H)
    as (_ & Hk & Hf & Hs & _ & Hid & _).
  unfold kept. repeat split; auto.
  - intros h g0 Hg0. apply find_global_some in Hg0 as Hin. destruct Hin as [Hin Hh].
    assert (Hne : Nat.eqb (gv_id g) h = false).
    { apply Nat.eqb_neq. rewrite Hid. unfold fresh_global.
      pose proof (list_max_In _ _ (in_map gv_id _ _ Hin)). lia. }
    unfold new_GlobalVariable in H. injection H as Hg <-.
    unfold find_global in *. cbn. rewrite Hg. destruct before as [b|].
    + now apply find_insert_global_before.
    + now apply find_app_some.
  - intros h f Hf0. exists f. unfold find_function in *. now rewrite Hf.
Qed.

Lemma getOrInsertFunction_kept name fty m v m' :
  getOrInsertFunction name fty m = (v, m') -> kept m m'.
Proof.
  unfold getOrInsertFunction. destruct (getNamedValue name m) as [F|].
  - destruct (ty_eqb _ _); intros [= <- <-]; apply kept_refl.
  - intros [= <- <-]. unfold kept. cbn. repeat split; auto.
    intros h f Hf. exists f. unfold find_function in *. cbn.
    split; [now apply find_app_some | auto].
Qed.

Lemma find_function_update_same h g m f :
  find_function h m = Some f ->
  fn_id (g f) = h ->
  find_function h (update_function h g m) = Some (g f).
Proof.
  unfold find_function, update_function. cbn. intros Hf Hg.
  induction (mod_functions m) as [|x xs IH]; cbn in *; [discriminate|].
  destruct (Nat.eqb (fn_id x) h) eqn:E.
  - injection Hf as ->. now rewrite Hg, Nat.eqb_refl.
  - rewrite E. now apply IH.
Qed.

Lemma find_function_update_other h0 h g m :
  h0 <> h ->
  (forall f, fn_id f = h -> fn_id (g f) = h) ->
  find_function h0 (update_function h g m) = find_function h0 m.
Proof.
  unfold find_function, update_function. cbn. intros Hne Hg.
  induction (mod_functions m) as [|x xs IH]; cbn; [reflexivity|].
  destruct (Nat.eqb (fn_id x) h) eqn:E.
  - apply Nat.eqb_eq in E. rewrite (Hg x E), E.
    replace (Nat.eqb h h0) with false by (symmetry; apply Nat.eqb_neq; lia).
    exact IH.
  - destruct (Nat.eqb (fn_id x) h0); [reflexivity|exact IH].
Qed.

(** Replacing the function behind a handle by an edited copy of it. *)
Lemma update_function_kept h fl m f :
  find_function h m = Some f ->
  fn_id fl = h -> fn_name fl = fn_name f -> fn_type fl = fn_type f ->
  kept m (update_function h (fun _ => fl) m).
Proof.
  intros Hf Hid Hname Htype. unfold kept. repeat split; auto.
  intros h0 f0 Hf0. destruct (Nat.eq_dec h0 h) as [->|Hne].
  - rewrite (find_function_update_same h (fun _ => fl) m f Hf Hid).
    exists fl. split; [reflexivity|]. rewrite Hf in Hf0. injection Hf0 as <-. auto.
  - rewrite find_function_update_other by auto. eauto.
Qed.

(** ** Landing instrumentation: the code it arrives at *)

Arguments fresh_inst : simpl never.
Arguments fresh_block : simpl never.
Arguments fresh_global : simpl never.
Arguments fresh_function : simpl never.

Lemma first_index_allocas (allocas : list Instruction) (first : Instruction)
    (rest : list Instruction) :
  Forall (fun i => is_alloca i = true) allocas ->
  is_alloca first = false ->
  first_index (fun i => negb (is_alloca i)) (allocas ++ first :: rest) =
  Some (length allocas).
Proof.
  intros Hall Hfirst. induction Hall as [|a l Ha Hl IH]; cbn.
  - now rewrite Hfirst.
  - now rewrite Ha, IH.
Qed.

Lemma replacePhiUsesWith_ids (Old New : ptr) (l : list Instruction) :
  map inst_id (replacePhiUsesWith Old New l) = map inst_id l.
Proof.
  induction l as [|i l IH]; cbn; [reflexivity|].
  destruct (inst_op i); cbn; try reflexivity. now rewrite IH.
Qed.

Lemma replacePhiUsesWith_not_phi (Old New : ptr) (i : Instruction) (l : list Instruction) :
  is_phi i = false -> replacePhiUsesWith Old New (i :: l) = i :: l.
Proof.
  unfold is_phi. cbn. now destruct (inst_op i).
Qed.

Lemma is_alloca_not_phi (i : Instruction) : is_alloca i = true -> is_phi i = false.
Proof. unfold is_alloca, is_phi. now destruct (inst_op i). Qed.

Lemma patch_phis_id this New TI b : bb_id (patch_phis this New TI b) = bb_id b.
Proof. unfold patch_phis. now destruct (existsb _ _). Qed.

Lemma patch_phis_ids this New TI b :
  map inst_id (bb_insts (patch_phis this New TI b)) = map inst_id (bb_insts b).
Proof.
  unfold patch_phis. destruct (existsb _ _); [|reflexivity].
  apply replacePhiUsesWith_ids.
Qed.

Lemma fresh_inst_bound (f : Function) (i : Instruction) :
  In i (fn_insts f) -> inst_id i < fresh_inst f.
Proof.
  intros H. unfold fresh_inst.
  pose proof (list_max_In _ _ (in_map inst_id _ _ H)). lia.
Qed.


Lemma fresh_inst_same_ids (f f' : Function) :
  map inst_id (fn_insts f') = map inst_id (fn_insts f) -> fresh_inst f' = fresh_inst f.
Proof. unfold fresh_inst. now intros ->. Qed.

(** [splitBasicBlock] on the entry block, at its first instruction that is
    no [alloca]. *)
Lemma splitBasicBlock_entry (fn : Function) (entry : BasicBlock) (others : list BasicBlock)
    (allocas : list Instruction) (first : Instruction) (rest : list Instruction)
    (TI : Instruction) (name : string) :
  fn_blocks fn = entry :: others ->
  bb_insts entry = allocas ++ first :: rest ->
  Forall (fun i => is_alloca i = true) allocas ->
  getTerminator entry = Some TI ->
  splitBasicBlock entry (length allocas) name fn =
  Ok (fresh_block fn,
      set_blocks
        (set_insts (allocas ++ [mk_inst (fresh_inst fn) "" TVoid (Br (fresh_block fn))]) entry
         :: patch_phis (bb_id entry) (fresh_block fn) TI
              {| bb_id := fresh_block fn; bb_name := name; bb_insts := first :: rest |}
         :: map (patch_phis (bb_id entry) (fresh_block fn) TI) others) fn).
Proof.
  intros Hblocks Hinsts Hall HTI. unfold splitBasicBlock. rewrite HTI.
  replace (length allocas <? length (bb_insts entry)) with true
    by (symmetry; apply Nat.ltb_lt; rewrite Hinsts, length_app; cbn; lia).
  cbn [negb]. rewrite Hblocks. cbn [split_at_block]. rewrite Nat.eqb_refl.
  rewrite Hinsts, take_app_length, drop_app_length.
  change (fun b : BasicBlock =>
            if existsb (Nat.eqb (bb_id b)) (successors TI)
            then set_insts (replacePhiUsesWith (bb_id entry) (fresh_block fn) (bb_insts b)) b
            else b)
    with (patch_phis (bb_id entry) (fresh_block fn) TI).
  cbn [map]. do 3 f_equal.
  unfold patch_phis. destruct (existsb _ _); [|reflexivity].
  unfold set_insts. cbn [bb_insts bb_id bb_name].
  destruct Hall as [|a l Ha Hl]; cbn [app].
  - reflexivity.
  - rewrite replacePhiUsesWith_not_phi by now apply is_alloca_not_phi.
    reflexivity.
Qed.

Lemma map_update_miss {A} (key : A -> nat) (h : nat) (g : A -> A) (l : list A) :
  Forall (fun x => key x <> h) l ->
  map (fun x => if Nat.eqb (key x) h then g x else x) l = l.
Proof.
  intros H. induction H as [|x l Hx Hl IH]; cbn; [reflexivity|].
  rewrite IH. apply Nat.eqb_neq in Hx. now rewrite Hx.
Qed.

Lemma update_block_at (h : ptr) (g : list Instruction -> list Instruction) (f : Function)
    (pre : list BasicBlock) (b : BasicBlock) (post : list BasicBlock) :
  fn_blocks f = pre ++ b :: post ->
  bb_id b = h ->
  Forall (fun x => bb_id x <> h) pre ->
  Forall (fun x => bb_id x <> h) post ->
  update_block h g f = set_blocks (pre ++ set_insts (g (bb_insts b)) b :: post) f.
Proof.
  intros Hb Hh Hpre Hpost. unfold update_block. rewrite Hb, map_app. cbn [map].
  rewrite Hh, Nat.eqb_refl.
  rewrite (map_update_miss bb_id h (fun x => set_insts (g (bb_insts x)) x) pre Hpre).
  now rewrite (map_update_miss bb_id h (fun x => set_insts (g (bb_insts x)) x) post Hpost).
Qed.

Lemma update_inst_at (id : ptr) (g : Instruction -> Instruction) (f : Function)
    (pre : list BasicBlock) (b : BasicBlock) (post : list BasicBlock)
    (before : list Instruction) (i : Instruction) (after : list Instruction) :
  fn_blocks f = pre ++ b :: post ->
  bb_insts b = before ++ i :: after ->
  inst_id i = id ->
  Forall (fun x => Forall (fun j => inst_id j <> id) (bb_insts x)) pre ->
  Forall (fun x => Forall (fun j => inst_id j <> id) (bb_insts x)) post ->
  Forall (fun j => inst_id j <> id) before ->
  Forall (fun j => inst_id j <> id) after ->
  update_inst id g f = set_blocks (pre ++ set_insts (before ++ g i :: after) b :: post) f.
Proof.
  intros Hb Hi Hid Hpre Hpost Hbefore Hafter. unfold update_inst. f_equal.
  assert (Hmiss : forall l : list BasicBlock,
             Forall (fun x => Forall (fun j => inst_id j <> id) (bb_insts x)) l ->
             map (fun x => set_insts (map (fun j => if Nat.eqb (inst_id j) id then g j else j)
                                          (bb_insts x)) x) l = l).
  { intros l Hl. induction Hl as [|x l Hx Hl IH]; cbn; [reflexivity|].
    rewrite IH, (map_update_miss inst_id id g _ Hx). now destruct x. }
  rewrite Hb, map_app. cbn [map]. rewrite (Hmiss pre Hpre), (Hmiss post Hpost).
  rewrite Hi, map_app. cbn [map]. rewrite Hid, Nat.eqb_refl.
  now rewrite (map_update_miss inst_id id g before Hbefore),
    (map_update_miss inst_id id g after Hafter).
Qed.

(** The same, for a function laid out as two blocks, a run of blocks that
    are not concerned, and two more blocks. *)
Lemma update_block_shape (h : ptr) (g : list Instruction -> list Instruction) (f : Function)
    (A B : BasicBlock) (O : list BasicBlock) (C D : BasicBlock) :
  Forall (fun x => bb_id x <> h) O ->
  update_block h g (set_blocks (A :: B :: O ++ [C; D]) f) =
  set_blocks (upd_block h g A :: upd_block h g B :: O
              ++ [upd_block h g C; upd_block h g D]) f.
Proof.
  intros HO. unfold update_block. cbn [fn_blocks set_blocks map]. rewrite map_app.
  cbn [map]. now rewrite (map_update_miss bb_id h (fun x => set_insts (g (bb_insts x)) x) O HO).
Qed.

Lemma update_inst_shape (id : ptr) (g : Instruction -> Instruction) (f : Function)
    (A B : BasicBlock) (O : list BasicBlock) (C D : BasicBlock) :
  Forall (fun x => Forall (fun j => inst_id j <> id) (bb_insts x)) O ->
  update_inst id g (set_blocks (A :: B :: O ++ [C; D]) f) =
  set_blocks (upd_insts id g A :: upd_insts id g B :: O
              ++ [upd_insts id g C; upd_insts id g D]) f.
Proof.
  intros HO. unfold update_inst. cbn [fn_blocks set_blocks map]. rewrite map_app.
  cbn [map].
  assert (Hmiss : map (fun x => set_insts
                                  (map (fun j => if Nat.eqb (inst_id j) id then g j else j)
                                       (bb_insts x)) x) O = O).
  { induction HO as [|x l Hx Hl IH]; cbn; [reflexivity|].
    rewrite IH, (map_update_miss inst_id id g _ Hx). now destruct x. }
  now rewrite Hmiss.
Qed.

Lemma set_blocks_set_blocks (a b : list BasicBlock) (f : Function) :
  set_blocks a (set_blocks b f) = set_blocks a f.
Proof. reflexivity. Qed.

Lemma fresh_block_set_blocks (bs : list BasicBlock) (f : Function) :
  fresh_block (set_blocks bs f) = S (list_max (map bb_id bs)).
Proof. reflexivity. Qed.

Lemma Forall_ids_lt (l : list Instruction) (n : nat) :
  (forall x, In x (map inst_id l) -> x < n) -> Forall (fun j => inst_id j < n) l.
Proof.
  intros H. apply List.Forall_forall. intros j Hj. apply H. now apply in_map.
Qed.

Lemma fn_insts_In (f : Function) (b : BasicBlock) (i : Instruction) :
  In b (fn_blocks f) -> In i (bb_insts b) -> In i (fn_insts f).
Proof.
  intros Hb Hi. unfold fn_insts. apply in_concat. exists (bb_insts b).
  split; [now apply in_map | exact Hi].
Qed.

Ltac decide_eqb :=
  repeat match goal with
    | |- context [Nat.eqb ?a ?b] =>
        first [ replace (Nat.eqb a b) with true by (symmetry; apply Nat.eqb_eq; lia)
              | replace (Nat.eqb a b) with false by (symmetry; apply Nat.eqb_neq; lia) ]
    end.

Section LandingFacts.
Context `{ext : !Externals}.

Lemma add_landing_update_normal_form function landing p fn entry others
    allocas first rest TI tn landed :
  find_function function (m_module p) = Some fn ->
  fn_blocks fn = entry :: others ->
  bb_insts entry = allocas ++ first :: rest ->
  Forall (fun i => is_alloca i = true) allocas ->
  is_alloca first = false ->
  getTerminator entry = Some TI ->
  List.NoDup (map bb_id (fn_blocks fn)) ->
  inline_field m_drti_treenode_type p = Ok tn ->
  inline_field m_drti_landed p = Ok landed ->
  forall builtinRet m1 drtiCaller m2,
    getOrInsertFunction "llvm.returnaddress" (TFunc (TPtr (TInt 8)) [TInt 32] false)
                        (m_module p) = (builtinRet, m1) ->
    getOrInsertFunction "_drti_caller" (TFunc (TPtr tn) [] false) m1 = (drtiCaller, m2) ->
    add_landing_update function landing p =
    Ok (VInst (landing_phi_id (fresh_inst fn)) (TPtr tn),
        set_module
          (update_function function
             (fun _ => set_blocks (landed_blocks fn entry others allocas (first :: rest) TI
                                     builtinRet drtiCaller tn landed landing) fn)
             m2) p).
Proof.
  intros Hfind Hblocks Hinsts Hall Hfirst HTI Hnd Htn Hlanded builtinRet m1 drtiCaller m2
    Eret Ecaller.
  unfold add_landing_update, get_function. rewrite Hfind. cbn [obind].
  unfold getEntryBlock. rewrite Hblocks. cbn [obind].
  rewrite Hinsts, first_index_allocas by assumption.
  rewrite (splitBasicBlock_entry fn entry others allocas first rest TI "drti_land1")
    by assumption.
  cbn [obind]. unfold BasicBlock_Create. cbn [fn_blocks set_blocks bb_id].
  (* the handles of the blocks *)
  set (e := bb_id entry). set (land1 := fresh_block fn). set (n0 := fresh_inst fn).
  set (patch := patch_phis e land1 TI).
  set (NewB := patch {| bb_id := land1; bb_name := "drti_land1"; bb_insts := first :: rest |}).
  assert (Hids : map bb_id (map patch others) = map bb_id others).
  { rewrite map_map. apply map_ext. intros b. apply patch_phis_id. }
  assert (HNew : bb_id NewB = land1) by apply patch_phis_id.
  assert (Hfb : S (list_max (e :: map bb_id others)) = land1).
  { unfold land1, fresh_block. now rewrite Hblocks. }
  rewrite !set_blocks_set_blocks.
  assert (Hfb1 : fresh_block
                   (set_blocks
                      (set_insts (allocas ++ [mk_inst n0 "" TVoid (Br land1)]) entry
                       :: NewB :: map patch others) fn) = S land1).
  { rewrite fresh_block_set_blocks. cbn [map bb_id set_insts].
    rewrite HNew, Hids. fold e. cbn [list_max fold_right] in *. lia. }
  rewrite !Hfb1.
  assert (Hfb2 : fresh_block
                   (set_blocks
                      ((set_insts (allocas ++ [mk_inst n0 "" TVoid (Br land1)]) entry
                        :: NewB :: map patch others)
                       ++ [{| bb_id := S land1; bb_name := "drti_land2"; bb_insts := [] |}])
                      fn) = S (S land1)).
  { rewrite fresh_block_set_blocks, map_app, list_max_app. cbn [map bb_id set_insts].
    rewrite HNew, Hids. fold e. cbn [list_max fold_right] in *. lia. }
  rewrite !Hfb2.
  (* the handles differ *)
  assert (Hin : forall b, In b (map patch others) -> In (bb_id b) (map bb_id others)).
  { intros b Hb. rewrite <- Hids. now apply in_map. }
  assert (Hlt : e < land1 /\ Forall (fun x => bb_id x < land1) (map patch others)).
  { split.
    - rewrite <- Hfb. cbn [list_max fold_right]. lia.
    - apply List.Forall_forall. intros b Hb. apply Hin in Hb.
      rewrite <- Hfb.
      pose proof (list_max_In (e :: map bb_id others) (bb_id b) (or_intror Hb)). lia. }
  destruct Hlt as [Hlte Hlt].
  assert (Hne : Forall (fun x => bb_id x <> e) (map patch others)).
  { apply List.Forall_forall. intros b Hb. apply Hin in Hb.
    rewrite Hblocks in Hnd. cbn [map] in Hnd. apply List.NoDup_cons_iff in Hnd as [Hnd _].
    intros E. apply Hnd. fold e. now rewrite <- E. }
  assert (Hne1 : Forall (fun x => bb_id x <> land1) (map patch others))
    by (eapply List.Forall_impl; [|exact Hlt]; cbn; intros; lia).
  assert (Hne2 : Forall (fun x => bb_id x <> S land1) (map patch others))
    by (eapply List.Forall_impl; [|exact Hlt]; cbn; intros; lia).
  assert (Hne3 : Forall (fun x => bb_id x <> S (S land1)) (map patch others))
    by (eapply List.Forall_impl; [|exact Hlt]; cbn; intros; lia).
  (* erasing the branch *)
  rewrite (update_block_at e (@removelast Instruction) _ []
             (set_insts (allocas ++ [mk_inst n0 "" TVoid (Br land1)]) entry)
             (NewB :: map patch others
              ++ [{| bb_id := S land1; bb_name := "drti_land2"; bb_insts := [] |};
                  {| bb_id := S (S land1); bb_name := "drti_land3"; bb_insts := [] |}]));
    [ | cbn [fn_blocks set_blocks app]; now rewrite <- !app_assoc
      | reflexivity
      | constructor
      | constructor; [rewrite HNew; lia|];
        apply Forall_app; split; [exact Hne|];
        repeat (constructor; [cbn; lia|]); constructor ].
  cbn [app bb_insts set_insts bb_id bb_name]. rewrite removelast_last.
  rewrite set_blocks_set_blocks.
  change (set_insts allocas (set_insts (allocas ++ [mk_inst n0 "" TVoid (Br land1)]) entry))
    with (set_insts allocas entry).
  set (land2B := {| bb_id := S land1; bb_name := "drti_land2"; bb_insts := [] |}).
  set (land3B := {| bb_id := S (S land1); bb_name := "drti_land3"; bb_insts := [] |}).
  assert (Hn0 : fresh_inst
                  (set_blocks (set_insts allocas entry :: NewB
                               :: map patch others ++ [land2B; land3B]) fn) = n0).
  { apply fresh_inst_same_ids. unfold fn_insts.
    cbn [fn_blocks set_blocks map concat bb_insts set_insts].
    rewrite Hblocks, !map_app, !concat_app. cbn [map concat bb_insts app].
    rewrite Hinsts, !app_nil_r, !map_app, <- !app_assoc. f_equal. f_equal.
    - apply patch_phis_ids.
    - rewrite !concat_map, !map_map. f_equal. apply map_ext. intros b.
      apply patch_phis_ids. }
  rewrite Hn0.
  change (value_type (ConstantInt_get 32 0)) with (TInt 32). rewrite Eret.
  unfold CreateCall, CreatePtrToInt, CreateIntToPtr, CreateCast, CreateICmpEQ, CreatePHI,
    CreateCondBr, CreateBr, CreateGEP, CreateGEP_gen, CreateLoad, SetInsertPoint,
    Insert, builder_at.
  unfold the_use, CreateAnd, isMinusOne, ConstantInt_get.
  cbn [value_type inst_id inst_type is_constant ty_eqb fst snd next_id emitted
       app N.eqb Pos.eqb andb func_ret indexed_type forallb obind].
  change (Z.eqb ((DRTI_RETALIGN - 1) mod 2 ^ Z.of_N 64) (2 ^ Z.of_N 64 - 1))
    with and_folded.
  rewrite Htn. cbn [obind]. rewrite Ecaller, Hlanded. cbn [obind].
  unfold landed_blocks, landing_phi, landing_phi_id, landing_entry_code,
    landing_probe_code, landing_confirmed_code.
  fold e land1 n0 patch NewB.
  (* the handles of the instructions that were there differ from the new ones *)
  assert (Hold : forall b i, In b (fn_blocks fn) -> In i (map inst_id (bb_insts b)) -> i < n0).
  { intros b i Hb Hi. apply in_map_iff in Hi as (j & <- & Hj).
    apply fresh_inst_bound. exact (fn_insts_In fn b j Hb Hj). }
  assert (Hold_a : Forall (fun j => inst_id j < n0) allocas).
  { apply Forall_ids_lt. intros x Hx. apply (Hold entry).
    - rewrite Hblocks. now left.
    - rewrite Hinsts, map_app. apply in_or_app. now left. }
  assert (Hold_n : Forall (fun j => inst_id j < n0) (bb_insts NewB)).
  { apply Forall_ids_lt. intros x Hx. unfold NewB, patch in Hx.
    rewrite patch_phis_ids in Hx. apply (Hold entry).
    - rewrite Hblocks. now left.
    - rewrite Hinsts, map_app. apply in_or_app. now right. }
  assert (Hold_o : Forall (fun x => Forall (fun j => inst_id j < n0) (bb_insts x))
                          (map patch others)).
  { apply List.Forall_forall. intros b Hb. apply in_map_iff in Hb as (b0 & <- & Hb0).
    apply Forall_ids_lt. intros x Hx. unfold patch in Hx. rewrite patch_phis_ids in Hx.
    apply (Hold b0); [rewrite Hblocks; now right | exact Hx]. }
  assert (Hmiss : forall id, n0 <= id ->
             Forall (fun j => inst_id j <> id) allocas /\
             Forall (fun j => inst_id j <> id) (bb_insts NewB) /\
             Forall (fun x => Forall (fun j => inst_id j <> id) (bb_insts x))
                    (map patch others)).
  { intros id Hid. repeat split.
    - eapply List.Forall_impl; [|exact Hold_a]. cbn. intros. lia.
    - eapply List.Forall_impl; [|exact Hold_n]. cbn. intros. lia.
    - eapply List.Forall_impl; [|exact Hold_o]. cbn. intros x Hx.
      eapply List.Forall_impl; [|exact Hx]. cbn. intros. lia. }
  destruct and_folded eqn:Efold; unfold Insert, the_use;
    cbn [value_type inst_id inst_type is_constant ty_eqb fst snd next_id emitted
         app N.eqb Pos.eqb andb func_ret indexed_type forallb obind inst_handle];
    unfold landing_phi_id, mk_inst, probe_index, magic64, ret_align_mask;
    rewrite ?Efold.
  all: subst land2B land3B.
  all: rewrite (update_block_shape e _ _ _ _ _ _ _ Hne);
    unfold upd_block; cbn [bb_id set_insts bb_insts bb_name]; rewrite HNew; fold e;
    decide_eqb.
  all: rewrite (update_block_shape land1 _ _ _ _ _ _ _ Hne1);
    unfold upd_block; cbn [bb_id set_insts bb_insts bb_name]; rewrite HNew; fold e;
    decide_eqb.
  all: rewrite (update_block_shape (S land1) _ _ _ _ _ _ _ Hne2);
    unfold upd_block; cbn [bb_id set_insts bb_insts bb_name]; fold e; decide_eqb.
  all: rewrite (update_block_shape (S (S land1)) _ _ _ _ _ _ _ Hne3);
    unfold upd_block; cbn [bb_id set_insts bb_insts bb_name app]; fold e; decide_eqb.
  all: match goal with
       | |- context [update_inst ?np _ _] =>
           assert (Hle : n0 <= np) by lia;
           destruct (Hmiss np Hle) as (Hm_a & Hm_n & Hm_o);
           do 3 (rewrite (update_inst_shape np _ _ _ _ _ _ _ Hm_o);
                 unfold upd_insts, set_insts; cbn [bb_insts bb_id bb_name];
                 rewrite ?map_app; cbn [map inst_id];
                 rewrite ?(map_update_miss inst_id np _ allocas Hm_a),
                   ?(map_update_miss inst_id np _ (bb_insts NewB) Hm_n);
                 decide_eqb; unfold addIncoming, set_op;
                 cbn [inst_op inst_id inst_name inst_type app])
       end.
  all: rewrite HNew.
  all: replace (bb_name NewB) with "drti_land1"
         by (unfold NewB, patch, patch_phis; now destruct (existsb _ _)).
  all: reflexivity.
Qed.

End LandingFacts.

(** ** Landing instrumentation: how the inserted code runs *)

Lemma fresh_function_not_in (m : Module) (f : Function) :
  In f (mod_functions m) -> Nat.eqb (fn_id f) (fresh_function m) = false.
Proof.
  intros H. apply Nat.eqb_neq. unfold fresh_function.
  pose proof (list_max_In _ _ (in_map fn_id _ _ H)). lia.
Qed.

(** What [getOrInsertFunction] answers stands for a global of the name
    asked for. *)
Lemma getOrInsertFunction_name name fty m v m' :
  List.NoDup (map fn_id (mod_functions m)) ->
  List.NoDup (map gv_id (mod_globals m)) ->
  getOrInsertFunction name fty m = (v, m') ->
  Exec.callee_name m' v = Some name.
Proof.
  intros Hf Hg. unfold getOrInsertFunction, getNamedValue, getFunction.
  destruct (find (fun f => String.eqb (fn_name f) name) (mod_functions m)) as [f|] eqn:Ef.
  - apply find_some in Ef as [Hin Hn]. apply String.eqb_eq in Hn.
    assert (Hc : Exec.callee_name m (function_value f) = Some name).
    { cbn. rewrite (find_function_In m f Hf Hin). cbn. now rewrite Hn. }
    destruct (ty_eqb _ _); intros [= <- <-]; exact Hc.
  - destruct (find (fun g => String.eqb (gv_name g) name) (mod_globals m)) as [g|] eqn:Eg.
    + apply find_some in Eg as [Hin Hn]. apply String.eqb_eq in Hn.
      assert (Hc : Exec.callee_name m (global_value g) = Some name).
      { cbn. rewrite (find_global_In m g Hg Hin). cbn. now rewrite Hn. }
      destruct (ty_eqb _ _); intros [= <- <-]; exact Hc.
    + intros [= <- <-]. cbn. unfold find_function. cbn.
      rewrite find_app_none.
      * cbn. now rewrite Nat.eqb_refl.
      * apply find_none_iff. intros f Hin. now apply fresh_function_not_in.
Qed.

Lemma getOrInsertFunction_NoDup name fty m v m' :
  List.NoDup (map fn_id (mod_functions m)) ->
  getOrInsertFunction name fty m = (v, m') ->
  List.NoDup (map fn_id (mod_functions m')) /\ mod_globals m' = mod_globals m.
Proof.
  intros Hf. unfold getOrInsertFunction. destruct (getNamedValue name m) as [F|].
  - destruct (ty_eqb _ _); intros [= <- <-]; auto.
  - intros [= <- <-]. cbn. split; [|reflexivity].
    rewrite map_app. cbn. apply List.NoDup_app; auto.
    + apply List.NoDup_cons; [intros []|apply List.NoDup_nil].
    + intros x Hx [<-|[]]. unfold fresh_function in Hx.
      apply list_max_In in Hx. lia.
Qed.

Section LandingRuns.
Context `{ext : !Externals}.
Variable w : Exec.World.
Variable M : Module.
Variables n0 e land1 : ptr.
Variables builtinRet drtiCaller : value.
Variable tn : ty.
Variable landed : Function.
Variable landing : GlobalVariable.

Hypothesis Hret_name : Exec.callee_name M builtinRet = Some "llvm.returnaddress".
Hypothesis Hcaller_name : Exec.callee_name M drtiCaller = Some "_drti_caller".
Hypothesis Hlanded_name : Exec.callee_name M (function_value landed) = Some "_drti_landed".






End LandingRuns.

Section LandingTheorem.
Context `{ext : !Externals}.




End LandingTheorem.

(** ** Call decoration: what it does to the instructions of a function *)

Section DecorateInsts.
Variable id : ptr.
Variable code : list Instruction.
Variable newTarget : value.
Hypothesis Hcode : Forall (fun j => inst_id j <> id) code.

Local Abbreviation T := (decorate_insts id code newTarget).
Local Abbreviation decorated i :=
  (setTailCallKind_if_CallInst TCK_NoTail (setCalledOperand newTarget i)).

Lemma decorate_insts_miss (l : list Instruction) :
  Forall (fun j => inst_id j <> id) l -> T l = l.
Proof.
  intros H. unfold decorate_insts.
  assert (Hi : insert_before id code l = l).
  { induction H as [|j l Hj Hl IH]; cbn; [reflexivity|].
    apply Nat.eqb_neq in Hj. now rewrite Hj, IH. }
  rewrite Hi, (map_update_miss inst_id id _ l H).
  now rewrite (map_update_miss inst_id id _ l H).
Qed.

Lemma decorate_insts_app_l (l1 l2 : list Instruction) :
  Forall (fun j => inst_id j <> id) l1 -> T (l1 ++ l2) = l1 ++ T l2.
Proof.
  intros H. unfold decorate_insts.
  assert (Hi : insert_before id code (l1 ++ l2) = l1 ++ insert_before id code l2).
  { induction H as [|j l Hj Hl IH]; cbn; [reflexivity|].
    apply Nat.eqb_neq in Hj. now rewrite Hj, IH. }
  rewrite Hi, !map_app, (map_update_miss inst_id id _ l1 H).
  now rewrite (map_update_miss inst_id id _ l1 H).
Qed.

Lemma decorate_insts_hit (i : Instruction) (l : list Instruction) :
  inst_id i = id ->
  Forall (fun j => inst_id j <> id) l ->
  T (i :: l) = code ++ decorated i :: l.
Proof.
  intros Hi Hl. unfold decorate_insts. cbn [insert_before]. rewrite Hi, Nat.eqb_refl.
  rewrite !map_app. cbn [map]. rewrite Hi, Nat.eqb_refl.
  replace (inst_id (setCalledOperand newTarget i)) with id by (now rewrite <- Hi).
  rewrite Nat.eqb_refl.
  rewrite (map_update_miss inst_id id _ code Hcode), (map_update_miss inst_id id _ l Hl).
  rewrite (map_update_miss inst_id id _ code Hcode).
  now rewrite (map_update_miss inst_id id _ l Hl).
Qed.

(** A run of instructions that does not hold the handle stays in one
    piece. *)
Lemma decorate_insts_segment (x s y : list Instruction) :
  Forall (fun j => inst_id j <> id) s ->
  exists x' y', T (x ++ s ++ y) = x' ++ s ++ y'.
Proof.
  intros Hs. unfold decorate_insts.
  assert (Hins : exists x' y', insert_before id code (x ++ s ++ y) = x' ++ s ++ y').
  { induction x as [|j x IH]; cbn [app].
    - exists []. clear -Hs. induction Hs as [|j s Hj Hs IH]; cbn [app].
      + eexists. reflexivity.
      + destruct IH as (y' & IH). cbn [insert_before].
        apply Nat.eqb_neq in Hj. rewrite Hj. cbn in IH. rewrite IH. now exists y'.
    - cbn [insert_before]. destruct (Nat.eqb (inst_id j) id).
      + exists (code ++ j :: x), y. now rewrite <- app_assoc.
      + destruct IH as (x' & y' & ->). now exists (j :: x'), y'. }
  destruct Hins as (x' & y' & ->). rewrite !map_app.
  rewrite (map_update_miss inst_id id _ s Hs), (map_update_miss inst_id id _ s Hs).
  eauto.
Qed.

(** Over the blocks of a function with distinct instruction handles. *)
Lemma decorate_insts_blocks (LL : list (list Instruction)) (i : Instruction) :
  List.NoDup (map inst_id (concat LL)) ->
  In i (concat LL) ->
  inst_id i = id ->
  exists LL1 before after LL2 P Q,
    LL = LL1 ++ (before ++ i :: after) :: LL2 /\
    map T LL = LL1 ++ (before ++ code ++ decorated i :: after) :: LL2 /\
    concat LL = P ++ i :: Q /\
    concat (map T LL) = P ++ code ++ decorated i :: Q.
Proof.
  intros Hnd Hin Hid. induction LL as [|l LL IH]; [destruct Hin|].
  cbn [concat] in *. rewrite map_app in Hnd.
  destruct (in_app_or _ _ _ Hin) as [Hl|Hrest].
  - apply in_split in Hl as (before & after & ->).
    assert (Hothers : forall j, In j (before ++ after ++ concat LL) -> inst_id j <> id).
    { intros j Hj E. rewrite <- map_app, <- app_assoc, map_app in Hnd.
      cbn [app map] in Hnd. apply List.NoDup_remove_2 in Hnd.
      apply Hnd. rewrite Hid, <- E, <- map_app. now apply in_map. }
    assert (Hb : Forall (fun j => inst_id j <> id) before).
    { apply List.Forall_forall. intros j Hj. apply Hothers, in_or_app. now left. }
    assert (Ha : Forall (fun j => inst_id j <> id) after).
    { apply List.Forall_forall. intros j Hj. apply Hothers, in_or_app. right.
      apply in_or_app. now left. }
    assert (HLL : map T LL = LL).
    { assert (HF : Forall (fun l => Forall (fun j => inst_id j <> id) l) LL).
      { apply List.Forall_forall. intros l Hl. apply List.Forall_forall. intros j Hj.
        apply Hothers, in_or_app. right. apply in_or_app. right.
        apply in_concat. eauto. }
      clear -HF Hcode. induction HF as [|l LL Hl HLL IH]; cbn; [reflexivity|].
      now rewrite IH, decorate_insts_miss. }
    exists [], before, after, LL, before, (after ++ concat LL).
    cbn [app map concat]. rewrite HLL, decorate_insts_app_l, decorate_insts_hit by auto.
    repeat split; now rewrite <- ?app_assoc.
  - assert (Hl : Forall (fun j => inst_id j <> id) l).
    { apply List.Forall_forall. intros j Hj E.
      apply List.NoDup_app_remove_l in Hnd as Hnd'.
      assert (Hdis : forall a, In a (map inst_id l) -> ~ In a (map inst_id (concat LL))).
      { clear -Hnd. induction (map inst_id l) as [|a k IHk]; cbn in *; [tauto|].
        apply List.NoDup_cons_iff in Hnd as [Ha Hk]. intros b [<-|Hb].
        - intros Hc. apply Ha, in_or_app. now right.
        - now apply IHk. }
      apply (Hdis id); [rewrite <- E; now apply in_map|].
      rewrite <- Hid. now apply in_map. }
    apply List.NoDup_app_remove_l in Hnd.
    destruct (IH Hnd Hrest) as (LL1 & before & after & LL2 & P & Q & -> & HT & HP & HQ).
    exists (l :: LL1), before, after, LL2, (l ++ P), Q.
    cbn [map concat app]. rewrite HT, decorate_insts_miss by auto.
    repeat split.
    + rewrite HP. now rewrite <- app_assoc.
    + rewrite <- HT, HQ. now rewrite <- app_assoc.
Qed.

End DecorateInsts.

(** ** The instructions of a function across its instrumentation *)

Lemma NoDup_insert_middle (A N B : list nat) :
  List.NoDup (A ++ B) -> List.NoDup N ->
  (forall x, In x N -> ~ In x (A ++ B)) ->
  List.NoDup (A ++ N ++ B).
Proof.
  intros HAB HN Hdis.
  apply (Permutation.Permutation_NoDup (l := N ++ A ++ B)).
  - apply Permutation.Permutation_app_swap_app.
  - apply List.NoDup_app; auto.
Qed.

Lemma replacePhiUsesWith_In (Old New : ptr) (l : list Instruction) (i : Instruction) :
  In i l -> is_phi i = false -> In i (replacePhiUsesWith Old New l).
Proof.
  intros Hin Hphi. induction l as [|j l IH]; [destruct Hin|].
  cbn [replacePhiUsesWith]. destruct (inst_op j) eqn:E; try exact Hin.
  destruct Hin as [->|Hin].
  - unfold is_phi in Hphi. now rewrite E in Hphi.
  - right. now apply IH.
Qed.

Lemma patch_phis_In this New TI b i :
  In i (bb_insts b) -> is_phi i = false -> In i (bb_insts (patch_phis this New TI b)).
Proof.
  intros Hin Hphi. unfold patch_phis. destruct (existsb _ _); [|exact Hin].
  cbn. now apply replacePhiUsesWith_In.
Qed.

Ltac distinct_from_bounds :=
  repeat (apply List.NoDup_cons; [cbn; lia|]); apply List.NoDup_nil.

Section LandedFacts.
Context `{ext : !Externals}.
Variables (fn : Function) (entry : BasicBlock) (others : list BasicBlock).
Variables (allocas moved : list Instruction) (TI : Instruction).
Variables (builtinRet drtiCaller : value) (tn : ty) (landed : Function).
Variable landing : GlobalVariable.
Hypothesis Hblocks : fn_blocks fn = entry :: others.
Hypothesis Hinsts : bb_insts entry = allocas ++ moved.

Local Abbreviation fn' :=
  (set_blocks (landed_blocks fn entry others allocas moved TI builtinRet drtiCaller tn
                             landed landing) fn).

Lemma landed_keeps_insts (i : Instruction) :
  In i (fn_insts fn) -> is_phi i = false -> In i (fn_insts fn').
Proof.
  intros Hin Hphi. unfold fn_insts in Hin. rewrite Hblocks in Hin. cbn [map concat] in Hin.
  rewrite Hinsts in Hin. apply in_app_or in Hin as [Hin|Hin];
    [apply in_app_or in Hin as [Hin|Hin]|].
  - apply (fn_insts_In fn' _ i (or_introl eq_refl)). cbn. apply in_or_app. now left.
  - apply (fn_insts_In fn' _ i (or_intror (or_introl eq_refl))). cbn [bb_insts]. right.
    now apply patch_phis_In.
  - apply in_concat in Hin as (l & Hl & Hi). apply in_map_iff in Hl as (b & <- & Hb).
    apply (fn_insts_In fn' (patch_phis (bb_id entry) (fresh_block fn) TI b)).
    + cbn. right. right. apply in_or_app. left. now apply in_map.
    + now apply patch_phis_In.
Qed.

Lemma landed_distinct_handles :
  List.NoDup (map inst_id (fn_insts fn)) -> List.NoDup (map inst_id (fn_insts fn')).
Proof.
  intros Hnd.
  assert (Hlt : forall x, In x (map inst_id (fn_insts fn)) -> x < fresh_inst fn).
  { intros x Hx. apply in_map_iff in Hx as (i & <- & Hi). now apply fresh_inst_bound. }
  unfold fn_insts in Hnd, Hlt. rewrite Hblocks in Hnd, Hlt. cbn [map concat] in Hnd, Hlt.
  rewrite Hinsts, !map_app in Hnd, Hlt.
  assert (Ho : map inst_id (concat (map bb_insts
                 (map (patch_phis (bb_id entry) (fresh_block fn) TI) others))) =
               map inst_id (concat (map bb_insts others))).
  { clear. induction others as [|b bs IH]; cbn; [reflexivity|].
    now rewrite !map_app, IH, patch_phis_ids. }
  unfold fn_insts, fn', landed_blocks. cbn [fn_blocks set_blocks map concat app bb_insts].
  rewrite (map_app bb_insts), concat_app. cbn [map concat bb_insts set_insts].
  rewrite !map_app. cbn [map]. rewrite !map_app, Ho, patch_phis_ids.
  cbn [bb_insts]. rewrite app_nil_r.
  set (n0 := fresh_inst fn) in *. set (A := map inst_id allocas) in *.
  set (M := map inst_id moved) in *. set (O := map inst_id (concat (map bb_insts others))) in *.
  change (inst_id (landing_phi n0 tn (bb_id entry) (S (fresh_block fn))
                              (S (S (fresh_block fn))))) with (landing_phi_id n0).
  set (E := map inst_id (landing_entry_code n0 builtinRet (fresh_block fn)
                                            (S (fresh_block fn)))).
  set (P := map inst_id (landing_probe_code n0 (fresh_block fn) (S (S (fresh_block fn))))).
  set (C := map inst_id (landing_confirmed_code n0 drtiCaller tn landed landing
                                                (fresh_block fn))).
  enough (H : List.NoDup ((A ++ (E ++ [landing_phi_id n0]) ++ (M ++ O)) ++ (P ++ C)))
    by (rewrite <- !app_assoc; rewrite <- !app_assoc in H; exact H).
  rewrite <- app_assoc in Hnd, Hlt. subst E P C.
  apply List.NoDup_app.
  - apply NoDup_insert_middle; [exact Hnd | |].
    + unfold landing_entry_code, landing_phi_id. destruct and_folded; cbn;
        distinct_from_bounds.
    + intros x Hx Hin. apply Hlt in Hin. revert Hx.
      unfold landing_entry_code, landing_phi_id. destruct and_folded; cbn; lia.
  - unfold landing_probe_code, landing_confirmed_code. cbn. distinct_from_bounds.
  - intros x Hx.
    assert (Hb : x <= landing_phi_id n0).
    { apply in_app_or in Hx as [Hx|Hx]; [|apply in_app_or in Hx as [Hx|Hx]].
      - assert (x < n0) by (apply Hlt, in_or_app; now left).
        unfold landing_phi_id. destruct and_folded; lia.
      - revert Hx. unfold landing_entry_code, landing_phi_id.
        destruct and_folded; cbn; lia.
      - assert (x < n0) by (apply Hlt, in_or_app; now right).
        unfold landing_phi_id. destruct and_folded; lia. }
    unfold landing_probe_code, landing_confirmed_code. cbn. lia.
Qed.

End LandedFacts.

(** ** Call decoration: one call *)

Lemma CreateCast_cases (op : cast_op) (v : value) (t : ty) (name : string) (b : IRBuilder) :
  exists code v',
    CreateCast op v t name b =
      (v', {| next_id := next_id b + length code; emitted := emitted b ++ code |}) /\
    cast_yields op v t code v' /\
    map inst_id code = seq (next_id b) (length code).
Proof.
  unfold CreateCast, cast_yields. destruct (ty_eqb (value_type v) t) eqn:Et.
  - exists [], v. cbn. rewrite Nat.add_0_r, app_nil_r. apply ty_eqb_eq in Et.
    destruct b; cbn; repeat split; auto.
  - destruct (is_constant v) eqn:Ec.
    + exists [], (VCastExpr op v t). cbn. rewrite Nat.add_0_r, app_nil_r.
      destruct b; cbn; repeat split; auto.
    + eexists [_], _. unfold Insert. cbn [length]. rewrite Nat.add_1_r.
      split; [reflexivity|]. split; [|reflexivity].
      right. right. eexists. repeat split.
Qed.

Lemma decorate_fn_eq (id : ptr) (code : list Instruction) (newTarget : value) (f : Function) :
  update_inst id (setTailCallKind_if_CallInst TCK_NoTail)
    (update_inst id (setCalledOperand newTarget) (insert_before_inst id code f)) =
  decorate_fn id code newTarget f.
Proof.
  unfold update_inst, insert_before_inst, decorate_fn, decorate_insts, set_blocks.
  cbn. f_equal. rewrite !map_map. apply map_ext. intros b. reflexivity.
Qed.

Lemma inline_field_set_module {A} (field : InlineHelpers -> option A) m p :
  inline_field field (set_module m p) = inline_field field p.
Proof. reflexivity. Qed.

Section DecorateCall.
Context `{ext : !Externals}.

Lemma decorate_call_normal_form (caller : value) (r : inst_ref) (callsite : GlobalVariable)
    (p : DecoratePass) (fn : Function) (inst : Instruction) (callee : value)
    (call_from : Function) (node field : ty) :
  find_function (ref_function r) (m_module p) = Some fn ->
  find (fun i => Nat.eqb (inst_id i) (ref_inst r)) (fn_insts fn) = Some inst ->
  called_operand inst = Some callee ->
  inline_field m_drti_call_from p = Ok call_from ->
  func_ret (fn_type call_from) = TPtr node ->
  struct_element_type (m_module p) node 5 = Some field ->
  exists code newTarget set_caller m',
    getOrInsertFunction "_drti_set_caller" (TFunc TVoid [TPtr node] false) (m_module p)
      = (set_caller, m') /\
    decorate_call caller r callsite p =
      Ok (set_module
            (update_function (ref_function r)
               (fun _ => decorate_fn (ref_inst r) code newTarget fn) m') p) /\
    decoration_code call_from (global_value callsite) caller callee set_caller
                    code newTarget /\
    map inst_id code = seq (fresh_inst fn) (length code).
Proof.
  intros Hfind Hinst Hcallee Hcf Hret Hfield.
  unfold decorate_call, get_function, find_inst. rewrite Hfind. cbn [obind].
  rewrite Hinst. cbn [obind]. rewrite Hcallee, Hcf. cbn [obind].
  unfold CreateBitCast.
  destruct (CreateCast_cases CastBitCast callee (TPtr (TInt 8)) "castOldTarget"
              (builder_at (fresh_inst fn))) as (cast1 & oldTarget & -> & Hy1 & Hi1).
  cbn [builder_at next_id emitted app].
  unfold CreateCall at 1. unfold Insert at 1.
  unfold CreateStructGEP, CreateGEP_gen.
  cbn [value_type the_use inst_id inst_type obind next_id emitted is_constant andb].
  rewrite Hret.
  replace (ConstantInt_get 32 5) with (VConstInt 32 5) by reflexivity.
  replace (ConstantInt_get 32 0) with (VConstInt 32 0) by reflexivity.
  destruct node as [| | |sname| |]; try discriminate Hfield.
  cbn [indexed_type]. change (Z.to_nat 5) with 5. rewrite Hfield.
  unfold Insert at 1. unfold CreateLoad.
  cbn [value_type the_use inst_id inst_type obind next_id emitted is_constant andb].
  unfold Insert at 1.
  cbn [value_type the_use inst_id inst_type obind next_id emitted is_constant andb].
  match goal with
  | |- context [CreateCast CastBitCast ?v ?t ?n ?b] =>
      destruct (CreateCast_cases CastBitCast v t n b) as (cast2 & newTarget & -> & Hy2 & Hi2)
  end.
  cbn [next_id emitted] in Hi2 |- *.
  destruct (getOrInsertFunction "_drti_set_caller" _ (m_module p)) as [set_caller m'] eqn:Eg.
  unfold CreateCall, Insert. cbn [next_id emitted]. rewrite decorate_fn_eq.
  eexists _, newTarget, set_caller, m'. split; [reflexivity|]. split; [reflexivity|].
  split.
  - eexists cast1, oldTarget, _, _, _, cast2, _.
    split; [now rewrite <- !app_assoc|]. repeat split; assumption.
  - rewrite !map_app, Hi1, Hi2. cbn [map inst_id length]. rewrite !length_app.
    cbn [length]. rewrite !seq_app. cbn [seq]. rewrite <- !app_assoc. cbn [app].
    repeat (f_equal; try lia).
Qed.

End DecorateCall.

Lemma find_by_id (l : list Instruction) (i : Instruction) :
  List.NoDup (map inst_id l) -> In i l ->
  find (fun j => Nat.eqb (inst_id j) (inst_id i)) l = Some i.
Proof.
  intros Hnd Hin. destruct (find _ l) as [j|] eqn:E.
  - apply find_some in E as [Hj E]. apply Nat.eqb_eq in E. f_equal.
    exact (NoDup_map_eq inst_id _ _ _ Hnd Hj Hin E).
  - apply (find_none _ _ E) in Hin. now rewrite Nat.eqb_refl in Hin.
Qed.

Lemma decorate_fn_facts (F : Function) (original : Instruction) (code : list Instruction)
    (newTarget : value) :
  List.NoDup (map inst_id (fn_insts F)) ->
  In original (fn_insts F) ->
  map inst_id code = seq (fresh_inst F) (length code) ->
  List.NoDup (map inst_id (fn_insts (decorate_fn (inst_id original) code newTarget F))) /\
  (forall j, In j (fn_insts F) -> inst_id j <> inst_id original ->
     In j (fn_insts (decorate_fn (inst_id original) code newTarget F))) /\
  has_segment (decorate_fn (inst_id original) code newTarget F)
    (code ++ [setTailCallKind_if_CallInst TCK_NoTail
                (setCalledOperand newTarget original)]) /\
  (forall s, has_segment F s -> Forall (fun j => inst_id j <> inst_id original) s ->
     has_segment (decorate_fn (inst_id original) code newTarget F) s).
Proof.
  intros Hnd Hin Hids.
  assert (Hcode : Forall (fun j => inst_id j <> inst_id original) code).
  { apply List.Forall_forall. intros j Hj.
    assert (Hb : In (inst_id j) (seq (fresh_inst F) (length code))).
    { rewrite <- Hids. now apply in_map. }
    apply in_seq in Hb. pose proof (fresh_inst_bound F original Hin). lia. }
  destruct (decorate_insts_blocks (inst_id original) code newTarget Hcode
              (map bb_insts (fn_blocks F)) original Hnd Hin eq_refl)
    as (LL1 & before & after & LL2 & P & Q & HLL & HT & HP & HQ).
  assert (Hmap : map bb_insts (fn_blocks (decorate_fn (inst_id original) code newTarget F)) =
                 map (decorate_insts (inst_id original) code newTarget)
                     (map bb_insts (fn_blocks F))).
  { unfold decorate_fn. cbn. now rewrite !map_map. }
  assert (Hinsts : fn_insts (decorate_fn (inst_id original) code newTarget F) =
                   P ++ code ++
                   setTailCallKind_if_CallInst TCK_NoTail
                     (setCalledOperand newTarget original) :: Q).
  { unfold fn_insts at 1. now rewrite Hmap. }
  change (concat (map bb_insts (fn_blocks F))) with (fn_insts F) in HP.
  repeat split.
  - rewrite Hinsts, !map_app. cbn [map].
    change (inst_id (setTailCallKind_if_CallInst _ _)) with (inst_id original).
    rewrite HP, map_app in Hnd. cbn [map] in Hnd.
    apply NoDup_insert_middle; [exact Hnd | rewrite Hids; apply seq_NoDup |].
    intros x Hx Hold. rewrite Hids in Hx. apply in_seq in Hx.
    assert (Hlt : x < fresh_inst F).
    { change (inst_id original :: map inst_id Q) with (map inst_id (original :: Q)) in Hold.
      rewrite <- map_app, <- HP in Hold. apply in_map_iff in Hold as (j & <- & Hj).
      now apply fresh_inst_bound. }
    lia.
  - intros j Hj Hne. rewrite Hinsts. rewrite HP in Hj.
    apply in_app_or in Hj as [Hj|[<-|Hj]]; [| congruence |].
    + apply in_or_app. now left.
    + apply in_or_app. right. apply in_or_app. right. now right.
  - assert (Hb : In (before ++ code ++
                     setTailCallKind_if_CallInst TCK_NoTail
                       (setCalledOperand newTarget original) :: after)
                    (map bb_insts
                       (fn_blocks (decorate_fn (inst_id original) code newTarget F)))).
    { rewrite Hmap, HT. apply in_or_app. right. now left. }
    apply in_map_iff in Hb as (b & Hb & Hin'). exists b, before, after.
    split; [exact Hin'|]. rewrite Hb. now rewrite <- !app_assoc.
  - intros s (b & x & y & Hb & Hs) Hfree.
    destruct (decorate_insts_segment (inst_id original) code newTarget x s y Hfree)
      as (x' & y' & HT').
    exists (set_insts (decorate_insts (inst_id original) code newTarget (bb_insts b)) b),
      x', y'.
    split.
    + unfold decorate_fn. cbn. apply in_map_iff. now exists b.
    + cbn. now rewrite Hs.
Qed.

(** ** Call decoration: the loop *)

Lemma update_function_ids (h : ptr) (fl : Function) (m : Module) :
  fn_id fl = h ->
  map fn_id (mod_functions (update_function h (fun _ => fl) m)) =
  map fn_id (mod_functions m).
Proof.
  intros Hid. unfold update_function. cbn. rewrite map_map. apply map_ext_in.
  intros f _. destruct (Nat.eqb (fn_id f) h) eqn:E; [|reflexivity].
  apply Nat.eqb_eq in E. congruence.
Qed.

Lemma getOrInsertFunction_find name fty m v m' h f :
  getOrInsertFunction name fty m = (v, m') ->
  find_function h m = Some f -> find_function h m' = Some f.
Proof.
  unfold getOrInsertFunction. destruct (getNamedValue name m) as [F|].
  - destruct (ty_eqb _ _); intros [= <- <-]; auto.
  - intros [= <- <-]. unfold find_function. cbn. apply find_app_some.
Qed.

Lemma insert_global_before_In (h : ptr) (g x : GlobalVariable) (l : list GlobalVariable) :
  In x (insert_global_before h g l) <-> x = g \/ In x l.
Proof.
  induction l as [|y l IH]; cbn.
  - intuition.
  - destruct (Nat.eqb (gv_id y) h); cbn; [intuition|]. rewrite IH. intuition.
Qed.

Lemma insert_global_before_NoDup (h : ptr) (g : GlobalVariable) (l : list GlobalVariable) :
  List.NoDup (map gv_id l) -> ~ In (gv_id g) (map gv_id l) ->
  List.NoDup (map gv_id (insert_global_before h g l)).
Proof.
  induction l as [|y l IH]; cbn; intros Hnd Hg.
  - apply List.NoDup_cons; [intros []|apply List.NoDup_nil].
  - destruct (Nat.eqb (gv_id y) h); cbn.
    + apply List.NoDup_cons; assumption.
    + apply List.NoDup_cons_iff in Hnd as [Hy Hnd]. apply List.NoDup_cons.
      * intros Hin. apply in_map_iff in Hin as (x & Hx & Hin).
        apply insert_global_before_In in Hin as [->|Hin]; [apply Hg; left; congruence|].
        apply Hy. rewrite <- Hx. now apply in_map.
      * apply IH; tauto.
Qed.

Lemma new_GlobalVariable_NoDup t c l init name before m g m' :
  new_GlobalVariable t c l init name before m = (g, m') ->
  List.NoDup (map gv_id (mod_globals m)) ->
  List.NoDup (map gv_id (mod_globals m')) /\ mod_functions m' = mod_functions m.
Proof.
  unfold new_GlobalVariable. intros [= <- <-] Hnd. cbn. split; [|reflexivity].
  assert (Hfresh : ~ In (fresh_global m) (map gv_id (mod_globals m))).
  { intros Hin. apply list_max_In in Hin. unfold fresh_global in Hin. lia. }
  destruct before as [b|].
  - now apply insert_global_before_NoDup.
  - rewrite map_app. cbn. apply List.NoDup_app; auto.
    + apply List.NoDup_cons; [intros []|apply List.NoDup_nil].
    + intros x Hx [<-|[]]. exact (Hfresh Hx).
Qed.

Lemma Forall2_In_l {A B} (R : A -> B -> Prop) (l : list A) (k : list B) (x : A) :
  Forall2 R l k -> In x l -> exists y, In y k /\ R x y.
Proof.
  induction 1 as [|a b l k Hab Hlk IH]; cbn; [tauto|].
  intros [<-|Hin]; [eauto|]. destruct (IH Hin) as (y & Hy & Hr). eauto.
Qed.

Lemma Forall2_In_r {A B} (R : A -> B -> Prop) (l : list A) (k : list B) (y : B) :
  Forall2 R l k -> In y k -> exists x, In x l /\ R x y.
Proof.
  induction 1 as [|a b l k Hab Hlk IH]; cbn; [tauto|].
  intros [<-|Hin]; [eauto|]. destruct (IH Hin) as (x & Hx & Hr). eauto.
Qed.

Lemma Forall2_impl_In_l {A B} (R R' : A -> B -> Prop) (l : list A) (k : list B) :
  Forall2 R l k -> (forall x y, In x l -> R x y -> R' x y) -> Forall2 R' l k.
Proof.
  induction 1 as [|a b l k Hab Hlk IH]; intros Himp; constructor.
  - apply Himp; [now left | exact Hab].
  - apply IH. intros x y Hx. apply Himp. now right.
Qed.

Lemma is_decoration_kept m m' call_from callsite caller callee code newTarget :
  kept m m' ->
  is_decoration m call_from callsite caller callee code newTarget ->
  is_decoration m' call_from callsite caller callee code newTarget.
Proof.
  intros Hk (sc & Hc & Hn). exists sc. split; [exact Hc|].
  exact (callee_name_kept _ _ _ _ Hk Hn).
Qed.

Section DecorateLoop.
Context `{ext : !Externals}.
Variables (caller : value) (landing : GlobalVariable).
Variables (call_from : Function) (node field callsite_type vector_type : ty).
Variable h : ptr.
Hypothesis Hret : func_ret (fn_type call_from) = TPtr node.

Lemma create_callsite_global_normal_form (n : Z) (p : DecoratePass) (F : Function) :
  find_function h (m_module p) = Some F ->
  inline_field m_drti_callsite_type p = Ok callsite_type ->
  struct_element_type (m_module p) callsite_type 3 = Some vector_type ->
  exists g,
    create_callsite_global h landing n p =
      Ok (g, set_module (set_globals (mod_globals (m_module p) ++ [g]) (m_module p)) p) /\
    gv_id g = fresh_global (m_module p) /\
    is_callsite_record callsite_type landing (n mod 2 ^ 32) g.
Proof.
  intros Hfind Hcs Hvt. unfold create_callsite_global, get_function.
  rewrite Hfind. cbn [obind]. rewrite Hcs. cbn [obind]. rewrite Hvt. cbn [obind].
  unfold new_GlobalVariable. eexists. split; [reflexivity|]. split; [reflexivity|].
  exists vector_type. cbn. repeat split.
Qed.

Lemma decorate_calls_spec (collected : list (Z * inst_ref)) :
  forall (p : DecoratePass) (F : Function),
  find_function h (m_module p) = Some F ->
  List.NoDup (map inst_id (fn_insts F)) ->
  List.NoDup (map fn_id (mod_functions (m_module p))) ->
  List.NoDup (map gv_id (mod_globals (m_module p))) ->
  inline_field m_drti_call_from p = Ok call_from ->
  inline_field m_drti_callsite_type p = Ok callsite_type ->
  struct_element_type (m_module p) node 5 = Some field ->
  struct_element_type (m_module p) callsite_type 3 = Some vector_type ->
  Forall (fun nr =>
            ref_function (snd nr) = h /\
            exists original callee,
              In original (fn_insts F) /\ inst_id original = ref_inst (snd nr) /\
              called_operand original = Some callee) collected ->
  List.NoDup (map (fun nr => ref_inst (snd nr)) collected) ->
  exists p' F' callsites,
    decorate_calls collected caller landing p = Ok p' /\
    find_function h (m_module p') = Some F' /\
    kept (m_module p) (m_module p') /\
    mod_globals (m_module p') = mod_globals (m_module p) ++ callsites /\
    (forall s, has_segment F s ->
       Forall (fun j => Forall (fun nr => inst_id j <> ref_inst (snd nr)) collected) s ->
       has_segment F' s) /\
    Forall2 (fun nr g =>
               is_callsite_record callsite_type landing (fst nr mod 2 ^ 32) g /\
               exists original,
                 In original (fn_insts F) /\ inst_id original = ref_inst (snd nr) /\
                 decorated_call (m_module p') F' call_from (global_value g) caller original)
            collected callsites.
Proof.
  induction collected as [|[n r] rest IH];
    intros p F Hfind HndI HndF HndG Hcf Hcs Hfield Hvt Hpending Hdistinct.
  - exists p, F, []. cbn. rewrite app_nil_r.
    split; [reflexivity|]. split; [exact Hfind|]. split; [apply kept_refl|].
    split; [reflexivity|]. split; [auto|constructor].
  - apply List.Forall_cons_iff in Hpending as [(Hh & original & callee & Hin & Hid & Hop) Hrest].
    cbn [map snd] in Hdistinct.
    apply List.NoDup_cons_iff in Hdistinct as [Hfirst Hdistinct].
    destruct r as [rf ri]. cbn [snd fst ref_function ref_inst] in *. subst rf ri.
    (* the record *)
    destruct (create_callsite_global_normal_form n p F Hfind Hcs Hvt)
      as (g & Hcreate & Hgid & Hrecord).
    cbn [decorate_calls ref_function]. rewrite Hcreate. cbn [obind].
    set (m1 := set_globals (mod_globals (m_module p) ++ [g]) (m_module p)).
    set (p1 := set_module m1 p).
    assert (Hk1 : kept (m_module p) m1).
    { unfold kept, m1. cbn. repeat split; auto.
      - intros x Hx. apply in_or_app. now left.
      - intros h0 g0 Hg0. unfold find_global in *. cbn. now apply find_app_some.
      - intros h0 f0 Hf0. exists f0. auto. }
    assert (HndG1 : List.NoDup (map gv_id (mod_globals m1))).
    { unfold m1. cbn. rewrite map_app. cbn. apply List.NoDup_app; auto.
      - apply List.NoDup_cons; [intros []|apply List.NoDup_nil].
      - intros x Hx [<-|[]]. rewrite Hgid in Hx. apply list_max_In in Hx.
        unfold fresh_global in Hx. lia. }
    (* the call *)
    assert (Hfound : find (fun i => Nat.eqb (inst_id i) (inst_id original)) (fn_insts F)
                     = Some original) by (now apply find_by_id).
    destruct (decorate_call_normal_form caller
                {| ref_function := h; ref_inst := inst_id original |}
                g p1 F original callee call_from node field)
      as (code & newTarget & set_caller & m1' & Hget & Hdec & Hshape & Hids); auto.
    rewrite Hdec. cbn [obind ref_function ref_inst] in *.
    destruct (decorate_fn_facts F original code newTarget HndI Hin Hids)
      as (HndI2 & Hkeep & Hseg & Hpersist).
    set (F2 := decorate_fn (inst_id original) code newTarget F) in *.
    set (m2 := update_function h (fun _ => F2) m1').
    set (p2 := set_module m2 (set_module m1 p)).
    cbn [m_module set_module p1] in Hget.
    assert (Hfind1' : find_function h m1' = Some F).
    { exact (getOrInsertFunction_find _ _ _ _ _ _ _ Hget Hfind). }
    assert (HidF : fn_id F = h) by (now apply find_function_some in Hfind).
    assert (HidF2 : fn_id F2 = h) by exact HidF.
    assert (Hfind2 : find_function h m2 = Some F2).
    { exact (find_function_update_same h (fun _ => F2) m1' F Hfind1' HidF2). }
    assert (HndF1 : List.NoDup (map fn_id (mod_functions m1))) by exact HndF.
    destruct (getOrInsertFunction_NoDup _ _ _ _ _ HndF1 Hget) as [HndF1' Hglobals1'].
    assert (HndF2 : List.NoDup (map fn_id (mod_functions m2))).
    { unfold m2. now rewrite update_function_ids. }
    assert (Hk2 : kept m1' m2).
    { now apply (update_function_kept h F2 m1' F). }
    assert (Hk : kept (m_module p) m2).
    { eapply kept_trans; [exact Hk1|]. eapply kept_trans; [|exact Hk2].
      exact (getOrInsertFunction_kept _ _ _ _ _ Hget). }
    assert (Hname : Exec.callee_name m2 set_caller = Some "_drti_set_caller").
    { apply (callee_name_kept m1' m2 _ _ Hk2).
      exact (getOrInsertFunction_name _ _ _ _ _ HndF1 HndG1 Hget). }
    (* the rest of the calls *)
    destruct (IH p2 F2) as (p' & F' & callsites & Hloop & Hfind' & Hk' & Hglobals' &
                            Hpersist' & Hall); auto.
    { cbn. now rewrite Hglobals1'. }
    { cbn. now rewrite (struct_element_type_kept _ _ _ _ Hk). }
    { cbn. now rewrite (struct_element_type_kept _ _ _ _ Hk). }
    { apply List.Forall_forall. intros nr Hnr.
      rewrite List.Forall_forall in Hrest. destruct (Hrest nr Hnr) as (Hh' & o & c & Ho & Hoid & Hoc).
      split; [exact Hh'|]. exists o, c. repeat split; auto.
      apply Hkeep; [exact Ho|]. intros E. apply Hfirst. rewrite <- E, Hoid.
      now apply (in_map (fun nr => ref_inst (snd nr))). }
    exists p', F', (g :: callsites).
    split; [exact Hloop|]. split; [exact Hfind'|].
    split; [eapply kept_trans; [exact Hk | exact Hk']|].
    split; [|split].
    + rewrite Hglobals'. cbn. rewrite Hglobals1'. unfold m1. cbn.
      now rewrite <- app_assoc.
    + intros s Hs Hfree. apply Hpersist'.
      * apply Hpersist; [exact Hs|]. eapply List.Forall_impl; [|exact Hfree].
        intros j Hj. apply List.Forall_cons_iff in Hj as [Hj _]. exact Hj.
      * eapply List.Forall_impl; [|exact Hfree].
        intros j Hj. apply List.Forall_cons_iff in Hj as [_ Hj]. exact Hj.
    + constructor; [|].
      * split; [exact Hrecord|]. exists original. repeat split; auto.
        assert (Hseg' : has_segment F'
                  (code ++ [setTailCallKind_if_CallInst TCK_NoTail
                              (setCalledOperand newTarget original)])).
        { apply Hpersist'; [exact Hseg|]. apply List.Forall_forall. intros j Hj.
          apply List.Forall_forall. intros nr Hnr.
          rewrite List.Forall_forall in Hrest.
          destruct (Hrest nr Hnr) as (_ & o & c & Ho & Hoid & _). rewrite <- Hoid.
          apply in_app_or in Hj as [Hj|[<-|[]]].
          - assert (Hb : In (inst_id j) (seq (fresh_inst F) (length code))).
            { rewrite <- Hids. now apply in_map. }
            apply in_seq in Hb. pose proof (fresh_inst_bound F o Ho). lia.
          - change (inst_id (setTailCallKind_if_CallInst _ _)) with (inst_id original).
            intros E. apply Hfirst. rewrite E, Hoid.
            now apply (in_map (fun nr => ref_inst (snd nr))). }
        destruct Hseg' as (b & x & y & Hb & Hbi).
        exists callee, b, x, code, newTarget, y. repeat split; auto.
        -- rewrite Hbi. now rewrite <- !app_assoc.
        -- apply (is_decoration_kept m2 _ _ _ _ _ _ _ Hk'). exists set_caller. now split.
      * eapply Forall2_impl_In_l; [exact Hall|]. cbn beta.
        intros nr g0 Hnr (Hrec & o & Ho & Hoid & Hd). split; [exact Hrec|].
        rewrite List.Forall_forall in Hrest.
        destruct (Hrest nr Hnr) as (_ & o' & c & Ho' & Hoid' & _).
        assert (Ho2 : In o' (fn_insts F2)).
        { apply Hkeep; [exact Ho'|]. intros E. apply Hfirst. rewrite <- E, Hoid'.
          now apply (in_map (fun nr => ref_inst (snd nr))). }
        assert (E : o = o').
        { apply (NoDup_map_eq inst_id _ _ _ HndI2 Ho Ho2). congruence. }
        subst o'. exists o. auto.
Qed.

End DecorateLoop.

(** ** Call numbers and positions *)

Lemma call_number_after_position (pre : list Instruction) (k : nat) :
  call_number_after (Z.of_nat k mod 2 ^ 32) pre =
  (Z.of_nat (k + call_position pre) mod 2 ^ 32)%Z.
Proof.
  unfold call_number_after, call_position. revert k.
  induction pre as [|i pre IH]; intros k; cbn [fold_left List.filter length].
  - now rewrite Nat.add_0_r.
  - unfold next_call_number at 2. destruct (is_counted_call i); cbn [length].
    + unfold wrap32. rewrite Zplus_mod_idemp_l.
      replace (Z.of_nat k + 1)%Z with (Z.of_nat (S k)) by lia.
      rewrite IH. f_equal. lia.
    + apply IH.
Qed.

Lemma call_position_nth (pre : list Instruction) (i : Instruction) (post : list Instruction) :
  is_counted_call i = true ->
  nth_error (List.filter is_counted_call (pre ++ i :: post)) (call_position pre) = Some i.
Proof.
  intros Hi. unfold call_position. rewrite List.filter_app. cbn [List.filter]. rewrite Hi.
  rewrite nth_error_app2 by lia. now rewrite Nat.sub_diag.
Qed.

Lemma call_position_bound (pre : list Instruction) (i : Instruction) (post : list Instruction) :
  is_counted_call i = true ->
  call_position pre < length (List.filter is_counted_call (pre ++ i :: post)).
Proof.
  intros Hi. unfold call_position. rewrite List.filter_app, length_app.
  cbn [List.filter]. rewrite Hi. cbn [length]. lia.
Qed.

Lemma NoDup_map_filter {A B} (f : A -> B) (P : A -> bool) (l : list A) :
  List.NoDup (map f l) -> List.NoDup (map f (List.filter P l)).
Proof.
  induction l as [|a l IH]; cbn; [auto|]. intros Hnd.
  apply List.NoDup_cons_iff in Hnd as [Ha Hnd]. destruct (P a); cbn; [|auto].
  apply List.NoDup_cons; [|auto]. intros Hin. apply Ha.
  apply in_map_iff in Hin as (x & Hx & Hin). apply List.filter_In in Hin as [Hin _].
  rewrite <- Hx. now apply in_map.
Qed.

Lemma called_not_phi (i : Instruction) (callee : value) :
  called_operand i = Some callee -> is_phi i = false.
Proof. unfold called_operand, is_phi. now destruct (inst_op i). Qed.

(** ** Call decoration: the call as it is rewritten *)

Lemma cast_yields_type (op : cast_op) (v : value) (t : ty) (code : list Instruction)
    (v' : value) :
  cast_yields op v t code v' -> value_type v' = t.
Proof.
  intros [(_ & -> & H)|[(_ & -> & _)|(c & _ & _ & H & ->)]]; [exact H|reflexivity|exact H].
Qed.

(** What the two setters of [decorate_call] make of a call. *)
Lemma setters_rewrite_call (original : Instruction) (callee newTarget : value) :
  called_operand original = Some callee ->
  value_type newTarget = value_type callee ->
  call_rewritten original
    (setTailCallKind_if_CallInst TCK_NoTail (setCalledOperand newTarget original))
    callee newTarget.
Proof.
  intros Hop Hty. unfold call_rewritten, called_operand in *.
  cbn [setTailCallKind_if_CallInst setCalledOperand inst_id inst_name inst_type inst_op].
  do 3 (split; [reflexivity|]).
  destruct (inst_op original); try discriminate Hop; auto.
Qed.

Lemma decorated_call_rewritten m f call_from callsite caller original :
  decorated_call m f call_from callsite caller original ->
  call_decorated m f call_from callsite caller original.
Proof.
  intros (callee & b & before & code & newTarget & after & Hop & Hb & Hbi & Hdec).
  exists callee, b, before, code, newTarget,
    (setTailCallKind_if_CallInst TCK_NoTail (setCalledOperand newTarget original)), after.
  split; [exact Hop|]. split; [exact Hb|]. split; [exact Hbi|]. split; [exact Hdec|].
  apply setters_rewrite_call; [exact Hop|].
  destruct Hdec as (set_caller & (cast1 & oldTarget & tn & gep & ld & cast2 & sc & _ & _ &
                                  _ & _ & _ & Hy2 & _) & _).
  exact (cast_yields_type _ _ _ _ _ Hy2).
Qed.

(** ** Call decoration: a target function *)

Section DecorationTheorems.
Context `{ext : !Externals}.
Variables (p : DecoratePass) (function : ptr) (fn : Function).
Variables (entry : BasicBlock) (others : list BasicBlock).
Variables (allocas : list Instruction) (first : Instruction) (rest : list Instruction).
Variable TI : Instruction.
Variables (treenode_type : ty) (landed call_from : Function).
Variables (node field callsite_type vector_type landing_site_type : ty).
Variable reflect : GlobalVariable.

Hypothesis Hfind : find_function function (m_module p) = Some fn.
Hypothesis Hblocks : fn_blocks fn = entry :: others.
Hypothesis Hinsts : bb_insts entry = allocas ++ first :: rest.
Hypothesis Hallocas : Forall (fun i => is_alloca i = true) allocas.
Hypothesis Hfirst : is_alloca first = false.
Hypothesis HTI : getTerminator entry = Some TI.
Hypothesis HndB : List.NoDup (map bb_id (fn_blocks fn)).
Hypothesis HndI : List.NoDup (map inst_id (fn_insts fn)).
Hypothesis HndF : List.NoDup (map fn_id (mod_functions (m_module p))).
Hypothesis HndG : List.NoDup (map gv_id (mod_globals (m_module p))).
Hypothesis Htn : inline_field m_drti_treenode_type p = Ok treenode_type.
Hypothesis Hlanded : inline_field m_drti_landed p = Ok landed.
Hypothesis Hcf : inline_field m_drti_call_from p = Ok call_from.
Hypothesis Hret : func_ret (fn_type call_from) = TPtr node.
Hypothesis Hfield : struct_element_type (m_module p) node 5 = Some field.
Hypothesis Hcs : inline_field m_drti_callsite_type p = Ok callsite_type.
Hypothesis Hvt : struct_element_type (m_module p) callsite_type 3 = Some vector_type.
Hypothesis Hls : inline_field m_drti_landing_site_type p = Ok landing_site_type.
Hypothesis Hreflect : m_reflect_global p = Some reflect.

Lemma create_landing_global_normal_form :
  exists landing m1,
    create_landing_global function p = Ok (landing, set_module m1 p) /\
    kept (m_module p) m1 /\
    mod_functions m1 = mod_functions (m_module p) /\
    List.NoDup (map gv_id (mod_globals m1)) /\
    In landing (mod_globals m1).
Proof.
  unfold create_landing_global, get_function. rewrite Hfind. cbn [obind].
  destruct (new_GlobalVariable _ _ _ _ "__drti_landing_site_name" _ _) as [g1 m1] eqn:E1.
  destruct (new_GlobalVariable _ _ _ _ "__drti_landing_site_function_name" _ _)
    as [g2 m2] eqn:E2.
  rewrite Hreflect, Hls. cbn [obind].
  destruct (new_GlobalVariable _ _ _ _ _ (Some g2) m2) as [g3 m3] eqn:E3.
  exists g3, m3. split; [reflexivity|].
  destruct (new_GlobalVariable_NoDup _ _ _ _ _ _ _ _ _ E1 HndG) as [N1 F1].
  destruct (new_GlobalVariable_NoDup _ _ _ _ _ _ _ _ _ E2 N1) as [N2 F2].
  destruct (new_GlobalVariable_NoDup _ _ _ _ _ _ _ _ _ E3 N2) as [N3 F3].
  split; [|split; [congruence|split; [exact N3|]]].
  - eapply kept_trans; [exact (new_GlobalVariable_kept _ _ _ _ _ _ _ _ _ E1)|].
    eapply kept_trans; [exact (new_GlobalVariable_kept _ _ _ _ _ _ _ _ _ E2)|].
    exact (new_GlobalVariable_kept _ _ _ _ _ _ _ _ _ E3).
  - now apply new_GlobalVariable_globals in E3 as (Hin & _).
Qed.

(** The body of the loop of [add_landing_globals] on a target function
    definition: the landing site, the handle of the caller, and for each
    collected call its record and its decoration. *)
Lemma add_landing_globals_body_spec :
  exists landing caller p1 p2 p' fn' callsites,
    create_landing_global function p = Ok (landing, p1) /\
    add_landing_update function landing p1 = Ok (caller, p2) /\
    decorate_calls (collect_calls fn p) caller landing p2 = Ok p' /\
    add_landing_globals_body function p = Ok p' /\
    find_function function (m_module p') = Some fn' /\
    In landing (mod_globals (m_module p')) /\
    mod_globals (m_module p') = mod_globals (m_module p2) ++ callsites /\
    Forall2 (fun nr g =>
               exists pre original post,
                 fn_insts fn = pre ++ original :: post /\
                 selects p original = true /\
                 snd nr = ref_of fn original /\
                 fst nr = (Z.of_nat (call_position pre) mod 2 ^ 32)%Z /\
                 is_callsite_record callsite_type landing (fst nr) g /\
                 decorated_call (m_module p') fn' call_from (global_value g) caller original)
            (collect_calls fn p) callsites.
Proof.
  destruct create_landing_global_normal_form as (landing & m1 & Hcreate & Hk1 & Hf1 & HndG1 & Hl).
  set (p1 := set_module m1 p) in *.
  assert (Hfind1 : find_function function (m_module p1) = Some fn).
  { unfold find_function. cbn. now rewrite Hf1. }
  destruct (getOrInsertFunction "llvm.returnaddress" (TFunc (TPtr (TInt 8)) [TInt 32] false)
              (m_module p1)) as [builtinRet m1'] eqn:Eret.
  destruct (getOrInsertFunction "_drti_caller" (TFunc (TPtr treenode_type) [] false) m1')
    as [drtiCaller m2] eqn:Ecaller.
  pose proof (add_landing_update_normal_form function landing p1 fn entry others allocas
                first rest TI treenode_type landed Hfind1 Hblocks Hinsts Hallocas Hfirst HTI
                HndB Htn Hlanded builtinRet m1' drtiCaller m2 Eret Ecaller) as Hland.
  set (FL := set_blocks (landed_blocks fn entry others allocas (first :: rest) TI builtinRet
                           drtiCaller treenode_type landed landing) fn) in *.
  set (caller := VInst (landing_phi_id (fresh_inst fn)) (TPtr treenode_type)) in *.
  set (m3 := update_function function (fun _ => FL) m2) in *.
  set (p2 := set_module m3 p1) in *.
  assert (Hid : fn_id fn = function) by (now apply find_function_some in Hfind).
  assert (Hfind2 : find_function function m2 = Some fn).
  { apply (getOrInsertFunction_find _ _ _ _ _ _ _ Ecaller).
    exact (getOrInsertFunction_find _ _ _ _ _ _ _ Eret Hfind1). }
  assert (Hfind3 : find_function function m3 = Some FL).
  { exact (find_function_update_same function (fun _ => FL) m2 fn Hfind2 Hid). }
  assert (HndF1 : List.NoDup (map fn_id (mod_functions (m_module p1)))).
  { cbn. now rewrite Hf1. }
  destruct (getOrInsertFunction_NoDup _ _ _ _ _ HndF1 Eret) as [HndF1' Hg1'].
  destruct (getOrInsertFunction_NoDup _ _ _ _ _ HndF1' Ecaller) as [HndF2 Hg2].
  assert (HndF3 : List.NoDup (map fn_id (mod_functions m3))).
  { unfold m3. now rewrite update_function_ids. }
  assert (HndG3 : List.NoDup (map gv_id (mod_globals m3))).
  { unfold m3. cbn. now rewrite Hg2, Hg1'. }
  assert (Hk3 : kept (m_module p) m3).
  { eapply kept_trans; [exact Hk1|].
    eapply kept_trans; [exact (getOrInsertFunction_kept _ _ _ _ _ Eret)|].
    eapply kept_trans; [exact (getOrInsertFunction_kept _ _ _ _ _ Ecaller)|].
    now apply (update_function_kept function FL m2 fn). }
  assert (HndIL : List.NoDup (map inst_id (fn_insts FL))).
  { now apply (landed_distinct_handles fn entry others allocas (first :: rest)). }
  assert (Hcollected :
            forall nr, In nr (collect_calls fn p) ->
              exists pre original post callee,
                fn_insts fn = pre ++ original :: post /\
                selects p original = true /\
                snd nr = ref_of fn original /\
                fst nr = (Z.of_nat (call_position pre) mod 2 ^ 32)%Z /\
                called_operand original = Some callee /\
                In original (fn_insts FL)).
  { intros [n r] Hnr. rewrite collect_calls_numbered in Hnr.
    apply numbered_In in Hnr as (pre & i & post & E & Hs & -> & ->).
    assert (Hc : exists callee, called_operand i = Some callee).
    { unfold selects in Hs. destruct (called_operand i); [eauto|discriminate]. }
    destruct Hc as (callee & Hc). exists pre, i, post, callee.
    repeat split; auto.
    - exact (call_number_after_position pre 0).
    - apply (landed_keeps_insts fn entry others allocas (first :: rest)); auto.
      + rewrite E. apply in_or_app. right. now left.
      + exact (called_not_phi i callee Hc). }
  destruct (decorate_calls_spec caller landing call_from node field callsite_type
              vector_type function Hret (collect_calls fn p) p2 FL)
    as (p' & fn' & callsites & Hloop & Hfind' & Hk' & Hglobals & _ & Hall); auto.
  { cbn. now rewrite (struct_element_type_kept _ _ _ _ Hk3). }
  { cbn. now rewrite (struct_element_type_kept _ _ _ _ Hk3). }
  { apply List.Forall_forall. intros nr Hnr.
    destruct (Hcollected nr Hnr) as (pre & i & post & callee & E & Hs & Hr & Hn & Hc & Hi).
    rewrite Hr. cbn. split; [exact Hid|]. exists i, callee. auto. }
  { rewrite <- (map_map snd ref_inst), collect_calls_numbered, numbered_refs, !map_map.
    cbn. now apply NoDup_map_filter. }
  exists landing, caller, p1, p2, p', fn', callsites.
  split; [exact Hcreate|]. split; [exact Hland|]. split; [exact Hloop|].
  split.
  { unfold add_landing_globals_body, get_function. rewrite Hfind. cbn [obind].
    unfold isDeclaration. rewrite Hblocks. cbn [negb]. rewrite Hcreate. cbn [obind].
    rewrite Hland. cbn [obind]. exact Hloop. }
  split; [exact Hfind'|]. split.
  { rewrite Hglobals. apply in_or_app. left. unfold m3. cbn. now rewrite Hg2, Hg1'. }
  split; [exact Hglobals|].
  eapply Forall2_impl_In_l; [exact Hall|]. cbn beta.
  intros nr g Hnr (Hrec & o & Ho & Hoid & Hd).
  destruct (Hcollected nr Hnr) as (pre & i & post & callee & E & Hs & Hr & Hn & Hc & Hi).
  assert (Eo : o = i).
  { apply (NoDup_map_eq inst_id _ _ _ HndIL Ho Hi). rewrite Hoid, Hr. reflexivity. }
  subst o. exists pre, i, post. repeat split; auto.
  rewrite Hn in Hrec |- *. now rewrite Z.mod_mod in Hrec by lia.
Qed.

(** C5. For every call collected in a target function definition, the
    loop body of [add_landing_globals] creates a call-site record that
    holds the call's number and the function's landing site, and leaves the
    call decorated: right before it, in its block, the old target cast to
    [i8*], the call of [_drti_call_from] with the record, the caller handle
    of the landing code and the old target, the load of field 5 of the tree
    node answered, that pointer cast to the type of the old target, and the
    call of [_drti_set_caller] with the tree node.  The call that follows
    is the collected call rewritten: its callee is the cast pointer, a value
    of the type of the old callee, its opcode is [call notail] with the
    arguments of the old call (an [invoke] or [callbr] keeps arguments and
    destinations), and its handle, name and result type are the old
    ones. *)
Theorem decorate_calls_decorates_every_collected_call :
  exists landing caller p1 p2 p' fn',
    create_landing_global function p = Ok (landing, p1) /\
    add_landing_update function landing p1 = Ok (caller, p2) /\
    add_landing_globals_body function p = Ok p' /\
    find_function function (m_module p') = Some fn' /\
    In landing (mod_globals (m_module p')) /\
    forall n r, In (n, r) (collect_calls fn p) ->
      exists original callsite,
        In original (fn_insts fn) /\ r = ref_of fn original /\
        In callsite (mod_globals (m_module p')) /\
        is_callsite_record callsite_type landing n callsite /\
        call_decorated (m_module p') fn' call_from (global_value callsite) caller original.
Proof.
  destruct add_landing_globals_body_spec
    as (landing & caller & p1 & p2 & p' & fn' & callsites & Hcreate & Hland & _ & Hbody &
        Hfind' & Hl & Hglobals & Hall).
  exists landing, caller, p1, p2, p', fn'. repeat split; auto.
  intros n r Hnr. destruct (Forall2_In_l _ _ _ _ Hall Hnr)
    as (g & Hg & pre & original & post & E & _ & Hr & _ & Hrec & Hd).
  exists original, g. repeat split; auto.
  - rewrite E. apply in_or_app. right. now left.
  - rewrite Hglobals. apply in_or_app. now right.
  - now apply decorated_call_rewritten.
Qed.

(** C1. Every call-site record that the decoration of a target function
    definition creates belongs to a call of the function as it was before
    the landing code and the decorations went in, and the number it stores
    is the position of that call among the calls of the function that are
    not inline asm, counted from 0 block after block and instruction after
    instruction, as a 32-bit unsigned number: the position itself for a
    function with no more than 2^32 such calls. *)
Theorem callsite_ordinal_is_call_position :
  exists landing caller p1 p2 p' fn' callsites,
    create_landing_global function p = Ok (landing, p1) /\
    add_landing_update function landing p1 = Ok (caller, p2) /\
    add_landing_globals_body function p = Ok p' /\
    find_function function (m_module p') = Some fn' /\
    mod_globals (m_module p') = mod_globals (m_module p2) ++ callsites /\
    forall g, In g callsites ->
      exists n pre original post,
        fn_insts fn = pre ++ original :: post /\
        is_callsite_record callsite_type landing n g /\
        decorated_call (m_module p') fn' call_from (global_value g) caller original /\
        nth_error (call_insts fn) (call_position pre) = Some original /\
        n = (Z.of_nat (call_position pre) mod 2 ^ 32)%Z /\
        ((Z.of_nat (length (call_insts fn)) <= 2 ^ 32)%Z ->
         n = Z.of_nat (call_position pre)).
Proof.
  destruct add_landing_globals_body_spec
    as (landing & caller & p1 & p2 & p' & fn' & callsites & Hcreate & Hland & _ & Hbody &
        Hfind' & _ & Hglobals & Hall).
  exists landing, caller, p1, p2, p', fn', callsites. repeat split; auto.
  intros g Hg. destruct (Forall2_In_r _ _ _ _ Hall Hg)
    as ([n r] & Hnr & pre & original & post & E & Hs & _ & Hn & Hrec & Hd).
  cbn [fst] in Hn, Hrec. apply selects_counted in Hs.
  exists n, pre, original, post. unfold call_insts. rewrite E. repeat split; auto.
  - now apply call_position_nth.
  - intros Hle. rewrite Hn. apply Z.mod_small.
    pose proof (call_position_bound pre original post Hs). lia.
Qed.

End DecorationTheorems.

(** ** The instrumentation on the demonstration module *)

Lemma snapshot_is_the_linked_stripped_module_witness :
  exists bitcode_global,
    In bitcode_global (mod_globals Demo.decorated) /\
    ~ In bitcode_global (mod_globals (stripped Demo.linked)) /\
    gv_name bitcode_global = "__drti_bitcode" /\
    gv_init bitcode_global = Some (VDataArray (Demo.write (stripped Demo.linked))).
Proof.
  destruct (@snapshot_is_the_linked_stripped_module (Demo.externals Demo.support)
              Demo.env Demo.module Demo.support Demo.linked Demo.decorated)
    as ((bitcode_global & _ & _ & _ & Hin & Hnew & Hname & Hinit & _) & _).
  - reflexivity.
  - reflexivity.
  - reflexivity.
  - vm_compute. reflexivity.
  - vm_compute. reflexivity.
  - exists bitcode_global. auto.
Defined.


Lemma decorate_calls_decorates_every_collected_call_witness :
  exists landing caller p' fn' original callsite,
    @add_landing_globals_body (Demo.externals Demo.support) 10 Demo.ready = Ok p' /\
    find_function 10 (m_module p') = Some fn' /\
    In original (fn_insts Demo.ready_hot_fn) /\
    inst_id original = inst_id Demo.pointer_call /\
    In callsite (mod_globals (m_module p')) /\
    is_callsite_record Demo.t_callsite landing 2 callsite /\
    call_decorated (m_module p') fn' Demo.call_from (global_value callsite) caller original.
Proof.
  destruct (@decorate_calls_decorates_every_collected_call (Demo.externals Demo.support)
              Demo.ready 10 Demo.ready_hot_fn
              Demo.entry [] [Demo.slot] Demo.asm_call
              [Demo.helper_call; Demo.other_call; Demo.fp; Demo.pointer_call; Demo.ret]
              Demo.ret Demo.t_treenode Demo.landed Demo.call_from
              Demo.t_treenode Demo.i8p Demo.t_callsite (TArray 32 (TInt 8)) Demo.t_landing
              Demo.self_global)
    as (landing & caller & p1 & p2 & p' & fn' & _ & _ & Hbody & Hfind & _ & Hall).
  - vm_compute. reflexivity.
  - reflexivity.
  - reflexivity.
  - repeat constructor.
  - reflexivity.
  - reflexivity.
  - vm_compute. distinct_handles.
  - vm_compute. distinct_handles.
  - vm_compute. distinct_handles.
  - vm_compute. distinct_handles.
  - vm_compute. reflexivity.
  - vm_compute. reflexivity.
  - vm_compute. reflexivity.
  - reflexivity.
  - vm_compute. reflexivity.
  - vm_compute. reflexivity.
  - vm_compute. reflexivity.
  - vm_compute. reflexivity.
  - vm_compute. reflexivity.
  - destruct (Hall 2%Z (ref_of Demo.ready_hot_fn Demo.pointer_call))
      as (original & callsite & Ho & Hr & Hcs & Hrec & Hd).
    { vm_compute. right. left. reflexivity. }
    exists landing, caller, p', fn', original, callsite. repeat split; auto.
    now injection Hr.
Defined.

Lemma callsite_ordinal_is_call_position_witness :
  exists landing caller p' fn' callsites,
    @add_landing_globals_body (Demo.externals Demo.support) 10 Demo.ready = Ok p' /\
    find_function 10 (m_module p') = Some fn' /\
    forall g, In g callsites ->
      exists n pre original post,
        fn_insts Demo.ready_hot_fn = pre ++ original :: post /\
        is_callsite_record Demo.t_callsite landing n g /\
        decorated_call (m_module p') fn' Demo.call_from (global_value g) caller original /\
        nth_error (call_insts Demo.ready_hot_fn) (call_position pre) = Some original /\
        n = Z.of_nat (call_position pre).
Proof.
  destruct (@callsite_ordinal_is_call_position (Demo.externals Demo.support)
              Demo.ready 10 Demo.ready_hot_fn
              Demo.entry [] [Demo.slot] Demo.asm_call
              [Demo.helper_call; Demo.other_call; Demo.fp; Demo.pointer_call; Demo.ret]
              Demo.ret Demo.t_treenode Demo.landed Demo.call_from
              Demo.t_treenode Demo.i8p Demo.t_callsite (TArray 32 (TInt 8)) Demo.t_landing
              Demo.self_global)
    as (landing & caller & p1 & p2 & p' & fn' & callsites & _ & _ & Hbody & Hfind & _ & Hall).
  - vm_compute. reflexivity.
  - reflexivity.
  - reflexivity.
  - repeat constructor.
  - reflexivity.
  - reflexivity.
  - vm_compute. distinct_handles.
  - vm_compute. distinct_handles.
  - vm_compute. distinct_handles.
  - vm_compute. distinct_handles.
  - vm_compute. reflexivity.
  - vm_compute. reflexivity.
  - vm_compute. reflexivity.
  - reflexivity.
  - vm_compute. reflexivity.
  - vm_compute. reflexivity.
  - vm_compute. reflexivity.
  - vm_compute. reflexivity.
  - vm_compute. reflexivity.
  - exists landing, caller, p', fn', callsites. repeat split; auto.
    intros g Hg. destruct (Hall g Hg)
      as (n & pre & original & post & E & Hrec & Hd & Hnth & _ & Hn).
    exists n, pre, original, post. repeat split; auto.
    apply Hn. vm_compute. discriminate.
Defined.

(** Entered from plain code, the landing code of [hot_fn] in the decorated
    module answers the null caller and calls nothing but
    [llvm.returnaddress]. *)
Example landing_code_entered_from_plain_code :
  option_map (fun fn' => Exec.run_to 4 Demo.plain_world Demo.decorated fn' 12)
             (find_function 10 Demo.decorated) =
  Some (Some (0%Z, [("llvm.returnaddress", [0%Z])])).
Proof. vm_compute. reflexivity. Qed.

(** The two call-site records of [hot_fn] in the decorated module hold the
    numbers 0 and 2: the call of [other] between the two decorated calls is
    counted, the inline asm before them is not. *)
Example callsite_numbers_of_hot_fn :
  map gv_init
      (List.filter (fun g => ty_eqb (gv_value_type g) Demo.t_callsite)
                   (mod_globals Demo.decorated)) =
  [Some (VConstStruct Demo.t_callsite
           [VConstInt 64 0; VGlobalVar 6 Demo.t_landing; VConstInt 32 0;
            VAggregateZero (TArray 32 (TInt 8))]);
   Some (VConstStruct Demo.t_callsite
           [VConstInt 64 0; VGlobalVar 6 Demo.t_landing; VConstInt 32 2;
            VAggregateZero (TArray 32 (TInt 8))])].
Proof. vm_compute. reflexivity. Qed.

(** * Further properties *)

(** ** The words of a target list *)

Section WordsFacts.
Import Config.

Lemma append_cons (c : ascii) (a b : string) : String c a +:+ b = String c (a +:+ b).
Proof. reflexivity. Qed.

Lemma append_nil_r (s : string) : s +:+ "" = s.
Proof.
  induction s as [|c s IH]; [reflexivity|]. now rewrite append_cons, IH.
Qed.

Lemma append_assoc (a b c : string) : (a +:+ b) +:+ c = a +:+ (b +:+ c).
Proof.
  induction a as [|x a IH]; [reflexivity|]. now rewrite !append_cons, IH.
Qed.

Lemma chars_append (a b : string) : chars (a +:+ b) = chars a ++ chars b.
Proof.
  induction a as [|x a IH]; [reflexivity|]. rewrite append_cons. cbn. f_equal. exact IH.
Qed.

Lemma eqb_empty (s : string) : String.eqb s "" = true <-> s = "".
Proof. apply String.eqb_eq. Qed.

Lemma append_snoc_nonempty (cur : string) (c : ascii) :
  String.eqb (cur +:+ String c "") "" = false.
Proof. destruct cur; reflexivity. Qed.

(** A word extracted after [cur] has been read either lies in what is left
    of the input, or starts with [cur] and goes on with the input. *)
Lemma words_from_inside (s cur w : string) :
  In w (words_from cur s) ->
  (exists before after, s = before +:+ w +:+ after) \/
  (cur <> "" /\ exists more after, w = cur +:+ more /\ s = more +:+ after).
Proof.
  revert cur. induction s as [|c rest IH]; intros cur; cbn [words_from].
  - destruct (String.eqb cur "") eqn:E; [intros []|].
    intros [<-|[]]. right. split.
    + intros ->. discriminate.
    + exists "", "". now rewrite append_nil_r.
  - destruct (isspace c).
    + assert (Hrest : In w (words_from "" rest) ->
                      exists before after, String c rest = before +:+ w +:+ after).
      { intros Hin. destruct (IH _ Hin) as [(b & a & ->)|(Hne & _)]; [|congruence].
        now exists (String c b), a. }
      destruct (String.eqb cur "") eqn:E; [auto|].
      intros [<-|Hin]; [|auto]. right. split.
      * intros ->. discriminate.
      * exists "", (String c rest). now rewrite append_nil_r.
    + intros Hin. destruct (IH _ Hin) as [(b & a & ->)|(_ & more & after & -> & ->)].
      * left. now exists (String c b), a.
      * destruct (String.eqb cur "") eqn:E.
        -- apply eqb_empty in E as ->. left. exists "", after. cbn.
           now rewrite append_assoc.
        -- right. split; [intros ->; discriminate|].
           exists (String c more), after. split; [|reflexivity].
           now rewrite append_assoc.
Qed.

Lemma words_from_clean (s cur w : string) :
  Forall (fun c => isspace c = false) (chars cur) ->
  In w (words_from cur s) -> is_word w.
Proof.
  revert cur. induction s as [|c rest IH]; intros cur Hcur; cbn [words_from].
  - destruct (String.eqb cur "") eqn:E; [intros []|].
    intros [<-|[]]. split; [|exact Hcur]. intros ->. discriminate.
  - destruct (isspace c) eqn:Ec.
    + destruct (String.eqb cur "") eqn:E.
      * apply IH. constructor.
      * intros [<-|Hin].
        -- split; [|exact Hcur]. intros ->. discriminate.
        -- revert Hin. apply IH. constructor.
    + apply IH. rewrite chars_append. apply Forall_app. split; [exact Hcur|].
      cbn. constructor; [exact Ec|constructor].
Qed.

Lemma words_from_blank (s : string) :
  Forall (fun c => isspace c = true) (chars s) -> words_from "" s = [].
Proof.
  induction s as [|c rest IH]; cbn; [reflexivity|].
  intros H. apply List.Forall_cons_iff in H as [Hc Hrest]. rewrite Hc. cbn. auto.
Qed.

(** X1.  What [split_stream] adds to the set are words of the stream: each
    is not empty, holds no white space and stands in the stream as it is;
    a stream that is empty or all white space adds nothing. *)
Theorem split_stream_adds_words :
  forall (stream : string) (symbols : gset string),
    (forall x, x ∈ split_stream stream symbols -> x ∉ symbols ->
               is_word x /\ mentions stream x) /\
    (Forall (fun c => isspace c = true) (chars stream) ->
     split_stream stream symbols = symbols).
Proof.
  intros stream symbols. split.
  - intros x Hx Hnew. apply split_stream_elem in Hx as [Hw|Hacc]; [|tauto].
    split.
    + apply (words_from_clean stream "" x); [constructor | exact Hw].
    + destruct (words_from_inside stream "" x Hw) as [H|(Hne & _)]; [exact H|congruence].
  - intros Hblank. unfold split_stream, words. now rewrite words_from_blank.
Qed.

Lemma words_from_word (w rest cur : string) :
  Forall (fun c => isspace c = false) (chars w) ->
  words_from cur (w +:+ rest) = words_from (cur +:+ w) rest.
Proof.
  revert cur. induction w as [|c w IH]; intros cur Hw.
  - now rewrite append_nil_r.
  - apply List.Forall_cons_iff in Hw as [Hc Hw].
    rewrite append_cons. cbn [words_from]. rewrite Hc, IH by exact Hw.
    now rewrite append_assoc.
Qed.

Lemma words_unwords (ws : list string) :
  Forall is_word ws -> words (unwords ws) = ws.
Proof.
  unfold words. induction ws as [|w ws IH]; intros Hws; [reflexivity|].
  apply List.Forall_cons_iff in Hws as [[Hne Hw] Hws].
  assert (Hnb : String.eqb w "" = false) by (now apply String.eqb_neq).
  destruct ws as [|w' ws].
  - cbn [unwords]. rewrite <- (append_nil_r w) at 1.
    rewrite words_from_word by exact Hw. change ("" +:+ w) with w.
    cbn [words_from]. now rewrite Hnb.
  - change (unwords (w :: w' :: ws)) with (w +:+ " " +:+ unwords (w' :: ws)).
    rewrite words_from_word by exact Hw. change ("" +:+ w) with w.
    rewrite append_cons. cbn [words_from].
    change (isspace " ") with true. cbn iota. rewrite Hnb. f_equal. now apply IH.
Qed.

(** X2.  A target list written as names with blanks between them is read
    back as these names: with [DRTI_TARGET_NAMES] set to it and no names
    file, [targets_from_environment] answers with the set of the names. *)
Theorem targets_from_environment_reads_back_names :
  forall (env : Env) (ws : list string),
    ws <> [] ->
    Forall is_word ws ->
    getenv env "DRTI_TARGET_NAMES" = Some (unwords ws) ->
    getenv env "DRTI_TARGETS_FILE" = None ->
    targets_from_environment env = Ok (list_to_set ws).
Proof.
  intros env ws Hne Hws Hnames Hfile.
  assert (Hset : after_file env (after_names env) = list_to_set ws).
  { apply leibniz_equiv. intros x. rewrite after_file_after_names_elem.
    unfold configured_names. rewrite Hnames, Hfile, app_nil_r, words_unwords by exact Hws.
    rewrite elem_of_list_to_set. symmetry. apply list_elem_of_In. }
  unfold targets_from_environment. cbv zeta. rewrite Hset.
  case_bool_decide as Hdec; [|reflexivity].
  exfalso. destruct ws as [|w ws]; [congruence|].
  assert (Hin : w ∈ (list_to_set (w :: ws) : gset string)).
  { apply elem_of_list_to_set. now left. }
  rewrite Hdec in Hin. exact (not_elem_of_empty w Hin).
Qed.

(** X3.  A names file that cannot be opened is passed over in silence: the
    answer is the one for the same environment with [DRTI_TARGETS_FILE]
    unset, so that the pass goes on with the names of [DRTI_TARGET_NAMES]
    alone, and aborts with the message about missing targets, not about the
    file, when that list holds no name. *)
Theorem targets_from_environment_unreadable_file :
  forall (env : Env) (path : string),
    getenv env "DRTI_TARGETS_FILE" = Some path ->
    file_contents env path = None ->
    targets_from_environment env =
    targets_from_environment
      {| getenv := fun name =>
           if String.eqb name "DRTI_TARGETS_FILE" then None else getenv env name;
         file_contents := file_contents env |} /\
    (forall names, targets_from_environment env = Ok names ->
       exists list, getenv env "DRTI_TARGET_NAMES" = Some list /\
                    forall x, x ∈ names <-> In x (words list)) /\
    (match getenv env "DRTI_TARGET_NAMES" with
     | Some list => words list = []
     | None => True
     end -> targets_from_environment env = Fatal no_targets_message).
Proof.
  intros env path Hvar Hfile.
  assert (Hset : forall x, x ∈ after_file env (after_names env) <->
                           In x match getenv env "DRTI_TARGET_NAMES" with
                                | Some list => words list
                                | None => []
                                end).
  { intros x. rewrite after_file_after_names_elem. unfold configured_names.
    now rewrite Hvar, Hfile, app_nil_r. }
  split; [|split].
  - unfold targets_from_environment, after_file, after_names. cbn.
    now rewrite Hvar, Hfile.
  - unfold targets_from_environment. cbv zeta.
    case_bool_decide as Hdec; [discriminate|]. intros names [= <-].
    destruct (getenv env "DRTI_TARGET_NAMES") as [list|] eqn:El.
    + exists list. split; [reflexivity|exact Hset].
    + exfalso. apply Hdec. apply leibniz_equiv. intros x. rewrite Hset.
      pose proof (not_elem_of_empty (C:=gset string) x). cbn. tauto.
  - intros Hnone. unfold targets_from_environment. cbv zeta.
    case_bool_decide as Hdec; [reflexivity|].
    exfalso. apply Hdec. apply leibniz_equiv. intros x. rewrite Hset.
    pose proof (not_elem_of_empty (C:=gset string) x).
    destruct (getenv env "DRTI_TARGET_NAMES"); [rewrite Hnone|]; cbn; tauto.
Qed.

End WordsFacts.

(** ** The pass as a whole: how it ends *)

Section RunOutcomes.
Context `{ext : !Externals}.

(** X4.  On a module for the supported target the pass needs a target list:
    when the two sources supply no name it aborts with the message of
    [targets_from_environment], whatever the module holds. *)
Theorem runOnModule_without_configuration_aborts :
  forall (env : Config.Env) (module : Module),
    mod_triple module = "x86_64-unknown-linux-gnu" ->
    Config.configured_names env = [] ->
    snd (runOnModule env module) = Fatal Config.no_targets_message.
Proof.
  intros env module Htriple Hnone.
  unfold runOnModule. rewrite Htriple. cbn.
  unfold Config.targets_from_environment. cbv zeta.
  apply empty_iff_no_names in Hnone. rewrite Hnone.
  case_bool_decide as Hdec; [reflexivity|congruence].
Qed.

(** X5.  A module in which no function bears a target name is of no
    interest: the pass answers false and hands the module back as it was,
    without reading the support bitcode. *)
Theorem runOnModule_no_target_function :
  forall (env : Config.Env) (module : Module) (names : gset string),
    mod_triple module = "x86_64-unknown-linux-gnu" ->
    Config.targets_from_environment env = Ok names ->
    (forall f, In f (mod_functions module) -> fn_name f ∉ names) ->
    snd (runOnModule env module) = Ok (false, module).
Proof.
  intros env module names Htriple Hnames Hnone.
  unfold runOnModule. rewrite Htriple. cbn. rewrite Hnames. cbn.
  destruct (find_target_functions (DecoratePass_new names module)) as [found d] eqn:Ef.
  assert (Hd : m_module d = module).
  { pose proof (find_target_functions_module (DecoratePass_new names module)) as Hr.
    now rewrite Ef in Hr. }
  destruct found; cbn; [|now rewrite Hd].
  exfalso.
  assert (Hin : forall h, In h (m_target_functions d) -> False).
  { intros h Hh.
    pose proof (find_target_functions_fold names (mod_functions module) ([], [])) as [Hf _].
    unfold find_target_functions in Ef. cbn in Ef.
    destruct (fold_left _ _ _) as [fs ts] eqn:Efold. cbn in Hf.
    injection Ef as _ <-. cbn in Hh.
    apply Hf in Hh as [[]|(f & Hfin & _ & Hname)]. exact (Hnone f Hfin Hname). }
  unfold find_target_functions in Ef. cbn in Ef.
  destruct (fold_left _ _ _) as [fs ts]. injection Ef as Eb <-. cbn in Hin.
  destruct fs as [|h fs]; [discriminate Eb|]. apply (Hin h). now left.
Qed.

(** X6.  When the support module cannot be added, nothing is decorated: a
    support bitcode that does not parse aborts the pass with the parser's
    error, and a failed link makes it answer false with the module as the
    linker left it. *)
Theorem runOnModule_support_not_added :
  forall (env : Config.Env) (module : Module) (names : gset string),
    mod_triple module = "x86_64-unknown-linux-gnu" ->
    Config.targets_from_environment env = Ok names ->
    fst (find_target_functions (DecoratePass_new names module)) = true ->
    (forall err, parse_support_bitcode = inl err ->
                 snd (runOnModule env module) = Fatal err) /\
    (forall support left_by_linker,
       parse_support_bitcode = inr support ->
       linkInModule module support = (true, left_by_linker) ->
       snd (runOnModule env module) = Ok (false, left_by_linker)).
Proof.
  intros env module names Htriple Hnames Hfound.
  assert (Hrun : snd (runOnModule env module) =
                 obind (add_helpers (set_module module
                          (snd (find_target_functions (DecoratePass_new names module)))))
                   (fun '(linked, decorator) =>
                      if negb linked then Ok (false, m_module decorator)
                      else
                        let '(ok, decorator) := lookup_helpers decorator in
                        if negb ok then Ok (true, m_module decorator)
                        else
                          do decorator <- create_self decorator;
                          do decorator <- add_landing_globals decorator;
                          Ok (true, setTargetTriple "x86_64_drti-unknown-linux-gnu"
                                      (m_module decorator)))).
  { unfold runOnModule. rewrite Htriple. cbn. rewrite Hnames. cbn.
    destruct (find_target_functions (DecoratePass_new names module)) as [found d] eqn:Ef.
    cbn in Hfound. subst found. cbn.
    assert (Hd : m_module d = module).
    { pose proof (find_target_functions_module (DecoratePass_new names module)) as Hr.
      now rewrite Ef in Hr. }
    replace (set_module module d) with d; [reflexivity|].
    destruct d. cbn in Hd. now subst. }
  rewrite Hrun. unfold add_helpers. cbn. split.
  - intros err ->. reflexivity.
  - intros support left_by_linker -> ->. reflexivity.
Qed.

(** X7.  A module the pass has decorated is not decorated again: it carries
    the triple [x86_64_drti-unknown-linux-gnu], and a further run of the
    pass on it reads no configuration, answers false and hands it back as
    it is. *)
Theorem runOnModule_decorates_once :
  forall (env : Config.Env) (module support linked module' : Module),
    mod_triple module = "x86_64-unknown-linux-gnu" ->
    parse_support_bitcode = inr support ->
    linkInModule module support = (false, linked) ->
    InlineHelpers_ok (InlineHelpers_new linked) = true ->
    snd (runOnModule env module) = Ok (true, module') ->
    mod_triple module' = "x86_64_drti-unknown-linux-gnu" /\
    forall env', runOnModule env' module' = ([], Ok (false, module')).
Proof.
  intros env module support linked module' Htriple Hparse Hlink Hok Hrun.
  assert (Ht : mod_triple module' = "x86_64_drti-unknown-linux-gnu").
  { unfold runOnModule in Hrun. rewrite Htriple in Hrun. cbn in Hrun.
    destruct (Config.targets_from_environment env) as [names| |]; cbn in Hrun;
      try discriminate Hrun.
    destruct (find_target_functions (DecoratePass_new names module)) as [found d] eqn:Ef.
    assert (Hd : m_module d = module).
    { pose proof (find_target_functions_module (DecoratePass_new names module)) as Hr.
      now rewrite Ef in Hr. }
    destruct found; cbn in Hrun; [|discriminate Hrun].
    unfold add_helpers in Hrun. rewrite Hparse, Hd, Hlink in Hrun. cbn in Hrun.
    unfold lookup_helpers in Hrun. cbn in Hrun. rewrite Hok in Hrun. cbn in Hrun.
    repeat step_ok Hrun. now injection Hrun as <-. }
  split; [exact Ht|]. intros env'. unfold runOnModule. now rewrite Ht.
Qed.

End RunOutcomes.

(** ** What the instrumentation leaves alone *)

Lemma same_header_refl f : same_header f f.
Proof. unfold same_header. auto. Qed.

Lemma same_header_trans f1 f2 f3 :
  same_header f1 f2 -> same_header f2 f3 -> same_header f1 f3.
Proof. unfold same_header. intuition congruence. Qed.

Lemma splitBasicBlock_header this I name f New f' :
  splitBasicBlock this I name f = Ok (New, f') -> same_header f f'.
Proof.
  unfold splitBasicBlock. destruct (getTerminator this); [|discriminate].
  destruct (negb _); [discriminate|]. intros [= _ <-]. unfold same_header. auto.
Qed.

Lemma BasicBlock_Create_header name f b f' :
  BasicBlock_Create name f = (b, f') -> same_header f f'.
Proof. unfold BasicBlock_Create. intros [= _ <-]. unfold same_header. auto. Qed.

Lemma get_function_ok h m f : get_function h m = Ok f -> find_function h m = Some f.
Proof. unfold get_function. destruct (find_function h m); [now intros [= ->]|discriminate]. Qed.

Lemma edits_only_refl h m : edits_only h m m.
Proof.
  unfold edits_only. split; [apply kept_refl|]. split; [auto|].
  intros f Hf. exists f. split; [exact Hf|apply same_header_refl].
Qed.

Lemma edits_only_trans h m1 m2 m3 :
  edits_only h m1 m2 -> edits_only h m2 m3 -> edits_only h m1 m3.
Proof.
  intros (K1 & O1 & S1) (K2 & O2 & S2). split; [eapply kept_trans; eauto|].
  split; [auto|]. intros f Hf. destruct (S1 f Hf) as (f' & Hf' & H1).
  destruct (S2 f' Hf') as (f'' & Hf'' & H2). exists f''. split; [exact Hf''|].
  eapply same_header_trans; eauto.
Qed.

Lemma edits_only_same_functions h m m' :
  kept m m' -> mod_functions m' = mod_functions m -> edits_only h m m'.
Proof.
  intros K E. split; [exact K|]. unfold find_function. rewrite E. split; [auto|].
  intros f Hf. exists f. split; [exact Hf|apply same_header_refl].
Qed.

Lemma new_GlobalVariable_edits_only h t c l init name before m g m' :
  new_GlobalVariable t c l init name before m = (g, m') -> edits_only h m m'.
Proof.
  intros H. apply edits_only_same_functions.
  - exact (new_GlobalVariable_kept _ _ _ _ _ _ _ _ _ H).
  - now apply new_GlobalVariable_globals in H as (_ & _ & Hf & _).
Qed.

Lemma getOrInsertFunction_edits_only h name fty m v m' :
  getOrInsertFunction name fty m = (v, m') -> edits_only h m m'.
Proof.
  intros H. split; [exact (getOrInsertFunction_kept _ _ _ _ _ H)|]. split.
  - intros h0 f _. exact (getOrInsertFunction_find _ _ _ _ _ _ _ H).
  - intros f Hf. exists f. split; [|apply same_header_refl].
    exact (getOrInsertFunction_find _ _ _ _ _ _ _ H Hf).
Qed.

Lemma update_function_edits_only h fl m f :
  find_function h m = Some f -> same_header f fl ->
  edits_only h m (update_function h (fun _ => fl) m).
Proof.
  intros Hf (Hid & Hname & Htype & Hattrs).
  assert (Hh : fn_id fl = h) by (apply find_function_some in Hf; lia).
  split; [now apply (update_function_kept h fl m f)|]. split.
  - intros h0 f0 Hne Hf0. now rewrite find_function_update_other.
  - intros f0 Hf0. rewrite Hf in Hf0. injection Hf0 as <-. exists fl. split.
    + exact (find_function_update_same h (fun _ => fl) m f Hf Hh).
    + unfold same_header. auto.
Qed.

Section LeavesAlone.
Context `{ext : !Externals}.

Lemma create_callsite_global_edits_only h function landing n p g p' :
  create_callsite_global function landing n p = Ok (g, p') ->
  edits_only h (m_module p) (m_module p').
Proof.
  unfold create_callsite_global. intros H. repeat step_ok H.
  injection H as <- <-. cbn.
  match goal with
  | E : new_GlobalVariable _ _ _ _ _ _ _ = _ |- _ =>
      exact (new_GlobalVariable_edits_only _ _ _ _ _ _ _ _ _ _ E)
  end.
Qed.

Lemma create_landing_global_edits_only h function p g p' :
  create_landing_global function p = Ok (g, p') ->
  edits_only h (m_module p) (m_module p').
Proof.
  unfold create_landing_global. intros H. repeat step_ok H.
  injection H as <- <-. cbn.
  repeat match goal with
    | E : new_GlobalVariable _ _ _ _ _ _ _ = _ |- _ =>
        apply (new_GlobalVariable_edits_only h) in E
    end.
  eauto using edits_only_trans.
Qed.

Lemma decorate_call_edits_only caller callInst callsite p p' :
  decorate_call caller callInst callsite p = Ok p' ->
  edits_only (ref_function callInst) (m_module p) (m_module p').
Proof.
  unfold decorate_call. intros H. repeat step_ok H.
  injection H as <-. cbn [m_module set_module].
  match goal with
  | E : get_function _ _ = Ok ?fn |- _ => apply get_function_ok in E; rename E into Hfind
  end.
  match goal with
  | E : getOrInsertFunction _ _ _ = _ |- _ =>
      pose proof (getOrInsertFunction_edits_only (ref_function callInst) _ _ _ _ _ E) as Hdecl;
      pose proof (getOrInsertFunction_find _ _ _ _ _ _ _ E Hfind) as Hfind'
  end.
  eapply edits_only_trans; [exact Hdecl|].
  eapply update_function_edits_only; [exact Hfind'|]. unfold same_header. auto.
Qed.

Lemma add_landing_update_edits_only function landing p caller p' :
  add_landing_update function landing p = Ok (caller, p') ->
  edits_only function (m_module p) (m_module p').
Proof.
  unfold add_landing_update. intros H. repeat step_ok H.
  injection H as <- <-. cbn [m_module set_module].
  match goal with
  | E : get_function _ _ = Ok ?fn |- _ => apply get_function_ok in E; rename E into Hfind
  end.
  repeat match goal with
    | E : getOrInsertFunction _ _ ?m = _, F : find_function function ?m = Some _ |- _ =>
        pose proof (getOrInsertFunction_find _ _ _ _ _ _ _ E F);
        apply (getOrInsertFunction_edits_only function) in E
    end.
  match goal with
  | E : splitBasicBlock _ _ _ _ = Ok _ |- _ => apply splitBasicBlock_header in E
  end.
  repeat match goal with
    | E : BasicBlock_Create _ _ = _ |- _ => apply BasicBlock_Create_header in E
    end.
  eapply edits_only_trans; [eassumption|].
  eapply edits_only_trans; [eassumption|].
  eapply update_function_edits_only; [eassumption|].
  eapply same_header_trans; [eassumption|].
  eapply same_header_trans; [eassumption|].
  eapply same_header_trans; [eassumption|]. unfold same_header. auto.
Qed.

End LeavesAlone.

Lemma strip_markers_header (f : Function) :
  fn_id (strip_markers f) = fn_id f /\ fn_name (strip_markers f) = fn_name f /\
  fn_type (strip_markers f) = fn_type f /\ fn_blocks (strip_markers f) = fn_blocks f.
Proof.
  unfold strip_markers. destruct (isIntrinsic f); [auto|].
  destruct (isDeclaration f); auto.
Qed.

Lemma find_function_stripped (h : ptr) (m : Module) :
  find_function h (stripped m) = option_map strip_markers (find_function h m).
Proof.
  unfold find_function, stripped. cbn.
  induction (mod_functions m) as [|f fs IH]; cbn; [reflexivity|].
  destruct (strip_markers_header f) as (-> & _). destruct (Nat.eqb (fn_id f) h); auto.
Qed.

Lemma stripped_kept (m : Module) : kept m (stripped m).
Proof.
  unfold kept. repeat split; auto.
  intros h f Hf. rewrite find_function_stripped, Hf. cbn. exists (strip_markers f).
  destruct (strip_markers_header f) as (_ & Hn & Ht & _). auto.
Qed.

Section LeavesAloneLoop.
Context `{ext : !Externals}.

Lemma decorate_calls_edits_only h collected caller landing :
  forall p p',
    Forall (fun nr => ref_function (snd nr) = h) collected ->
    decorate_calls collected caller landing p = Ok p' ->
    edits_only h (m_module p) (m_module p').
Proof.
  induction collected as [|[n r] rest IH]; intros p p' Hrefs H; cbn in H.
  - injection H as <-. apply edits_only_refl.
  - apply List.Forall_cons_iff in Hrefs as [Hr Hrest]. cbn in Hr. repeat step_ok H.
    eapply edits_only_trans;
      [eapply create_callsite_global_edits_only; eassumption|].
    eapply edits_only_trans; [|eapply IH; eassumption].
    rewrite <- Hr. eapply decorate_call_edits_only; eassumption.
Qed.

Lemma collect_calls_refs (fn : Function) (p : DecoratePass) :
  Forall (fun nr => ref_function (snd nr) = fn_id fn) (collect_calls fn p).
Proof.
  apply List.Forall_forall. intros [n r] Hnr. rewrite collect_calls_numbered in Hnr.
  apply numbered_In in Hnr as (_ & i & _ & _ & _ & -> & _). reflexivity.
Qed.

Lemma add_landing_globals_body_edits_only function p p' :
  add_landing_globals_body function p = Ok p' ->
  edits_only function (m_module p) (m_module p') /\
  (forall f, find_function function (m_module p) = Some f -> isDeclaration f = true ->
             p' = p).
Proof.
  unfold add_landing_globals_body. intros H. step_ok H.
  apply get_function_ok in E. rename E into Hfind.
  assert (Hid : fn_id a = function) by (now apply find_function_some in Hfind).
  destruct (isDeclaration a) eqn:Ed; cbn [negb] in H.
  - injection H as <-. split; [apply edits_only_refl|auto].
  - split; [|intros f Hf; rewrite Hfind in Hf; injection Hf as <-; congruence].
    repeat step_ok H.
    eapply edits_only_trans; [eapply create_landing_global_edits_only; eassumption|].
    eapply edits_only_trans; [eapply add_landing_update_edits_only; eassumption|].
    eapply decorate_calls_edits_only; [|eassumption].
    rewrite <- Hid. apply collect_calls_refs.
Qed.

Lemma for_each_function_leaves_alone functions :
  forall p p',
    for_each_function functions p = Ok p' ->
    kept (m_module p) (m_module p') /\
    (forall h f, find_function h (m_module p) = Some f ->
       ~ In h functions \/ isDeclaration f = true ->
       find_function h (m_module p') = Some f) /\
    (forall h f, find_function h (m_module p) = Some f ->
       exists f', find_function h (m_module p') = Some f' /\ same_header f f').
Proof.
  induction functions as [|h1 rest IH]; intros p p' H; cbn in H.
  - injection H as <-. split; [apply kept_refl|]. split; [auto|].
    intros h f Hf. exists f. split; [exact Hf|apply same_header_refl].
  - step_ok H. rename a into p1.
    destruct (add_landing_globals_body_edits_only _ _ _ E) as ((K1 & O1 & S1) & D1).
    destruct (IH _ _ H) as (K2 & O2 & S2).
    split; [eapply kept_trans; eauto|]. split.
    + intros h f Hf Hwhy. apply O2.
      * destruct (Nat.eq_dec h h1) as [->|Hne]; [|now apply O1].
        destruct Hwhy as [Hnot|Hdecl]; [exfalso; apply Hnot; now left|].
        now rewrite (D1 f Hf Hdecl).
      * destruct Hwhy as [Hnot|Hdecl]; [left; intros Hin; apply Hnot; now right|now right].
    + intros h f Hf.
      assert (H1 : exists f1, find_function h (m_module p1) = Some f1 /\ same_header f f1).
      { destruct (Nat.eq_dec h h1) as [->|Hne]; [now apply S1|].
        exists f. split; [now apply O1|apply same_header_refl]. }
      destruct H1 as (f1 & Hf1 & Hh1). destruct (S2 h f1 Hf1) as (f2 & Hf2 & Hh2).
      exists f2. split; [exact Hf2|]. eapply same_header_trans; eauto.
Qed.

Lemma create_self_functions (p p' : DecoratePass) :
  create_self p = Ok p' ->
  mod_functions (m_module p') = mod_functions (stripped (m_module p)) /\
  kept (stripped (m_module p)) (m_module p') /\
  m_target_functions p' = m_target_functions p.
Proof.
  unfold create_self. intros H.
  destruct (collect_globals p) as [globals p1] eqn:Ecg.
  assert (Hm : m_module p1 = stripped (m_module p)).
  { rewrite <- collect_globals_module. now rewrite Ecg. }
  assert (Ht : m_target_functions p1 = m_target_functions p).
  { unfold collect_globals in Ecg. now injection Ecg as _ <-. }
  unfold raw_bitcode in H. rewrite Hm in H. repeat step_ok H.
  injection H as <-. cbn [m_module m_target_functions].
  split; [|split; [|exact Ht]].
  - repeat match goal with
      | E : new_GlobalVariable _ _ _ _ _ _ _ = _ |- _ =>
          apply new_GlobalVariable_globals in E; destruct E as (_ & _ & ? & _)
      end.
    congruence.
  - repeat match goal with
      | E : new_GlobalVariable _ _ _ _ _ _ _ = _ |- _ =>
          apply new_GlobalVariable_kept in E
      end.
    eauto using kept_trans.
Qed.

(** What a full run of the pass reaches [add_landing_globals] with, and
    what it answers with then. *)
Lemma runOnModule_decorated (env : Config.Env) (module support linked module' : Module) :
  mod_triple module = "x86_64-unknown-linux-gnu" ->
  parse_support_bitcode = inr support ->
  linkInModule module support = (false, linked) ->
  InlineHelpers_ok (InlineHelpers_new linked) = true ->
  snd (runOnModule env module) = Ok (true, module') ->
  exists names ready final,
    Config.targets_from_environment env = Ok names /\
    create_self (snd (lookup_helpers
                        (set_module linked
                           (snd (find_target_functions (DecoratePass_new names module))))))
      = Ok ready /\
    add_landing_globals ready = Ok final /\
    module' = setTargetTriple "x86_64_drti-unknown-linux-gnu" (m_module final).
Proof.
  intros Htriple Hparse Hlink Hok Hrun.
  unfold runOnModule in Hrun. rewrite Htriple in Hrun. cbn in Hrun.
  destruct (Config.targets_from_environment env) as [names| |]; cbn in Hrun;
    try discriminate Hrun.
  destruct (find_target_functions (DecoratePass_new names module)) as [found d] eqn:Ef.
  assert (Hd : m_module d = module).
  { pose proof (find_target_functions_module (DecoratePass_new names module)) as Hr.
    now rewrite Ef in Hr. }
  destruct found; cbn in Hrun; [|discriminate Hrun].
  unfold add_helpers in Hrun. rewrite Hparse, Hd, Hlink in Hrun. cbn in Hrun.
  unfold lookup_helpers in Hrun. cbn in Hrun. rewrite Hok in Hrun. cbn in Hrun.
  repeat step_ok Hrun. injection Hrun as <-.
  exists names. eexists _, _. split; [reflexivity|].
  split; [|split; [eassumption|reflexivity]].
  rewrite Ef. exact E.
Qed.

(** X8.  The pass deletes nothing: in a module it has decorated, every
    global variable of the linked module is still there, every struct type
    too, and every function handle of the linked module still finds a
    function of the same name and type. *)
Theorem runOnModule_deletes_nothing :
  forall (env : Config.Env) (module support linked module' : Module),
    mod_triple module = "x86_64-unknown-linux-gnu" ->
    parse_support_bitcode = inr support ->
    linkInModule module support = (false, linked) ->
    InlineHelpers_ok (InlineHelpers_new linked) = true ->
    snd (runOnModule env module) = Ok (true, module') ->
    mod_struct_types module' = mod_struct_types linked /\
    (forall g, In g (mod_globals linked) -> In g (mod_globals module')) /\
    (forall h f, find_function h linked = Some f ->
       exists f', find_function h module' = Some f' /\
                  fn_name f' = fn_name f /\ fn_type f' = fn_type f).
Proof.
  intros env module support linked module' Htriple Hparse Hlink Hok Hrun.
  destruct (runOnModule_decorated env module support linked module'
              Htriple Hparse Hlink Hok Hrun)
    as (names & ready & final & _ & Hself & Hland & ->).
  apply create_self_functions in Hself as (_ & Kself & _). cbn in Kself.
  apply for_each_function_leaves_alone in Hland as (Kland & _).
  pose proof (kept_trans _ _ _ (stripped_kept linked) (kept_trans _ _ _ Kself Kland))
    as (Hs & Hg & _ & Hf).
  split; [exact Hs|]. split; [exact Hg|exact Hf].
Qed.

(** X9.  Only target function definitions are instrumented: a function of
    the linked module that is a declaration, or whose handle target
    discovery did not record, is in the decorated module what it was, but
    for the [optnone] and [noinline] markers every definition loses. *)
Theorem runOnModule_instruments_target_definitions_only :
  forall (env : Config.Env) (module support linked module' : Module) (names : gset string),
    mod_triple module = "x86_64-unknown-linux-gnu" ->
    Config.targets_from_environment env = Ok names ->
    parse_support_bitcode = inr support ->
    linkInModule module support = (false, linked) ->
    InlineHelpers_ok (InlineHelpers_new linked) = true ->
    (forall l h, In h (dense_order l) -> In h l) ->
    snd (runOnModule env module) = Ok (true, module') ->
    forall h f,
      find_function h linked = Some f ->
      isDeclaration f = true \/
      ~ In h (m_target_functions
                (snd (find_target_functions (DecoratePass_new names module)))) ->
      find_function h module' = Some (strip_markers f).
Proof.
  intros env module support linked module' names Htriple Hnames Hparse Hlink Hok Horder
    Hrun h f Hf Hwhy.
  destruct (runOnModule_decorated env module support linked module'
              Htriple Hparse Hlink Hok Hrun)
    as (names' & ready & final & Hnames' & Hself & Hland & ->).
  rewrite Hnames in Hnames'. injection Hnames' as <-.
  apply create_self_functions in Hself as (Fself & _ & Tself). cbn in Fself, Tself.
  apply for_each_function_leaves_alone in Hland as (_ & Oland & _).
  change (find_function h (setTargetTriple "x86_64_drti-unknown-linux-gnu" (m_module final)))
    with (find_function h (m_module final)).
  apply Oland.
  - transitivity (find_function h (stripped linked)).
    + unfold find_function. now rewrite Fself.
    + now rewrite find_function_stripped, Hf.
  - destruct Hwhy as [Hdecl|Hnot].
    + right. unfold isDeclaration in *.
      destruct (strip_markers_header f) as (_ & _ & _ & ->). exact Hdecl.
    + left. intros Hin. apply Horder in Hin. rewrite Tself in Hin. exact (Hnot Hin).
Qed.

End LeavesAloneLoop.

(** ** The globals table and the markers *)

Lemma fn_attr_eqb_eq (a b : fn_attr) : fn_attr_eqb a b = true <-> a = b.
Proof.
  destruct a, b; cbn; try (split; [discriminate|congruence]); try tauto.
  rewrite String.eqb_eq. split; congruence.
Qed.

Lemma removeFnAttr_attrs (a x : fn_attr) (f : Function) :
  In x (fn_attrs (removeFnAttr a f)) <-> In x (fn_attrs f) /\ x <> a.
Proof.
  unfold removeFnAttr. cbn. rewrite List.filter_In, negb_true_iff.
  split; intros [Hin Hne]; split; auto.
  - intros ->. assert (H : fn_attr_eqb a a = true) by (now apply fn_attr_eqb_eq).
    congruence.
  - destruct (fn_attr_eqb a x) eqn:E; [|reflexivity].
    apply fn_attr_eqb_eq in E. congruence.
Qed.

Section GlobalsTable.
Context `{ext : !Externals}.

Lemma collect_globals_result (p : DecoratePass) :
  fst (collect_globals p) =
  map global_value (visit_listed_globals (m_module p)) ++
  map function_value (extern_functions (m_module p)).
Proof.
  unfold collect_globals, extern_functions. cbn [fst]. f_equal.
  induction (mod_functions (m_module p)) as [|f fs IH]; cbn; [reflexivity|].
  rewrite IH. destruct (isIntrinsic f); cbn; [reflexivity|].
  destruct (isDeclaration f); reflexivity.
Qed.

(** X10.  [collect_globals] takes [optnone] and [noinline] off every
    function definition that is no intrinsic and touches nothing else: each
    function keeps its handle, name, type, blocks and every other
    attribute, and declarations and intrinsics keep these two as well. *)
Theorem collect_globals_strips_definitions :
  forall (p : DecoratePass) (h : ptr) (f : Function),
    find_function h (m_module p) = Some f ->
    exists f',
      find_function h (m_module (snd (collect_globals p))) = Some f' /\
      fn_id f' = fn_id f /\ fn_name f' = fn_name f /\ fn_type f' = fn_type f /\
      fn_blocks f' = fn_blocks f /\
      (forall a, In a (fn_attrs f') <->
                 In a (fn_attrs f) /\
                 (isIntrinsic f = false -> isDeclaration f = false ->
                  a <> OptimizeNone /\ a <> NoInline)).
Proof.
  intros p h f Hf. exists (strip_markers f).
  rewrite collect_globals_module, find_function_stripped, Hf.
  destruct (strip_markers_header f) as (Hid & Hname & Htype & Hblocks).
  split; [reflexivity|]. do 4 (split; [assumption|]).
  intros a. unfold strip_markers.
  destruct (isIntrinsic f); [intuition discriminate|].
  destruct (isDeclaration f); [intuition discriminate|].
  rewrite !removeFnAttr_attrs. intuition.
Qed.

(** X11.  The table of addresses that [create_self] embeds holds, as
    [i8*], the listed global variables and then the functions of the module
    that are declarations and no intrinsics, in the order of the module: no
    function definition is in it; the [__drti_self] record points to the
    table and holds the number of its entries. *)
Theorem create_self_globals_table :
  forall (p p' : DecoratePass),
    create_self p = Ok p' ->
    exists table self bitcode_pointer bitcode_size,
      In table (mod_globals (m_module p')) /\
      gv_name table = "__drti_globals" /\
      gv_constant table = true /\
      gv_init table =
        Some (VConstArray (TPtr (TInt 8))
                (map (fun g => ConstantExpr_getBitCast g (TPtr (TInt 8)))
                     (map global_value (visit_listed_globals (m_module p)) ++
                      map function_value (extern_functions (m_module p))))) /\
      m_reflect_global p' = Some self /\
      In self (mod_globals (m_module p')) /\
      gv_init self =
        Some (VConstStruct (gv_value_type self)
                [bitcode_pointer; bitcode_size;
                 ConstantExpr_getBitCast (global_value table) (TPtr (TPtr (TInt 8)));
                 ConstantInt_get 64
                   (Z.of_nat (length (visit_listed_globals (m_module p)) +
                              length (extern_functions (m_module p))))]).
Proof.
  intros p p'. unfold create_self. intros H.
  pose proof (collect_globals_result p) as Hres.
  destruct (collect_globals p) as [globals p1] eqn:Ecg. cbn [fst] in Hres.
  repeat step_ok H. injection H as <-. cbn [m_module m_reflect_global].
  repeat match goal with
    | E : new_GlobalVariable _ _ _ _ _ _ _ = _ |- _ =>
        apply new_GlobalVariable_globals in E;
        destruct E as (? & ? & _ & _ & _ & _ & ? & ? & ? & _ & ?)
    end.
  eexists g0, g1, _, _. repeat split; eauto.
  - rewrite <- Hres. assumption.
  - match goal with
    | Ht : gv_value_type g1 = _, Hi : gv_init g1 = _ |- _ => rewrite Hi, Ht
    end.
    rewrite length_map, Hres, length_app, !length_map. reflexivity.
Qed.

End GlobalsTable.

(** ** Landing instrumentation: the entry block *)

Lemma last_Forall {A} (P : A -> Prop) (l : list A) (x : A) :
  Forall P l -> last l = Some x -> P x.
Proof.
  induction l as [|a l IH]; [discriminate|]. intros H Hl.
  apply List.Forall_cons_iff in H as [Ha H]. destruct l as [|b l].
  - now injection Hl as <-.
  - apply IH; assumption.
Qed.

Lemma first_index_none {A} (f : A -> bool) (l : list A) :
  Forall (fun x => f x = false) l -> first_index f l = None.
Proof.
  induction 1 as [|x l Hx Hl IH]; cbn; [reflexivity|]. now rewrite Hx, IH.
Qed.

Lemma alloca_not_terminator (i : Instruction) : is_alloca i = true -> is_terminator i = false.
Proof. unfold is_alloca, is_terminator. now destruct (inst_op i). Qed.

Section EntryBlock.
Context `{ext : !Externals}.

(** X12.  A target function whose entry block holds nothing but [alloca]
    instructions (or nothing at all) has no point to split at:
    [add_landing_update] aborts the pass, and the message names the
    function. *)
Theorem add_landing_update_malformed_entry :
  forall (function : ptr) (landing : GlobalVariable) (p : DecoratePass)
         (fn : Function) (entry : BasicBlock) (others : list BasicBlock),
    find_function function (m_module p) = Some fn ->
    fn_blocks fn = entry :: others ->
    Forall (fun i => is_alloca i = true) (bb_insts entry) ->
    add_landing_update function landing p =
    Fatal ("drti-decorate: Malformed entry block in function " +:+ fn_name fn).
Proof.
  intros function landing p fn entry others Hfind Hblocks Hall.
  unfold add_landing_update, get_function. rewrite Hfind. cbn [obind].
  unfold getEntryBlock. rewrite Hblocks. cbn [obind].
  rewrite first_index_none.
  - assert (Ht : getTerminator entry = None).
    { unfold getTerminator. destruct (last (bb_insts entry)) as [i|] eqn:El; [|reflexivity].
      pose proof (last_Forall _ _ _ Hall El) as Hi. cbn in Hi.
      now rewrite (alloca_not_terminator i Hi). }
    now rewrite Ht.
  - eapply List.Forall_impl; [|exact Hall]. cbn. now intros i ->.
Qed.

(** X13.  [add_landing_update] moves the body, it does not rewrite it: the
    [alloca] instructions that lead the entry block stay there, followed by
    landing code that holds no [alloca]; the first other instruction and
    all that follows it stand, as they were, in [drti_land1] right behind
    the PHI node whose value is the caller handle answered; the function
    keeps its handle, name, type and attributes. *)
Theorem add_landing_update_moves_the_body :
  forall (function : ptr) (landing : GlobalVariable) (p : DecoratePass)
         (fn : Function) (entry : BasicBlock) (others : list BasicBlock)
         (allocas : list Instruction) (first : Instruction) (rest : list Instruction)
         (TI : Instruction) (tn : ty) (landed : Function),
    find_function function (m_module p) = Some fn ->
    fn_blocks fn = entry :: others ->
    bb_insts entry = allocas ++ first :: rest ->
    Forall (fun i => is_alloca i = true) allocas ->
    is_alloca first = false ->
    is_phi first = false ->
    getTerminator entry = Some TI ->
    List.NoDup (map bb_id (fn_blocks fn)) ->
    inline_field m_drti_treenode_type p = Ok tn ->
    inline_field m_drti_landed p = Ok landed ->
    exists caller p' fn' entry' land1 more phi code,
      add_landing_update function landing p = Ok (caller, p') /\
      find_function function (m_module p') = Some fn' /\
      same_header fn fn' /\
      fn_blocks fn' = entry' :: land1 :: more /\
      bb_id entry' = bb_id entry /\ bb_name entry' = bb_name entry /\
      bb_insts entry' = allocas ++ code /\
      Forall (fun i => is_alloca i = false) code /\
      bb_name land1 = "drti_land1" /\
      bb_insts land1 = phi :: first :: rest /\
      is_phi phi = true /\ the_use phi = caller.
Proof.
  intros function landing p fn entry others allocas first rest TI tn landed
    Hfind Hblocks Hinsts Hall Hfirst Hphi HTI Hnd Htn Hlanded.
  destruct (getOrInsertFunction "llvm.returnaddress" (TFunc (TPtr (TInt 8)) [TInt 32] false)
              (m_module p)) as [builtinRet m1] eqn:Eret.
  destruct (getOrInsertFunction "_drti_caller" (TFunc (TPtr tn) [] false) m1)
    as [drtiCaller m2] eqn:Ecaller.
  pose proof (add_landing_update_normal_form function landing p fn entry others allocas
                first rest TI tn landed Hfind Hblocks Hinsts Hall Hfirst HTI Hnd Htn Hlanded
                builtinRet m1 drtiCaller m2 Eret Ecaller) as Hland.
  assert (Hid : fn_id fn = function) by (now apply find_function_some in Hfind).
  assert (Hfind2 : find_function function m2 = Some fn).
  { apply (getOrInsertFunction_find _ _ _ _ _ _ _ Ecaller).
    exact (getOrInsertFunction_find _ _ _ _ _ _ _ Eret Hfind). }
  set (FL := set_blocks (landed_blocks fn entry others allocas (first :: rest) TI builtinRet
                           drtiCaller tn landed landing) fn) in *.
  eexists _, _, FL, _, _, _, _, _. split; [exact Hland|].
  split.
  { cbn [m_module set_module].
    exact (find_function_update_same function (fun _ => FL) m2 fn Hfind2 Hid). }
  split; [unfold same_header; cbn; auto|].
  split; [unfold FL, landed_blocks; cbn [fn_blocks set_blocks app]; reflexivity|].
  cbn [bb_id bb_name bb_insts set_insts].
  split; [reflexivity|]. split; [reflexivity|]. split; [reflexivity|].
  split.
  { unfold landing_entry_code. destruct and_folded; repeat constructor. }
  split; [reflexivity|]. split.
  { unfold patch_phis. cbn [bb_id bb_insts set_insts].
    destruct (existsb _ _); cbn [bb_insts set_insts]; [|reflexivity].
    now rewrite replacePhiUsesWith_not_phi. }
  split; reflexivity.
Qed.

End EntryBlock.

(** ** Landing instrumentation: the two tests in numbers *)

Section LandingTests.
Context `{ext : !Externals}.
Variable w : Exec.World.

(** X14.  With [DRTI_RETALIGN] a power of two, the test of the entry block
    (the return address and-ed with [DRTI_RETALIGN - 1] is zero) passes
    exactly when the return address is a multiple of [DRTI_RETALIGN]. *)
Theorem return_address_aligned_iff_multiple :
  forall k : Z,
    (0 <= k < 64)%Z ->
    DRTI_RETALIGN = (2 ^ k)%Z ->
    (0 <= return_address w)%Z ->
    (return_address_aligned w = true <-> (return_address w mod DRTI_RETALIGN = 0)%Z).
Proof.
  intros k Hk HR Hra. unfold return_address_aligned, ret_align_mask. rewrite HR.
  assert (Hlt : (0 < 2 ^ k < 2 ^ 64)%Z).
  { split; [apply Z.pow_pos_nonneg; lia|apply Z.pow_lt_mono_r; lia]. }
  rewrite (Z.mod_small (2 ^ k - 1)) by lia.
  replace (2 ^ k - 1)%Z with (Z.ones k) by (rewrite Z.ones_equiv; lia).
  rewrite Z.land_ones by lia. apply Z.eqb_eq.
Qed.

(** X15.  With [DRTI_RETALIGN] a multiple of 8 (the source asserts it), the
    word the probe loads is the one [DRTI_RETALIGN] bytes before the return
    address, the index of the [getelementptr] being an unsigned 64-bit
    number notwithstanding. *)
Theorem probe_address_before_return_address :
  (0 < DRTI_RETALIGN < 2 ^ 64)%Z ->
  (DRTI_RETALIGN mod 8 = 0)%Z ->
  probe_address w = ((return_address w - DRTI_RETALIGN) mod 2 ^ 64)%Z.
Proof.
  intros Hrange Hmul. unfold probe_address, probe_index.
  apply Z.mod_divide in Hmul; [|lia]. destruct Hmul as [q Hq].
  assert (Hneg : ((- DRTI_RETALIGN) mod 2 ^ 64 = 2 ^ 64 - DRTI_RETALIGN)%Z).
  { symmetry. apply (Z.mod_unique _ _ (-1)); lia. }
  rewrite Hneg.
  assert (Hdiv : ((2 ^ 64 - DRTI_RETALIGN) / 8 = 2 ^ 61 - q)%Z).
  { rewrite Hq. replace (2 ^ 64 - q * 8)%Z with ((2 ^ 61 - q) * 8)%Z by lia.
    apply Z.div_mul. lia. }
  rewrite Hdiv, (Z.mod_small (2 ^ 61 - q)) by lia.
  replace (return_address w + (2 ^ 61 - q) * 8)%Z
    with (return_address w - DRTI_RETALIGN + 1 * 2 ^ 64)%Z by lia.
  apply Z.mod_add. lia.
Qed.

End LandingTests.

(** ** Helper lookup *)

Lemma getTypeByName_some (name : string) (m : Module) (t : ty) :
  getTypeByName name m = Some t -> t = TStruct name.
Proof.
  unfold getTypeByName. destruct (find _ _); [now intros [= <-]|discriminate].
Qed.

Lemma getFunction_some (name : string) (m : Module) (f : Function) :
  getFunction name m = Some f -> In f (mod_functions m) /\ fn_name f = name.
Proof.
  unfold getFunction. intros H. apply find_some in H as [Hin Hn].
  now apply String.eqb_eq in Hn.
Qed.

(** X16.  When [lookup_helpers] answers true, none of the six helpers that
    the later steps dereference is null: the four struct types are the
    named types of the module, and the two routines are functions of the
    module of the names [_drti_landed] and [_drti_call_from]. *)
Theorem lookup_helpers_true_gives_helpers :
  forall p : DecoratePass,
    fst (lookup_helpers p) = true ->
    m_module (snd (lookup_helpers p)) = m_module p /\
    inline_field m_drti_landing_site_type (snd (lookup_helpers p)) =
      Ok (TStruct "struct.drti::landing_site") /\
    inline_field m_drti_callsite_type (snd (lookup_helpers p)) =
      Ok (TStruct "struct.drti::static_callsite") /\
    inline_field m_drti_treenode_type (snd (lookup_helpers p)) =
      Ok (TStruct "struct.drti::treenode") /\
    inline_field m_drti_reflect_type (snd (lookup_helpers p)) =
      Ok (TStruct "struct.drti::reflect") /\
    (exists landed,
       inline_field m_drti_landed (snd (lookup_helpers p)) = Ok landed /\
       In landed (mod_functions (m_module p)) /\ fn_name landed = "_drti_landed") /\
    (exists call_from,
       inline_field m_drti_call_from (snd (lookup_helpers p)) = Ok call_from /\
       In call_from (mod_functions (m_module p)) /\ fn_name call_from = "_drti_call_from").
Proof.
  intros p. unfold lookup_helpers, InlineHelpers_ok, InlineHelpers_new, inline_field.
  cbn [fst snd m_module m_inline m_drti_landing_site_type m_drti_callsite_type
       m_drti_treenode_type m_drti_reflect_type m_drti_landed m_drti_call_from].
  destruct (getTypeByName "struct.drti::landing_site" _) as [t1|] eqn:E1;
    [|discriminate].
  destruct (getTypeByName "struct.drti::static_callsite" _) as [t2|] eqn:E2;
    [|discriminate].
  destruct (getTypeByName "struct.drti::treenode" _) as [t3|] eqn:E3; [|discriminate].
  destruct (getTypeByName "struct.drti::reflect" _) as [t4|] eqn:E4; [|discriminate].
  destruct (getFunction "_drti_landed" _) as [f1|] eqn:E5; [|discriminate].
  destruct (getFunction "_drti_call_from" _) as [f2|] eqn:E6; [|discriminate].
  intros _.
  apply getTypeByName_some in E1, E2, E3, E4. subst.
  apply getFunction_some in E5, E6.
  split; [reflexivity|]. do 4 (split; [reflexivity|]). split; eauto.
Qed.

(** ** Call collection: numbers and targets *)

Section CollectMore.
Variable p : DecoratePass.
Variable function : Function.

Lemma next_call_number_nat (k : nat) (i : Instruction) :
  next_call_number (Z.of_nat k mod 2 ^ 32) i =
  (Z.of_nat (k + call_position [i]) mod 2 ^ 32)%Z.
Proof. exact (call_number_after_position [i] k). Qed.

Lemma numbered_bounds (l : list Instruction) (k : nat) (x : Z) :
  (Z.of_nat (k + call_position l) <= 2 ^ 32)%Z ->
  In x (map fst (numbered p function (Z.of_nat k mod 2 ^ 32) l)) ->
  (Z.of_nat k <= x < Z.of_nat (k + call_position l))%Z.
Proof.
  intros Hle Hin. apply in_map_iff in Hin as ([n r] & <- & Hin). cbn [fst].
  apply numbered_In in Hin as (pre & i & post & -> & Hs & _ & ->).
  apply selects_counted in Hs. rewrite call_number_after_position.
  assert (Hpos : call_position (pre ++ i :: post) =
                 call_position pre + S (call_position post)).
  { unfold call_position. rewrite List.filter_app, length_app. cbn [List.filter].
    now rewrite Hs. }
  rewrite Hpos in *. rewrite Z.mod_small; lia.
Qed.

Lemma numbered_sorted (l : list Instruction) :
  forall k : nat,
    (Z.of_nat (k + call_position l) <= 2 ^ 32)%Z ->
    StronglySorted Z.lt (map fst (numbered p function (Z.of_nat k mod 2 ^ 32) l)).
Proof.
  induction l as [|i l IH]; intros k Hle; [constructor|].
  cbn [numbered]. rewrite next_call_number_nat.
  assert (Hpos : call_position (i :: l) = call_position [i] + call_position l).
  { unfold call_position. cbn [List.filter]. destruct (is_counted_call i); reflexivity. }
  rewrite Hpos in Hle.
  assert (Hrest : StronglySorted Z.lt
                    (map fst (numbered p function
                                (Z.of_nat (k + call_position [i]) mod 2 ^ 32) l))).
  { apply IH. lia. }
  destruct (selects p i) eqn:Hs; cbn [app map fst]; [|exact Hrest].
  constructor; [exact Hrest|]. apply List.Forall_forall. intros x Hx.
  apply selects_counted in Hs.
  assert (H1 : call_position [i] = 1) by (unfold call_position; cbn; now rewrite Hs).
  apply numbered_bounds in Hx; [|lia]. rewrite Z.mod_small; lia.
Qed.

(** X17.  In a function with no more than 2^32 calls that are not inline
    asm, the numbers of the collected calls grow along the list
    [collect_calls] answers with, and stay below the count of these calls:
    no two collected calls of a function share a number. *)
Theorem collect_calls_numbers_increase :
  (Z.of_nat (length (call_insts function)) <= 2 ^ 32)%Z ->
  StronglySorted Z.lt (map fst (collect_calls function p)) /\
  List.NoDup (map fst (collect_calls function p)) /\
  forall n, In n (map fst (collect_calls function p)) ->
            (0 <= n < Z.of_nat (length (call_insts function)))%Z.
Proof.
  intros Hle. rewrite collect_calls_numbered.
  assert (Hsorted : StronglySorted Z.lt
                      (map fst (numbered p function 0 (fn_insts function)))).
  { exact (numbered_sorted (fn_insts function) 0 Hle). }
  split; [exact Hsorted|]. split.
  - clear Hle. induction Hsorted as [|x l Hl IH Hx]; constructor; [|exact IH].
    intros Hin. rewrite List.Forall_forall in Hx. specialize (Hx x Hin). lia.
  - intros n Hn. exact (numbered_bounds (fn_insts function) 0 n Hle Hn).
Qed.

End CollectMore.

(** X18.  After target discovery on a module, call collection takes every
    call whose callee is a function of the module with a target name, and
    every call through a pointer of the type of such a function that is
    neither inline asm nor a function; it takes no direct call of a
    function of the module without a target name. *)
Theorem calls_of_discovered_targets_are_collected :
  forall (names : gset string) (module : Module) (fn : Function) (i : Instruction)
         (f : Function),
    List.NoDup (map inst_id (fn_insts fn)) ->
    In i (fn_insts fn) ->
    In f (mod_functions module) ->
    fn_name f ∈ names ->
    (called_operand i = Some (function_value f) ->
     selected fn (snd (find_target_functions (DecoratePass_new names module))) i) /\
    (forall v, called_operand i = Some v ->
               value_type v = TPtr (fn_type f) ->
               is_inline_asm v = false ->
               (forall g t, v <> VFunction g t) ->
               selected fn (snd (find_target_functions (DecoratePass_new names module))) i) /\
    (forall g, List.NoDup (map fn_id (mod_functions module)) ->
               In g (mod_functions module) ->
               fn_name g ∉ names ->
               called_operand i = Some (function_value g) ->
               ~ selected fn (snd (find_target_functions (DecoratePass_new names module))) i).
Proof.
  intros names module fn i f HndI Hi Hf Hname.
  set (p := snd (find_target_functions (DecoratePass_new names module))).
  pose proof (find_target_functions_fold names (mod_functions module) ([], [])) as [Hfs Hts].
  assert (Htargets : forall h, In h (m_target_functions p) <->
                       exists f0, In f0 (mod_functions module) /\ fn_id f0 = h /\
                                  fn_name f0 ∈ names).
  { intros h. unfold p, find_target_functions. cbn. rewrite Hfs. cbn. tauto. }
  assert (Htypes : forall t, In t (m_target_function_types p) <->
                     exists f0, In f0 (mod_functions module) /\ fn_type f0 = t /\
                                fn_name f0 ∈ names).
  { intros t. unfold p, find_target_functions. cbn. rewrite Hts. cbn. tauto. }
  split; [|split].
  - intros Hc. apply (selected_iff_selects p fn i HndI Hi), (selects_iff p i _ Hc).
    split; [reflexivity|]. split.
    + unfold type_matches. cbn. apply Htypes. eauto.
    + intros (g & t & [= <- <-] & Hnot). apply Hnot, Htargets. eauto.
  - intros v Hc Hty Hasm Hptr.
    apply (selected_iff_selects p fn i HndI Hi), (selects_iff p i _ Hc).
    split; [exact Hasm|]. split.
    + unfold type_matches. rewrite Hty. cbn. apply Htypes. eauto.
    + intros (g & t & -> & _). exact (Hptr g t eq_refl).
  - intros g HndF Hg Hgname Hc Hsel.
    apply (selected_iff_selects p fn i HndI Hi), (selects_iff p i _ Hc) in Hsel
      as (_ & _ & Hknown).
    apply Hknown. exists (fn_id g), (fn_type g). split; [reflexivity|].
    intros Hin. apply Htargets in Hin as (f0 & Hf0 & Hid & Hn0).
    assert (E : f0 = g) by exact (NoDup_map_eq fn_id _ _ _ HndF Hf0 Hg Hid).
    subst f0. exact (Hgname Hn0).
Qed.

(** ** Call decoration: what the call keeps *)

Lemma cast_yields_length (op : cast_op) (v : value) (t : ty) (code : list Instruction)
    (v' : value) :
  cast_yields op v t code v' -> length code <= 1.
Proof.
  intros [(-> & _)|[(-> & _)|(c & -> & _)]]; cbn; lia.
Qed.

Lemma decorate_fn_insts (F : Function) (original : Instruction) (code : list Instruction)
    (newTarget : value) :
  List.NoDup (map inst_id (fn_insts F)) ->
  In original (fn_insts F) ->
  map inst_id code = seq (fresh_inst F) (length code) ->
  exists P Q,
    fn_insts F = P ++ original :: Q /\
    fn_insts (decorate_fn (inst_id original) code newTarget F) =
      P ++ code ++
      setTailCallKind_if_CallInst TCK_NoTail (setCalledOperand newTarget original) :: Q.
Proof.
  intros Hnd Hin Hids.
  assert (Hcode : Forall (fun j => inst_id j <> inst_id original) code).
  { apply List.Forall_forall. intros j Hj.
    assert (Hb : In (inst_id j) (seq (fresh_inst F) (length code))).
    { rewrite <- Hids. now apply in_map. }
    apply in_seq in Hb. pose proof (fresh_inst_bound F original Hin). lia. }
  destruct (decorate_insts_blocks (inst_id original) code newTarget Hcode
              (map bb_insts (fn_blocks F)) original Hnd Hin eq_refl)
    as (LL1 & before & after & LL2 & P & Q & HLL & HT & HP & HQ).
  exists P, Q. split; [exact HP|].
  unfold fn_insts at 1, decorate_fn. cbn [fn_blocks set_blocks].
  rewrite map_map. cbn [bb_insts set_insts].
  rewrite <- (map_map bb_insts (decorate_insts (inst_id original) code newTarget)).
  exact HQ.
Qed.

Section DecorateKeeps.
Context `{ext : !Externals}.

(** X19.  [decorate_call] changes of the call its callee and its tail-call
    kind, nothing else: the function then holds a call of the old handle,
    name and result type, with the old arguments (and, for an [invoke] or a
    [callbr], the old destinations), whose callee is a value of the very
    type of the old callee and which, if a [call], is [notail]; between
    four and six instructions are added to the function, and every other
    instruction of the function is still there as it was. *)
Theorem decorate_call_keeps_the_call :
  forall (caller : value) (r : inst_ref) (callsite : GlobalVariable) (p : DecoratePass)
         (fn : Function) (inst : Instruction) (callee : value)
         (call_from : Function) (node field : ty),
    find_function (ref_function r) (m_module p) = Some fn ->
    List.NoDup (map inst_id (fn_insts fn)) ->
    In inst (fn_insts fn) ->
    inst_id inst = ref_inst r ->
    called_operand inst = Some callee ->
    inline_field m_drti_call_from p = Ok call_from ->
    func_ret (fn_type call_from) = TPtr node ->
    struct_element_type (m_module p) node 5 = Some field ->
    exists p' fn' newTarget call',
      decorate_call caller r callsite p = Ok p' /\
      find_function (ref_function r) (m_module p') = Some fn' /\
      same_header fn fn' /\
      In call' (fn_insts fn') /\
      call_rewritten inst call' callee newTarget /\
      (forall j, In j (fn_insts fn) -> inst_id j <> inst_id inst -> In j (fn_insts fn')) /\
      List.NoDup (map inst_id (fn_insts fn')) /\
      4 <= length (fn_insts fn') - length (fn_insts fn) <= 6.
Proof.
  intros caller r callsite p fn inst callee call_from node field
    Hfind HndI Hin Hid Hop Hcf Hret Hfield.
  assert (Hfound : find (fun i => Nat.eqb (inst_id i) (ref_inst r)) (fn_insts fn) = Some inst).
  { rewrite <- Hid. now apply find_by_id. }
  destruct (decorate_call_normal_form caller r callsite p fn inst callee call_from node field
              Hfind Hfound Hop Hcf Hret Hfield)
    as (code & newTarget & set_caller & m' & Hget & Hdec & Hshape & Hids).
  rewrite <- Hid in *.
  destruct (decorate_fn_facts fn inst code newTarget HndI Hin Hids)
    as (HndI' & Hkeep & Hseg & _).
  set (fn' := decorate_fn (inst_id inst) code newTarget fn) in *.
  assert (Hh : fn_id fn = ref_function r) by (now apply find_function_some in Hfind).
  exists (set_module (update_function (ref_function r) (fun _ => fn') m') p), fn', newTarget,
    (setTailCallKind_if_CallInst TCK_NoTail (setCalledOperand newTarget inst)).
  split; [exact Hdec|]. split.
  { cbn [m_module set_module].
    apply (find_function_update_same _ (fun _ => fn') m' fn); [|exact Hh].
    exact (getOrInsertFunction_find _ _ _ _ _ _ _ Hget Hfind). }
  split; [unfold same_header; cbn; auto|].
  destruct Hshape as (cast1 & oldTarget & tn & gep & ld & cast2 & sc & Hcode & Hy1 & _ &
                      _ & _ & Hy2 & _).
  split.
  { destruct Hseg as (b & x & y & Hb & Hbi). apply (fn_insts_In fn' b); [exact Hb|].
    rewrite Hbi. apply in_or_app. right. apply in_or_app. left.
    apply in_or_app. right. now left. }
  split.
  { apply setters_rewrite_call; [exact Hop|]. exact (cast_yields_type _ _ _ _ _ Hy2). }
  split; [exact Hkeep|]. split; [exact HndI'|].
  destruct (decorate_fn_insts fn inst code newTarget HndI Hin Hids) as (P & Q & HP & HQ).
  fold fn' in HQ. rewrite HP, HQ, !length_app. cbn [length].
  assert (H1 : length cast1 <= 1) by exact (cast_yields_length _ _ _ _ _ Hy1).
  assert (H2 : length cast2 <= 1) by exact (cast_yields_length _ _ _ _ _ Hy2).
  rewrite Hcode, !length_app. cbn [length]. lia.
Qed.

End DecorateKeeps.

(** ** Landing sites *)

Section LandingSites.
Context `{ext : !Externals}.

(** X20.  [create_landing_global] adds three internal global variables and
    changes nothing else: the landing-site record, not constant, named
    [_drti_landing_] followed by the name of the function, and two constant
    strings with their terminating NUL, this name and the name of the
    function; the record starts with a zero count, points to the two
    strings as [i8*] and to the [__drti_self] record of [create_self]. *)
Theorem create_landing_global_record :
  forall (function : ptr) (p p' : DecoratePass) (landing : GlobalVariable) (fn : Function),
    find_function function (m_module p) = Some fn ->
    create_landing_global function p = Ok (landing, p') ->
    exists name_global function_name_global self landing_site_type,
      m_reflect_global p = Some self /\
      inline_field m_drti_landing_site_type p = Ok landing_site_type /\
      gv_name landing = "_drti_landing_" +:+ fn_name fn /\
      gv_constant landing = false /\ gv_linkage landing = InternalLinkage /\
      gv_value_type landing = landing_site_type /\
      gv_init landing =
        Some (VConstStruct landing_site_type
                [VConstInt 64 0;
                 ConstantExpr_getBitCast (global_value name_global) (TPtr (TInt 8));
                 ConstantExpr_getBitCast (global_value function_name_global) (TPtr (TInt 8));
                 global_value self]) /\
      gv_constant name_global = true /\ gv_linkage name_global = InternalLinkage /\
      gv_init name_global =
        Some (VDataArray (list_byte_of_string ("_drti_landing_" +:+ fn_name fn) ++ [x00])) /\
      gv_constant function_name_global = true /\
      gv_linkage function_name_global = InternalLinkage /\
      gv_init function_name_global =
        Some (VDataArray (list_byte_of_string (fn_name fn) ++ [x00])) /\
      (forall g, In g (mod_globals (m_module p')) <->
                 g = landing \/ g = function_name_global \/ g = name_global \/
                 In g (mod_globals (m_module p))) /\
      ~ In landing (mod_globals (m_module p)) /\
      mod_functions (m_module p') = mod_functions (m_module p).
Proof.
  intros function p p' landing fn Hfind H.
  unfold create_landing_global, get_function in H. rewrite Hfind in H. cbn [obind] in H.
  repeat step_ok H. injection H as <- <-. cbn [m_module set_module].
  match goal with
  | E : match m_reflect_global p with Some _ => _ | None => _ end = Ok ?a |- _ =>
      assert (Hself : m_reflect_global p = Some a)
        by (destruct (m_reflect_global p); [now injection E as ->|discriminate]);
      clear E
  end.
  unfold new_GlobalVariable in *.
  repeat match goal with
    | E : (_, _) = (_, _) |- _ => injection E as <- <-
    end.
  eexists _, _, _, _.
  split; [exact Hself|]. split; [reflexivity|].
  do 11 (split; [reflexivity|]).
  split; [|split; [|reflexivity]].
  - intros g0. cbn [mod_globals set_globals gv_id]. rewrite !insert_global_before_In.
    rewrite in_app_iff. cbn [In]. intuition.
  - intros Hin. apply (in_map gv_id) in Hin. cbn [gv_id] in Hin.
    apply list_max_In in Hin. unfold fresh_global in Hin. cbn [mod_globals set_globals] in Hin.
    match type of Hin with
    | S (list_max ?L2) <= list_max ?L =>
        assert (Hmax : list_max L <= list_max L2)
    end.
    { apply list_max_le. apply List.Forall_forall. intros x Hx. apply list_max_In.
      apply in_map_iff in Hx as (y & <- & Hy). apply in_map.
      apply insert_global_before_In. right. apply in_or_app. now left. }
    lia.
Qed.

End LandingSites.

Section LandingSitesLoop.
Context `{ext : !Externals}.

Lemma create_landing_global_added function p g p' f :
  find_function function (m_module p) = Some f ->
  create_landing_global function p = Ok (g, p') ->
  In g (mod_globals (m_module p')) /\
  ~ In g (mod_globals (m_module p)) /\
  gv_name g = "_drti_landing_" +:+ fn_name f /\
  gv_constant g = false.
Proof.
  intros Hfind H.
  unfold create_landing_global, get_function in H. rewrite Hfind in H. cbn [obind] in H.
  repeat step_ok H. injection H as <- <-. cbn [m_module set_module].
  match goal with
  | E1 : new_GlobalVariable _ _ _ _ "__drti_landing_site_name" _ _ = _,
    E2 : new_GlobalVariable _ _ _ _ "__drti_landing_site_function_name" _ _ = _,
    E3 : new_GlobalVariable _ _ _ _ _ _ _ = _ |- _ =>
      apply new_GlobalVariable_globals in E1; destruct E1 as (_ & K1 & _);
      apply new_GlobalVariable_globals in E2; destruct E2 as (_ & K2 & _);
      apply new_GlobalVariable_globals in E3;
      destruct E3 as (Hin & _ & _ & _ & _ & Hid & Hname & _ & Hconst & _)
  end.
  split; [exact Hin|]. split; [|split; assumption].
  intros Hold. exact (fresh_global_not_in _ _ Hid (K2 _ (K1 _ Hold))).
Qed.

Lemma add_landing_globals_body_landing_site function p p' f :
  add_landing_globals_body function p = Ok p' ->
  find_function function (m_module p) = Some f ->
  isDeclaration f = false ->
  exists landing,
    In landing (mod_globals (m_module p')) /\
    ~ In landing (mod_globals (m_module p)) /\
    gv_name landing = "_drti_landing_" +:+ fn_name f /\
    gv_constant landing = false.
Proof.
  unfold add_landing_globals_body, get_function. intros H Hfind Hdef.
  rewrite Hfind in H. cbn [obind] in H. rewrite Hdef in H. cbn [negb] in H.
  repeat step_ok H.
  match goal with
  | E : create_landing_global _ _ = Ok (?g, ?q) |- _ =>
      destruct (create_landing_global_added _ _ _ _ _ Hfind E)
        as (Hin & Hnew & Hname & Hconst);
      exists g
  end.
  split; [|auto].
  apply (decorate_calls_globals _ _ _ _ _ H).
  match goal with
  | E : add_landing_update _ _ _ = _ |- _ =>
      rewrite (add_landing_update_globals _ _ _ _ _ E)
  end.
  exact Hin.
Qed.

(** X21.  When [add_landing_globals] comes to its end, every target
    function definition has its landing site: a global variable, not
    constant, that the module did not have before, named [_drti_landing_]
    followed by the name of the function. *)
Theorem add_landing_globals_gives_landing_sites :
  forall (p p' : DecoratePass),
    add_landing_globals p = Ok p' ->
    forall h f,
      In h (dense_order (m_target_functions p)) ->
      find_function h (m_module p) = Some f ->
      isDeclaration f = false ->
      exists landing,
        In landing (mod_globals (m_module p')) /\
        ~ In landing (mod_globals (m_module p)) /\
        gv_name landing = "_drti_landing_" +:+ fn_name f /\
        gv_constant landing = false.
Proof.
  intros p p'. unfold add_landing_globals.
  generalize (dense_order (m_target_functions p)) as functions.
  intros functions. revert p. induction functions as [|h1 rest IH]; intros p H h f Hin Hf Hdef.
  - destruct Hin.
  - cbn in H. step_ok H. rename a into p1.
    destruct (Nat.eq_dec h h1) as [->|Hne].
    + destruct (add_landing_globals_body_landing_site _ _ _ _ E Hf Hdef)
        as (landing & Hl & Hnew & Hname & Hconst).
      exists landing. repeat split; auto.
      exact (for_each_function_globals _ _ _ H landing Hl).
    + destruct Hin as [->|Hin]; [congruence|].
      destruct (add_landing_globals_body_edits_only _ _ _ E) as ((_ & O1 & _) & _).
      destruct (IH p1 H h f Hin (O1 h f Hne Hf) Hdef)
        as (landing & Hl & Hnew & Hname & Hconst).
      exists landing. repeat split; auto.
      intros Hold. apply Hnew.
      exact (add_landing_globals_body_globals _ _ _ E landing Hold).
Qed.

End LandingSitesLoop.

(** ** The further properties on the demonstration module *)

Lemma targets_from_environment_reads_back_names_witness :
  Config.targets_from_environment Samples.listed_env = Ok (list_to_set ["hot_fn"; "helper"]).
Proof.
  apply (targets_from_environment_reads_back_names Samples.listed_env ["hot_fn"; "helper"]).
  - discriminate.
  - repeat constructor; discriminate.
  - reflexivity.
  - reflexivity.
Defined.

Lemma targets_from_environment_unreadable_file_witness :
  exists names,
    Config.targets_from_environment Samples.unreadable_env = Ok names /\
    forall x, x ∈ names <-> In x ["hot_fn"].
Proof.
  destruct (targets_from_environment_unreadable_file Samples.unreadable_env "/no/such/file")
    as (_ & Hnames & _).
  - reflexivity.
  - reflexivity.
  - destruct (Config.targets_from_environment Samples.unreadable_env) as [names| |] eqn:E;
      [|vm_compute in E; discriminate E..].
    exists names. split; [reflexivity|].
    destruct (Hnames names eq_refl) as (list & Hlist & Hin).
    injection Hlist as <-. exact Hin.
Defined.

Lemma runOnModule_without_configuration_aborts_witness :
  snd (@runOnModule (Demo.externals Demo.support) Demo.empty_env Demo.module) =
  Fatal Config.no_targets_message.
Proof.
  apply (@runOnModule_without_configuration_aborts (Demo.externals Demo.support)
           Demo.empty_env Demo.module).
  - reflexivity.
  - reflexivity.
Defined.

Lemma runOnModule_no_target_function_witness :
  snd (@runOnModule (Demo.externals Demo.support) Demo.env Samples.plain_module) =
  Ok (false, Samples.plain_module).
Proof.
  apply (@runOnModule_no_target_function (Demo.externals Demo.support)
           Demo.env Samples.plain_module Demo.names).
  - reflexivity.
  - vm_compute. reflexivity.
  - intros f [<-|[]]. vm_compute. intros H. discriminate H.
Defined.

Lemma runOnModule_support_not_added_witness :
  snd (@runOnModule Samples.failing_externals Demo.env Demo.module) =
  Ok (false, Demo.module).
Proof.
  destruct (@runOnModule_support_not_added Samples.failing_externals
              Demo.env Demo.module Demo.names) as [_ Hlink].
  - reflexivity.
  - vm_compute. reflexivity.
  - vm_compute. reflexivity.
  - apply (Hlink Demo.support Demo.module); reflexivity.
Defined.

Lemma runOnModule_decorates_once_witness :
  mod_triple Demo.decorated = "x86_64_drti-unknown-linux-gnu" /\
  forall env',
    @runOnModule (Demo.externals Demo.support) env' Demo.decorated =
    ([], Ok (false, Demo.decorated)).
Proof.
  apply (@runOnModule_decorates_once (Demo.externals Demo.support)
           Demo.env Demo.module Demo.support Demo.linked Demo.decorated).
  - reflexivity.
  - reflexivity.
  - reflexivity.
  - vm_compute. reflexivity.
  - vm_compute. reflexivity.
Defined.

Lemma runOnModule_deletes_nothing_witness :
  mod_struct_types Demo.decorated = mod_struct_types Demo.linked /\
  (forall g, In g (mod_globals Demo.linked) -> In g (mod_globals Demo.decorated)) /\
  (forall h f, find_function h Demo.linked = Some f ->
     exists f', find_function h Demo.decorated = Some f' /\
                fn_name f' = fn_name f /\ fn_type f' = fn_type f).
Proof.
  apply (@runOnModule_deletes_nothing (Demo.externals Demo.support)
           Demo.env Demo.module Demo.support Demo.linked Demo.decorated).
  - reflexivity.
  - reflexivity.
  - reflexivity.
  - vm_compute. reflexivity.
  - vm_compute. reflexivity.
Defined.

Lemma runOnModule_instruments_target_definitions_only_witness :
  find_function 12 Demo.decorated = Some (strip_markers Demo.other) /\
  find_function 11 Demo.decorated = Some (strip_markers Demo.helper).
Proof.
  pose proof (@runOnModule_instruments_target_definitions_only (Demo.externals Demo.support)
                Demo.env Demo.module Demo.support Demo.linked Demo.decorated Demo.names)
    as H.
  split.
  - apply H.
    + reflexivity.
    + vm_compute. reflexivity.
    + reflexivity.
    + reflexivity.
    + vm_compute. reflexivity.
    + intros l h Hh. exact Hh.
    + vm_compute. reflexivity.
    + reflexivity.
    + left. reflexivity.
  - apply H.
    + reflexivity.
    + vm_compute. reflexivity.
    + reflexivity.
    + reflexivity.
    + vm_compute. reflexivity.
    + intros l h Hh. exact Hh.
    + vm_compute. reflexivity.
    + reflexivity.
    + left. reflexivity.
Defined.

Lemma collect_globals_strips_definitions_witness :
  exists f',
    find_function 10 (m_module (snd (@collect_globals (Demo.externals Demo.support)
                                       Samples.linked_pass))) = Some f' /\
    fn_blocks f' = fn_blocks Demo.hot_fn /\
    ~ In OptimizeNone (fn_attrs f') /\ ~ In NoInline (fn_attrs f').
Proof.
  destruct (@collect_globals_strips_definitions (Demo.externals Demo.support)
              Samples.linked_pass 10 Demo.hot_fn)
    as (f' & Hf & _ & _ & _ & Hb & Ha).
  - reflexivity.
  - exists f'. split; [exact Hf|]. split; [exact Hb|].
    split; intros Hin; apply Ha in Hin as [_ Hin];
      destruct (Hin eq_refl eq_refl) as [H1 H2]; congruence.
Defined.

Lemma create_self_globals_table_witness :
  exists table,
    In table (mod_globals (m_module Demo.ready)) /\
    gv_name table = "__drti_globals" /\
    gv_init table =
      Some (VConstArray (TPtr (TInt 8))
              (map (fun g => ConstantExpr_getBitCast g (TPtr (TInt 8)))
                   (map function_value [Demo.helper; Demo.other; Demo.landed;
                                        Demo.call_from]))).
Proof.
  destruct (@create_self_globals_table (Demo.externals Demo.support)
              (snd (lookup_helpers Samples.linked_pass)) Demo.ready)
    as (table & self & bp & bs & Hin & Hname & _ & Hinit & _).
  - vm_compute. reflexivity.
  - exists table. split; [exact Hin|]. split; [exact Hname|]. exact Hinit.
Defined.

Lemma add_landing_update_malformed_entry_witness :
  @add_landing_update (Demo.externals Demo.support) 20 Demo.landing_site Samples.bare_pass =
  Fatal "drti-decorate: Malformed entry block in function bare".
Proof.
  apply (@add_landing_update_malformed_entry (Demo.externals Demo.support)
           20 Demo.landing_site Samples.bare_pass Samples.bare_fn
           {| bb_id := 0; bb_name := "entry"; bb_insts := [Demo.slot] |} []).
  - reflexivity.
  - reflexivity.
  - repeat constructor.
Defined.

Lemma add_landing_update_moves_the_body_witness :
  exists caller p' fn' entry' land1 more phi,
    @add_landing_update (Demo.externals Demo.support) 10 Demo.landing_site Demo.ready =
      Ok (caller, p') /\
    find_function 10 (m_module p') = Some fn' /\
    fn_blocks fn' = entry' :: land1 :: more /\
    (exists code, bb_insts entry' = [Demo.slot] ++ code /\
                  Forall (fun i => is_alloca i = false) code) /\
    bb_insts land1 =
      phi :: [Demo.asm_call; Demo.helper_call; Demo.other_call; Demo.fp; Demo.pointer_call;
              Demo.ret].
Proof.
  destruct (@add_landing_update_moves_the_body (Demo.externals Demo.support)
              10 Demo.landing_site Demo.ready Demo.ready_hot_fn
              Demo.entry [] [Demo.slot] Demo.asm_call
              [Demo.helper_call; Demo.other_call; Demo.fp; Demo.pointer_call; Demo.ret]
              Demo.ret Demo.t_treenode Demo.landed)
    as (caller & p' & fn' & entry' & land1 & more & phi & code & Hadd & Hfind & _ & Hb & _ &
        _ & He & Hc & _ & Hl & _).
  - vm_compute. reflexivity.
  - reflexivity.
  - reflexivity.
  - repeat constructor.
  - reflexivity.
  - reflexivity.
  - reflexivity.
  - vm_compute. distinct_handles.
  - vm_compute. reflexivity.
  - vm_compute. reflexivity.
  - exists caller, p', fn', entry', land1, more, phi. repeat split; eauto.
Defined.

Lemma return_address_aligned_iff_multiple_witness :
  @return_address_aligned (Demo.externals Demo.support) Demo.landing_world = true <->
  (@return_address Demo.landing_world mod 16 = 0)%Z.
Proof.
  apply (@return_address_aligned_iff_multiple (Demo.externals Demo.support)
           Demo.landing_world 4%Z).
  - lia.
  - reflexivity.
  - vm_compute. discriminate.
Defined.

Lemma probe_address_before_return_address_witness :
  @probe_address (Demo.externals Demo.support) Demo.landing_world = 4080%Z.
Proof.
  rewrite (@probe_address_before_return_address (Demo.externals Demo.support)
             Demo.landing_world).
  - reflexivity.
  - cbn. lia.
  - reflexivity.
Defined.

Lemma lookup_helpers_true_gives_helpers_witness :
  inline_field m_drti_treenode_type (snd (lookup_helpers Samples.linked_pass)) =
    Ok Demo.t_treenode /\
  exists call_from,
    inline_field m_drti_call_from (snd (lookup_helpers Samples.linked_pass)) = Ok call_from /\
    fn_name call_from = "_drti_call_from".
Proof.
  destruct (lookup_helpers_true_gives_helpers Samples.linked_pass)
    as (_ & _ & _ & Ht & _ & _ & (call_from & Hcf & _ & Hname)).
  - vm_compute. reflexivity.
  - split; [exact Ht|]. exists call_from. split; [exact Hcf|exact Hname].
Defined.

Lemma collect_calls_numbers_increase_witness :
  StronglySorted Z.lt (map fst (collect_calls Demo.hot_fn Demo.discovered)) /\
  List.NoDup (map fst (collect_calls Demo.hot_fn Demo.discovered)) /\
  forall n, In n (map fst (collect_calls Demo.hot_fn Demo.discovered)) ->
            (0 <= n < Z.of_nat (length (call_insts Demo.hot_fn)))%Z.
Proof.
  apply (collect_calls_numbers_increase Demo.discovered Demo.hot_fn).
  vm_compute. discriminate.
Defined.

Lemma calls_of_discovered_targets_are_collected_witness :
  selected Demo.hot_fn (snd (find_target_functions (DecoratePass_new Demo.names Demo.module)))
           Demo.helper_call.
Proof.
  destruct (calls_of_discovered_targets_are_collected Demo.names Demo.module Demo.hot_fn
              Demo.helper_call Demo.helper) as (Hdirect & _).
  - distinct_handles.
  - cbn. tauto.
  - cbn. tauto.
  - unfold Demo.names. apply elem_of_union. right. now apply elem_of_singleton.
  - apply Hdirect. reflexivity.
Defined.

Lemma decorate_call_keeps_the_call_witness :
  exists p' fn' newTarget call',
    decorate_call (VNull (TPtr Demo.t_treenode))
      (ref_of Demo.ready_hot_fn Demo.pointer_call) Demo.landing_site Demo.ready = Ok p' /\
    find_function 10 (m_module p') = Some fn' /\
    In call' (fn_insts fn') /\
    inst_id call' = 5 /\ inst_name call' = "" /\ inst_type call' = TVoid /\
    inst_op call' = Call TCK_NoTail newTarget [] /\
    value_type newTarget = TPtr Demo.ft_void /\
    4 <= length (fn_insts fn') - length (fn_insts Demo.ready_hot_fn) <= 6.
Proof.
  destruct (decorate_call_keeps_the_call
              (VNull (TPtr Demo.t_treenode))
              (ref_of Demo.ready_hot_fn Demo.pointer_call) Demo.landing_site Demo.ready
              Demo.ready_hot_fn Demo.pointer_call (VInst 4 (TPtr Demo.ft_void))
              Demo.call_from Demo.t_treenode Demo.i8p)
    as (p' & fn' & newTarget & call' & Hdec & Hfind & _ & Hin &
        (Hid & Hname & Htype & _ & Hty & Hop) & _ & _ & Hlen).
  - vm_compute. reflexivity.
  - vm_compute. distinct_handles.
  - vm_compute. tauto.
  - reflexivity.
  - reflexivity.
  - vm_compute. reflexivity.
  - reflexivity.
  - vm_compute. reflexivity.
  - exists p', fn', newTarget, call'. repeat split; auto; lia.
Defined.

Lemma create_landing_global_record_witness :
  exists landing p',
    create_landing_global 10 Demo.ready = Ok (landing, p') /\
    gv_name landing = "_drti_landing_hot_fn" /\
    ~ In landing (mod_globals (m_module Demo.ready)) /\
    mod_functions (m_module p') = mod_functions (m_module Demo.ready).
Proof.
  destruct (create_landing_global 10 Demo.ready)
    as [[landing p']| |] eqn:E; [|vm_compute in E; discriminate E..].
  destruct (create_landing_global_record 10 Demo.ready p' landing Demo.ready_hot_fn)
    as (ng & fg & self & lst & _ & _ & Hname & _ & _ & _ & _ & _ & _ & _ & _ & _ & _ & _ &
        Hnew & Hf).
  - vm_compute. reflexivity.
  - exact E.
  - exists landing, p'. repeat split; auto.
Defined.

Lemma add_landing_globals_gives_landing_sites_witness :
  exists final landing,
    @add_landing_globals (Demo.externals Demo.support) Demo.ready = Ok final /\
    In landing (mod_globals (m_module final)) /\
    gv_name landing = "_drti_landing_hot_fn".
Proof.
  destruct (@add_landing_globals (Demo.externals Demo.support) Demo.ready)
    as [final| |] eqn:E; [|vm_compute in E; discriminate E..].
  destruct (@add_landing_globals_gives_landing_sites (Demo.externals Demo.support)
              Demo.ready final E 10 Demo.ready_hot_fn)
    as (landing & Hin & _ & Hname & _).
  - vm_compute. tauto.
  - vm_compute. reflexivity.
  - reflexivity.
  - exists final, landing. auto.
Defined.
